(** * The landing starfield and the solar system (script.js, planetScript.js)

    A shallow embedding of the two scripts of the page: the closures they
    create, the listeners they register and the per-frame updates, over an
    explicit model of the part of the browser they talk to (document,
    window listeners, animation-frame queue, timers, tweens, Math.random)
    and of the Three.js objects they build. *)

From Stdlib Require Import ZArith Reals Lra Lia.
From Stdlib Require Import Floats Uint63.
From stdpp Require Import gmap strings list.

(** ** JavaScript numbers

    Every arithmetic expression of the two scripts is written against this
    interface, so that one definition of each function is read both as
    IEEE-754 binary64 arithmetic (the instance [Float64], which computes)
    and as real arithmetic (the instance [Ideal], in which Math.cos and
    Math.sin are the functions of analysis). *)

Class JSNumber (num : Type) := {
  (** the decimal literal [m]e-[k], e.g. [lit 5 1] for 0.5 *)
  lit : Z → nat → num;
  num_add : num → num → num;
  num_sub : num → num → num;
  num_mul : num → num → num;
  num_div : num → num → num;
  num_neg : num → num;
  (** [a < b] *)
  num_lt : num → num → bool;
  Math_max : num → num → num;
  Math_min : num → num → num;
  Math_cos : num → num;
  Math_sin : num → num;
  Math_acos : num → num;
  Math_PI : num;
  (** the value read back from a Float32Array element after a store *)
  Math_fround : num → num
}.

Declare Scope js_scope.
Delimit Scope js_scope with js.
Infix "+" := num_add : js_scope.
Infix "-" := num_sub : js_scope.
Infix "*" := num_mul : js_scope.
Infix "/" := num_div : js_scope.
Notation "- x" := (num_neg x) : js_scope.

(** *** binary64 *)

Module F64.

Definition of_Z (z : Z) : float :=
  match z with
  | Zneg p => PrimFloat.opp (PrimFloat.of_uint63 (Uint63.of_Z (Zpos p)))
  | _ => PrimFloat.of_uint63 (Uint63.of_Z z)
  end.

(** [m / 10^k], one correctly rounded division of two integers that are
    exact in binary64: the value a decimal literal denotes. *)
Definition literal (m : Z) (k : nat) : float :=
  match k with
  | O => of_Z m
  | _ => PrimFloat.div (of_Z m) (of_Z (10 ^ Z.of_nat k))
  end.

Definition is_neg_zero (a : float) : bool :=
  PrimFloat.eqb a PrimFloat.zero && PrimFloat.get_sign a.

(** Math.max: NaN when an argument is NaN, and +0 is larger than -0. *)
Definition max (a b : float) : float :=
  if PrimFloat.is_nan a || PrimFloat.is_nan b then PrimFloat.nan
  else if PrimFloat.ltb a b then b
  else if PrimFloat.ltb b a then a
  else if is_neg_zero a then b else a.

(** Math.min: NaN when an argument is NaN, and -0 is smaller than +0. *)
Definition min (a b : float) : float :=
  if PrimFloat.is_nan a || PrimFloat.is_nan b then PrimFloat.nan
  else if PrimFloat.ltb a b then a
  else if PrimFloat.ltb b a then b
  else if is_neg_zero a then a else b.

(** Rounding to binary32 and back (precision 24, emax 128). *)
Definition fround (a : float) : float :=
  match Prim2SF a with
  | S754_finite s m e => SF2Prim (binary_normalize 24 128 (cond_Zopp s (Zpos m)) e s)
  | _ => a
  end.

(** The real number a finite binary64 value stands for (0 for the
    others). *)
Definition to_R (a : float) : R :=
  match Prim2SF a with
  | S754_finite s m e => (IZR (cond_Zopp s (Zpos m)) * powerRZ 2 e)%R
  | _ => 0%R
  end.

(** Math.PI, 0x1.921fb54442d18p+1 *)
Definition PI : float := Eval vm_compute in Z.ldexp (of_Z 884279719003555) (-48).

End F64.

(** The accuracy of Math.cos, Math.sin and Math.acos is left to the
    implementation by the language standard: the instance takes them as
    given. *)
Definition Float64 (cos sin acos : float → float) : JSNumber float := {|
  lit := F64.literal;
  num_add := PrimFloat.add;
  num_sub := PrimFloat.sub;
  num_mul := PrimFloat.mul;
  num_div := PrimFloat.div;
  num_neg := PrimFloat.opp;
  num_lt := PrimFloat.ltb;
  Math_max := F64.max;
  Math_min := F64.min;
  Math_cos := cos;
  Math_sin := sin;
  Math_acos := acos;
  Math_PI := F64.PI;
  Math_fround := F64.fround
|}.

(** *** real numbers *)

Module Real.

Definition literal (m : Z) (k : nat) : R := (IZR m / 10 ^ k)%R.

Definition ltb (a b : R) : bool := if Rlt_dec a b then true else false.

End Real.

Definition Ideal : JSNumber R := {|
  lit := Real.literal;
  num_add := Rplus;
  num_sub := Rminus;
  num_mul := Rmult;
  num_div := Rdiv;
  num_neg := Ropp;
  num_lt := Real.ltb;
  Math_max := Rmax;
  Math_min := Rmin;
  Math_cos := cos;
  Math_sin := sin;
  Math_acos := acos;
  Math_PI := PI;
  Math_fround := λ x, x
|}.

(** ** Three.js values and objects *)

Section Three.
Context {num : Type} `{!JSNumber num}.

Record Vector2 := mkVector2 { v2_x : num; v2_y : num }.

Record Vector3 := mkVector3 { v_x : num; v_y : num; v_z : num }.

(** [planetMesh.userData] *)
Record UserData := mkUserData {
  name : string;
  content : string;
  orbitalRadius : num;
  speed : num;
  angle : num
}.

Inductive Geometry :=
| SphereGeometry (radius : num) (widthSegments heightSegments : nat)
| RingGeometry (innerRadius outerRadius : num) (thetaSegments : nat)
(** a BufferGeometry with its 'position' attribute: the Float32Array and
    the item size *)
| BufferGeometry (positions : list num) (itemSize : nat).

Inductive Material :=
| MeshBasicMaterial (color : Z) (doubleSide transparent : bool) (opacity : num)
| MeshStandardMaterial (color : Z)
| PointsMaterial (color : Z) (pointSize : num) (sizeAttenuation : bool).

Inductive ObjectKind :=
| AmbientLight (color : Z)
| PointLight (color : Z) (intensity distance : num)
| Points (g : Geometry) (m : Material)
| Mesh (g : Geometry) (m : Material).

(** What the scripts read and write of an Object3D. [userData] is [None]
    for the empty object every Object3D starts with. *)
Record Object3D := mkObject3D {
  kind : ObjectKind;
  position : Vector3;
  rotation : Vector3;
  userData : option UserData
}.

(** A PerspectiveCamera. [lookAt] turns the camera where it stands:
    [orientation] keeps the eye and the target of the last call, [None]
    being the orientation a camera is created with. *)
Record Camera := mkCamera {
  fov : num;
  aspect : num;
  near : num;
  far : num;
  cam_position : Vector3;
  orientation : option (Vector3 * Vector3)
}.

(** A WebGLRenderer: the canvas it draws on ([None]: a canvas of its own,
    outside the document), its size, and how many frames it has drawn. *)
Record WebGLRenderer := mkRenderer {
  domElement : option string;
  pixelRatio : num;
  width : num;
  height : num;
  rendered : nat
}.

(** An entry of the array [Raycaster.intersectObjects] returns. *)
Record Intersection := mkIntersection {
  distance : num;
  object : nat
}.

Definition set_position (p : Vector3) (o : Object3D) : Object3D :=
  mkObject3D (kind o) p (rotation o) (userData o).

Definition set_rotation (r : Vector3) (o : Object3D) : Object3D :=
  mkObject3D (kind o) (position o) r (userData o).

Definition set_userData (u : option UserData) (o : Object3D) : Object3D :=
  mkObject3D (kind o) (position o) (rotation o) u.

Definition set_angle (a : num) (u : UserData) : UserData :=
  mkUserData (name u) (content u) (orbitalRadius u) (speed u) a.

Definition set_cam_position (p : Vector3) (c : Camera) : Camera :=
  mkCamera (fov c) (aspect c) (near c) (far c) p (orientation c).

Definition set_aspect (a : num) (c : Camera) : Camera :=
  mkCamera (fov c) a (near c) (far c) (cam_position c) (orientation c).

(** [camera.lookAt(t)] *)
Definition lookAt (t : Vector3) (c : Camera) : Camera :=
  mkCamera (fov c) (aspect c) (near c) (far c) (cam_position c)
           (Some (cam_position c, t)).

(** [renderer.setSize(w, h)] *)
Definition setSize (w h : num) (r : WebGLRenderer) : WebGLRenderer :=
  mkRenderer (domElement r) (pixelRatio r) w h (rendered r).

(** [renderer.render(scene, camera)] *)
Definition render (r : WebGLRenderer) : WebGLRenderer :=
  mkRenderer (domElement r) (pixelRatio r) (width r) (height r) (S (rendered r)).

Definition origin : Vector3 := mkVector3 (lit 0 0) (lit 0 0) (lit 0 0).

(** [new THREE.Mesh(g, m)], [new THREE.Points(g, m)], a light: at the
    origin, not rotated, with empty user data. *)
Definition new_object (k : ObjectKind) : Object3D :=
  mkObject3D k origin origin None.

Definition new_camera (fov aspect near far : num) : Camera :=
  mkCamera fov aspect near far origin None.

End Three.

(** ** The page *)

(** The closures the scripts hand to [addEventListener]. Those of
    planetScript.js carry the number of the [initSolarSystem] activation
    that created them. *)
Inductive Listener :=
| Landing_onMouseMove
| Landing_onWheel
| Landing_onResize
| Landing_iconClick
| Solar_onCanvasClick (e : nat)
| Solar_closeClick (e : nat)
| Solar_onWheel (e : nat)
| Solar_onResize (e : nat)
| Solar_onMouseMove (e : nat).

(** The closures handed to [requestAnimationFrame], [setTimeout] and
    gsap's [onComplete]. *)
Inductive Callback :=
| Landing_animate
| Landing_onComplete
| Solar_animate (e : nat)
| Solar_hidePanel (e : nat).

#[global] Instance Listener_eq_dec : EqDecision Listener.
Proof. solve_decision. Defined.

#[global] Instance Callback_eq_dec : EqDecision Callback.
Proof. solve_decision. Defined.

(** How a call ended. *)
Inductive Completion :=
| Normal
| Throw (error : string).

(** What the scripts touch of a DOM element. *)
Record Element := mkElement {
  dataset : gmap string string;
  classList : list string;
  textContent : string;
  listeners : list (string * Listener)
}.

(** [target.addEventListener(type, f)]: a listener already registered for
    the type is not registered twice. *)
Definition addListener (type : string) (f : Listener)
    (l : list (string * Listener)) : list (string * Listener) :=
  if decide ((type, f) ∈ l) then l else l ++ [(type, f)].

(** [target.removeEventListener(type, f)] *)
Definition removeListener (type : string) (f : Listener)
    (l : list (string * Listener)) : list (string * Listener) :=
  filter (λ tf, tf ≠ (type, f)) l.

(** The listeners of a type, in the order of their registration. *)
Definition listenersOf (type : string) (l : list (string * Listener)) : list Listener :=
  snd <$> filter (λ tf, tf.1 = type) l.

(** [classList.add(token)] and [classList.remove(token)] *)
Definition classList_add (token : string) (l : list string) : list string :=
  if decide (token ∈ l) then l else l ++ [token].

Definition classList_remove (token : string) (l : list string) : list string :=
  filter (λ t, t ≠ token) l.

(** A string is falsy exactly when it is empty; [undefined] is falsy. *)
Definition truthy (v : option string) : bool :=
  match v with
  | Some s => negb (String.eqb s "")
  | None => false
  end.

Definition set_dataset (d : gmap string string) (el : Element) : Element :=
  mkElement d (classList el) (textContent el) (listeners el).

Definition set_classList (c : list string) (el : Element) : Element :=
  mkElement (dataset el) c (textContent el) (listeners el).

Definition set_textContent (t : string) (el : Element) : Element :=
  mkElement (dataset el) (classList el) t (listeners el).

Definition set_listeners (l : list (string * Listener)) (el : Element) : Element :=
  mkElement (dataset el) (classList el) (textContent el) l.

(** A gsap tween in progress. *)
Record Tween {num : Type} := mkTween {
  tw_target : string;
  tw_duration : num;
  tw_scale : option num;
  tw_opacity : num;
  tw_onComplete : option Callback
}.
Arguments Tween : clear implicits.
Arguments mkTween {num}.

(** The variables of the DOMContentLoaded closure of script.js. Elements
    are kept by their id ([None] for the [null] of a failed lookup),
    Three.js objects of the scene by their address in the world's store. *)
Module Landing.
Section Env.
Context {num : Type}.

Record Env := mkEnv {
  canvas : option string;
  iconContainer : option string;
  introOverlay : option string;
  renderer : @WebGLRenderer num;
  camera : @Camera num;
  scene : list nat;
  stars : nat;
  targetX : num;
  targetY : num;
  mouseX : num;
  mouseY : num
}.

Definition set_renderer (r : WebGLRenderer) (v : Env) : Env :=
  mkEnv (canvas v) (iconContainer v) (introOverlay v) r (camera v) (scene v)
        (stars v) (targetX v) (targetY v) (mouseX v) (mouseY v).

Definition set_camera (c : Camera) (v : Env) : Env :=
  mkEnv (canvas v) (iconContainer v) (introOverlay v) (renderer v) c (scene v)
        (stars v) (targetX v) (targetY v) (mouseX v) (mouseY v).

Definition set_target (tx ty : num) (v : Env) : Env :=
  mkEnv (canvas v) (iconContainer v) (introOverlay v) (renderer v) (camera v)
        (scene v) (stars v) tx ty (mouseX v) (mouseY v).

Definition set_mouse (mx my : num) (v : Env) : Env :=
  mkEnv (canvas v) (iconContainer v) (introOverlay v) (renderer v) (camera v)
        (scene v) (stars v) (targetX v) (targetY v) mx my.

End Env.
Arguments Env : clear implicits.
End Landing.

(** The variables of one activation of [initSolarSystem]. *)
Module Solar.
Section Env.
Context {num : Type}.

Record Env := mkEnv {
  canvas : string;
  infoPanel : option string;
  closeBtn : option string;
  titleEl : option string;
  contentEl : option string;
  renderer : @WebGLRenderer num;
  camera : @Camera num;
  scene : list nat;
  planets : list nat;
  (** [raycaster], as [setFromCamera] last set it *)
  raycaster : option (@Vector2 num * @Camera num);
  mouse : @Vector2 num;
  mouseX : num;
  mouseY : num
}.

Definition set_renderer (r : WebGLRenderer) (v : Env) : Env :=
  mkEnv (canvas v) (infoPanel v) (closeBtn v) (titleEl v) (contentEl v) r
        (camera v) (scene v) (planets v) (raycaster v) (mouse v) (mouseX v) (mouseY v).

Definition set_camera (c : Camera) (v : Env) : Env :=
  mkEnv (canvas v) (infoPanel v) (closeBtn v) (titleEl v) (contentEl v)
        (renderer v) c (scene v) (planets v) (raycaster v) (mouse v) (mouseX v) (mouseY v).

Definition set_raycaster (r : option (Vector2 * Camera)) (v : Env) : Env :=
  mkEnv (canvas v) (infoPanel v) (closeBtn v) (titleEl v) (contentEl v)
        (renderer v) (camera v) (scene v) (planets v) r (mouse v) (mouseX v) (mouseY v).

Definition set_mouse (m : Vector2) (v : Env) : Env :=
  mkEnv (canvas v) (infoPanel v) (closeBtn v) (titleEl v) (contentEl v)
        (renderer v) (camera v) (scene v) (planets v) (raycaster v) m (mouseX v) (mouseY v).

Definition set_mouseXY (mx my : num) (v : Env) : Env :=
  mkEnv (canvas v) (infoPanel v) (closeBtn v) (titleEl v) (contentEl v)
        (renderer v) (camera v) (scene v) (planets v) (raycaster v) (mouse v) mx my.

End Env.
Arguments Env : clear implicits.
End Solar.

Section World.
Context {num : Type} `{!JSNumber num}.

(** [Math.random]: the values it will return, and how many were drawn. *)
Record Random := mkRandom {
  entropy : nat → num;
  drawn : nat
}.

(** The Three.js objects that were added to a scene, by address. *)
Record Store := mkStore {
  objects : gmap nat (@Object3D num);
  next_object : nat
}.

(** The state of the page between two turns of the event loop. *)
Record World := mkWorld {
  (** [document.getElementById] *)
  document : gmap string Element;
  window_listeners : list (string * Listener);
  innerWidth : num;
  innerHeight : num;
  devicePixelRatio : num;
  (** [typeof window.initSolarSystem === 'function'] *)
  has_initSolarSystem : bool;
  random : Random;
  store : Store;
  (** the closure of script.js, once DOMContentLoaded has fired *)
  landing : option (Landing.Env num);
  (** the closures of planetScript.js, one per activation that passed
      the guard *)
  solar : list (Solar.Env num);
  (** callbacks waiting for the next animation frame *)
  frame_requests : list Callback;
  (** [setTimeout] callbacks waiting, with their delay *)
  timeouts : list (num * Callback);
  (** gsap tweens in progress *)
  tweens : list (Tween num)
}.

Definition set_document (d : gmap string Element) (w : World) : World :=
  mkWorld d (window_listeners w) (innerWidth w) (innerHeight w)
    (devicePixelRatio w) (has_initSolarSystem w) (random w) (store w)
    (landing w) (solar w) (frame_requests w) (timeouts w) (tweens w).

Definition set_window_listeners (l : list (string * Listener)) (w : World) : World :=
  mkWorld (document w) l (innerWidth w) (innerHeight w)
    (devicePixelRatio w) (has_initSolarSystem w) (random w) (store w)
    (landing w) (solar w) (frame_requests w) (timeouts w) (tweens w).

Definition set_inner (width height : num) (w : World) : World :=
  mkWorld (document w) (window_listeners w) width height
    (devicePixelRatio w) (has_initSolarSystem w) (random w) (store w)
    (landing w) (solar w) (frame_requests w) (timeouts w) (tweens w).

Definition set_random (r : Random) (w : World) : World :=
  mkWorld (document w) (window_listeners w) (innerWidth w) (innerHeight w)
    (devicePixelRatio w) (has_initSolarSystem w) r (store w)
    (landing w) (solar w) (frame_requests w) (timeouts w) (tweens w).

Definition set_store (s : Store) (w : World) : World :=
  mkWorld (document w) (window_listeners w) (innerWidth w) (innerHeight w)
    (devicePixelRatio w) (has_initSolarSystem w) (random w) s
    (landing w) (solar w) (frame_requests w) (timeouts w) (tweens w).

Definition set_landing (v : option (Landing.Env num)) (w : World) : World :=
  mkWorld (document w) (window_listeners w) (innerWidth w) (innerHeight w)
    (devicePixelRatio w) (has_initSolarSystem w) (random w) (store w)
    v (solar w) (frame_requests w) (timeouts w) (tweens w).

Definition set_solar (s : list (Solar.Env num)) (w : World) : World :=
  mkWorld (document w) (window_listeners w) (innerWidth w) (innerHeight w)
    (devicePixelRatio w) (has_initSolarSystem w) (random w) (store w)
    (landing w) s (frame_requests w) (timeouts w) (tweens w).

Definition set_frame_requests (f : list Callback) (w : World) : World :=
  mkWorld (document w) (window_listeners w) (innerWidth w) (innerHeight w)
    (devicePixelRatio w) (has_initSolarSystem w) (random w) (store w)
    (landing w) (solar w) f (timeouts w) (tweens w).

Definition set_timeouts (t : list (num * Callback)) (w : World) : World :=
  mkWorld (document w) (window_listeners w) (innerWidth w) (innerHeight w)
    (devicePixelRatio w) (has_initSolarSystem w) (random w) (store w)
    (landing w) (solar w) (frame_requests w) t (tweens w).

Definition set_tweens (t : list (Tween num)) (w : World) : World :=
  mkWorld (document w) (window_listeners w) (innerWidth w) (innerHeight w)
    (devicePixelRatio w) (has_initSolarSystem w) (random w) (store w)
    (landing w) (solar w) (frame_requests w) (timeouts w) t.

(** *** The browser's and the libraries' operations *)

(** [Math.random()] *)
Definition Math_random (r : Random) : num * Random :=
  (entropy r (drawn r), mkRandom (entropy r) (S (drawn r))).

(** [scene.add(o)] for a new object: it gets the next address of the
    store, which is returned. *)
Definition scene_add (o : Object3D) (s : Store) : nat * Store :=
  (next_object s, mkStore (<[next_object s := o]> (objects s)) (S (next_object s))).

(** A change to an object of the store. *)
Definition update_object (a : nat) (f : Object3D → Object3D) (s : Store) : Store :=
  mkStore (alter f a (objects s)) (next_object s).

(** [document.getElementById(id)], as the id when the element exists *)
Definition getElementById (id : string) (w : World) : option string :=
  match document w !! id with
  | Some _ => Some id
  | None => None
  end.

(** A change to an element the script holds. *)
Definition update_element (id : string) (f : Element → Element) (w : World) : World :=
  set_document (alter f id (document w)) w.

Definition window_addEventListener (type : string) (f : Listener) (w : World) : World :=
  set_window_listeners (addListener type f (window_listeners w)) w.

Definition window_removeEventListener (type : string) (f : Listener) (w : World) : World :=
  set_window_listeners (removeListener type f (window_listeners w)) w.

Definition element_addEventListener (id type : string) (f : Listener) (w : World) : World :=
  update_element id (λ el, set_listeners (addListener type f (listeners el)) el) w.

Definition requestAnimationFrame (f : Callback) (w : World) : World :=
  set_frame_requests (frame_requests w ++ [f]) w.

Definition setTimeout (f : Callback) (delay : num) (w : World) : World :=
  set_timeouts (timeouts w ++ [(delay, f)]) w.

(** [gsap.to(target, vars)] *)
Definition gsap_to (t : Tween num) (w : World) : World :=
  set_tweens (tweens w ++ [t]) w.

Definition update_store (f : Store → Store) (w : World) : World :=
  set_store (f (store w)) w.

Definition update_solar (e : nat) (f : Solar.Env num → Solar.Env num) (w : World) : World :=
  set_solar (alter f e (solar w)) w.

Definition update_landing (f : Landing.Env num → Landing.Env num) (w : World) : World :=
  set_landing (f <$> landing w) w.

End World.
Arguments Random : clear implicits.
Arguments Store : clear implicits.
Arguments World : clear implicits.

(** ** Three.js: picking

    [Raycaster.intersectObjects] collects the hits of the ray on each
    object of the array it is given and returns them sorted by distance,
    nearest first. Where the ray meets a mesh is geometry inside Three.js:
    [raycast] stands for it. *)

Section Raycaster.
Context {num : Type} `{!JSNumber num}.
Variable raycast : @Vector2 num → @Camera num → @Object3D num → list num.
Local Open Scope js_scope.

(** The comparator [ascSort(a, b)] of Three.js. *)
Definition ascSort (a b : @Intersection num) : num := distance a - distance b.

(** [x] goes before the first entry that the comparator puts before
    nothing of it: the sort is stable. *)
Fixpoint insert_hit (x : Intersection) (l : list Intersection) : list Intersection :=
  match l with
  | [] => [x]
  | y :: l' =>
      if num_lt (ascSort y x) (lit 0 0) then y :: insert_hit x l' else x :: y :: l'
  end.

Definition sort_hits (l : list Intersection) : list Intersection :=
  foldr insert_hit [] l.

Definition hits_of (mouse : Vector2) (cam : Camera) (store : gmap nat Object3D)
    (a : nat) : list Intersection :=
  match store !! a with
  | Some o => (λ d, mkIntersection d a) <$> raycast mouse cam o
  | None => []
  end.

Definition intersectObjects (mouse : Vector2) (cam : Camera)
    (store : gmap nat Object3D) (objs : list nat) : list Intersection :=
  sort_hits (objs ≫= hits_of mouse cam store).

End Raycaster.

(** ** planetScript.js *)

Module PlanetScript.
Section Script.
Context {num : Type} `{!JSNumber num}.
Variable raycast : @Vector2 num → @Camera num → @Object3D num → list num.
Local Open Scope js_scope.

Definition starCount : nat := 2000.

(** One turn of the loop that fills [starPositions]. *)
Definition star (i : nat) (st : list num * Random num) : list num * Random num :=
  let '(starPositions, rng) := st in
  let '(u, rng) := Math_random rng in
  let r := lit 4000 0 * u in
  let '(u, rng) := Math_random rng in
  let theta := Math_acos (lit 2 0 * u - lit 1 0) in
  let '(u, rng) := Math_random rng in
  let phi := u * lit 2 0 * Math_PI in
  let starPositions :=
    <[(i * 3)%nat := Math_fround (r * Math_sin theta * Math_cos phi)]> starPositions in
  let starPositions :=
    <[(i * 3 + 1)%nat := Math_fround (r * Math_sin theta * Math_sin phi)]> starPositions in
  let starPositions :=
    <[(i * 3 + 2)%nat := Math_fround (r * Math_cos theta)]> starPositions in
  (starPositions, rng).

(** [new Float32Array(starCount * 3)], then the loop over
    [i = 0 .. starCount - 1]. *)
Definition starfield (count : nat) (rng : Random num) : list num * Random num :=
  foldl (λ st i, star i st) (replicate (count * 3) (lit 0 0), rng) (seq 0 count).

(** An entry of [planetsData]. *)
Record PlanetData := mkPlanetData {
  data_name : string;
  data_orbitalRadius : num;
  data_size : num;
  data_speed : num;
  data_color : Z;
  data_content : string
}.

Definition planetsData : list PlanetData := [
  mkPlanetData "Earth" (lit 150 0) (lit 15 0) (lit 1 2) 0x4cafef
    "This could be your ABOUT section. Tell visitors who you are or describe your craft here.";
  mkPlanetData "Mars" (lit 220 0) (lit 12 0) (lit 8 3) 0xeb5b35
    "Share some of your stories here. Perhaps tales of your adventures or short stories you’ve written.";
  mkPlanetData "Venus" (lit 270 0) (lit 10 0) (lit 6 3) 0xf4b400
    "Display your poems or creative writing pieces on this planet.";
  mkPlanetData "Jupiter" (lit 330 0) (lit 25 0) (lit 4 3) 0xd59f54
    "Use this space for a portfolio of photographs or graphic design works. You can embed images in the panel.";
  mkPlanetData "Saturn" (lit 400 0) (lit 20 0) (lit 3 3) 0x98d263
    "A miscellaneous section—perhaps news, blog posts or anything else you want to share."
].

(** The body of [planetsData.forEach]: the scene's children, the
    [planets] array, the store and the random numbers, before and after
    one entry. *)
Definition add_planet (st : list nat * list nat * Store num * Random num)
    (data : PlanetData) : list nat * list nat * Store num * Random num :=
  let '(scene, planets, sto, rng) := st in
  let geometry := SphereGeometry (data_size data) 32 32 in
  let material := MeshStandardMaterial (data_color data) in
  let '(u, rng) := Math_random rng in
  let planetMesh :=
    set_userData
      (Some (mkUserData (data_name data) (data_content data)
               (data_orbitalRadius data) (data_speed data)
               (u * Math_PI * lit 2 0)))
      (new_object (Mesh geometry material)) in
  let '(a, sto) := scene_add planetMesh sto in
  let scene := scene ++ [a] in
  let planets := planets ++ [a] in
  let ringGeo :=
    RingGeometry (data_orbitalRadius data - lit 2 1)
                 (data_orbitalRadius data + lit 2 1) 64 in
  let ringMat := MeshBasicMaterial 0x444444 true true (lit 4 1) in
  let ring := new_object (Mesh ringGeo ringMat) in
  let ring :=
    set_rotation (mkVector3 (Math_PI / lit 2 0) (v_y (rotation ring))
                            (v_z (rotation ring))) ring in
  let '(a, sto) := scene_add ring sto in
  (scene ++ [a], planets, sto, rng).

Definition minZoom : num := lit 300 0.
Definition maxZoom : num := lit 1500 0.

(** What the browser tells a click listener: the pointer, and the box
    [getBoundingClientRect] reports for the canvas at that time. *)
Record ClickData := mkClickData {
  clientX : num;
  clientY : num;
  rect_left : num;
  rect_top : num;
  rect_width : num;
  rect_height : num
}.

(** [onCanvasClick] of activation [e]. Assigning to a property of [null]
    throws: the listener stops there. *)
Definition onCanvasClick (e : nat) (event : ClickData) (w : World num) : World num :=
  match solar w !! e with
  | None => w
  | Some v =>
      let mouse :=
        mkVector2
          ((clientX event - rect_left event) / rect_width event * lit 2 0 - lit 1 0)
          (- ((clientY event - rect_top event) / rect_height event) * lit 2 0 + lit 1 0) in
      let w :=
        update_solar e
          (λ v, Solar.set_raycaster (Some (mouse, Solar.camera v))
                  (Solar.set_mouse mouse v)) w in
      let intersects :=
        intersectObjects raycast mouse (Solar.camera v) (objects (store w)) (Solar.planets v) in
      match intersects with
      | [] => w
      | hit :: _ =>
          let selected := objects (store w) !! object hit ≫= userData in
          match Solar.titleEl v with
          | None => w
          | Some titleEl =>
              let w :=
                update_element titleEl
                  (set_textContent (from_option name "" selected)) w in
              match Solar.contentEl v with
              | None => w
              | Some contentEl =>
                  let w :=
                    update_element contentEl
                      (set_textContent (from_option content "" selected)) w in
                  match Solar.infoPanel v with
                  | None => w
                  | Some infoPanel =>
                      let w :=
                        update_element infoPanel
                          (λ el, set_classList (classList_remove "hidden" (classList el)) el) w in
                      update_element infoPanel
                        (λ el, set_classList (classList_add "show" (classList el)) el) w
                  end
              end
          end
      end
  end.

(** The listener of the close button. *)
Definition closeClick (e : nat) (w : World num) : World num :=
  match solar w !! e with
  | None => w
  | Some v =>
      match Solar.infoPanel v with
      | None => w
      | Some infoPanel =>
          let w :=
            update_element infoPanel
              (λ el, set_classList (classList_remove "show" (classList el)) el) w in
          setTimeout (Solar_hidePanel e) (lit 500 0) w
      end
  end.

(** The callback of that timeout. *)
Definition hidePanel (e : nat) (w : World num) : World num :=
  match solar w !! e with
  | None => w
  | Some v =>
      match Solar.infoPanel v with
      | None => w
      | Some infoPanel =>
          update_element infoPanel
            (λ el, set_classList (classList_add "hidden" (classList el)) el) w
      end
  end.

(** The two statements of [onWheel], on the camera. *)
Definition zoom (deltaY : num) (c : Camera) : Camera :=
  let p := cam_position c in
  let c := set_cam_position (mkVector3 (v_x p) (v_y p) (v_z p + deltaY * lit 5 1)) c in
  let p := cam_position c in
  set_cam_position
    (mkVector3 (v_x p) (v_y p) (Math_max minZoom (Math_min maxZoom (v_z p)))) c.

Definition onWheel (e : nat) (deltaY : num) (w : World num) : World num :=
  update_solar e (λ v, Solar.set_camera (zoom deltaY (Solar.camera v)) v) w.

Definition onResize (e : nat) (w : World num) : World num :=
  update_solar e
    (λ v,
       let camera := set_aspect (innerWidth w / innerHeight w) (Solar.camera v) in
       Solar.set_renderer (setSize (innerWidth w) (innerHeight w) (Solar.renderer v))
         (Solar.set_camera camera v)) w.

Definition onMouseMove (e : nat) (clientX clientY : num) (w : World num) : World num :=
  update_solar e
    (Solar.set_mouseXY (clientX / innerWidth w - lit 5 1)
                       (clientY / innerHeight w - lit 5 1)) w.

(** The body of [planets.forEach] in [animate]. *)
Definition orbit (planet : Object3D) : Object3D :=
  match userData planet with
  | None => planet
  | Some u =>
      let u := set_angle (angle u + speed u) u in
      let planet := set_userData (Some u) planet in
      let a := angle u in
      let r := orbitalRadius u in
      let planet :=
        set_position (mkVector3 (Math_cos a * r) (lit 0 0) (Math_sin a * r)) planet in
      let rot := rotation planet in
      set_rotation (mkVector3 (v_x rot) (v_y rot + lit 1 2) (v_z rot)) planet
  end.

(** The camera statements of [animate]. *)
Definition parallax (mouseX mouseY : num) (c : Camera) : Camera :=
  let p := cam_position c in
  let c :=
    set_cam_position
      (mkVector3 (v_x p + (mouseX * lit 200 0 - v_x p) * lit 2 2) (v_y p) (v_z p)) c in
  let p := cam_position c in
  let c :=
    set_cam_position
      (mkVector3 (v_x p) (v_y p + (- mouseY * lit 100 0 - v_y p) * lit 2 2) (v_z p)) c in
  lookAt (mkVector3 (lit 0 0) (lit 0 0) (lit 0 0)) c.

Definition animate (e : nat) (w : World num) : World num :=
  let w := requestAnimationFrame (Solar_animate e) w in
  match solar w !! e with
  | None => w
  | Some v =>
      let w :=
        update_store
          (λ sto, foldl (λ sto planet, update_object planet orbit sto) sto (Solar.planets v))
          w in
      update_solar e
        (λ v,
           Solar.set_renderer (render (Solar.renderer v))
             (Solar.set_camera
                (parallax (Solar.mouseX v) (Solar.mouseY v) (Solar.camera v)) v)) w
  end.

(** [new THREE.WebGLRenderer({ canvas, antialias: true })]: pixel ratio 1
    and the default size of a canvas, until [setPixelRatio] and [setSize]. *)
Definition new_renderer (canvas : option string) : @WebGLRenderer num :=
  mkRenderer canvas (lit 1 0) (lit 300 0) (lit 150 0) 0.

Definition setPixelRatio (p : num) (r : @WebGLRenderer num) : WebGLRenderer :=
  mkRenderer (domElement r) p (width r) (height r) (rendered r).

(** The part of [initSolarSystem] that fills the scene: the two lights,
    the star field, the sun, then a mesh and a ring per entry of
    [planetsData]. It returns [scene.children] and the [planets] array. *)
Definition build_scene (sto : Store num) (rng : Random num)
    : list nat * list nat * Store num * Random num :=
  let scene : list nat := [] in
  let '(ambient, sto) := scene_add (new_object (AmbientLight 0x555555)) sto in
  let scene := scene ++ [ambient] in
  let pointLight := new_object (PointLight 0xffffff (lit 2 0) (lit 0 0)) in
  let pointLight :=
    set_position (mkVector3 (lit 0 0) (lit 0 0) (lit 0 0)) pointLight in
  let '(pointLight, sto) := scene_add pointLight sto in
  let scene := scene ++ [pointLight] in
  let '(starPositions, rng) := starfield starCount rng in
  let starGeometry := BufferGeometry starPositions 3 in
  let starMaterial := PointsMaterial 0xffffff (lit 15 1) true in
  let '(starField, sto) :=
    scene_add (new_object (Points starGeometry starMaterial)) sto in
  let scene := scene ++ [starField] in
  let sunGeometry := SphereGeometry (lit 40 0) 32 32 in
  let sunMaterial := MeshBasicMaterial 0xffaa00 false false (lit 1 0) in
  let '(sun, sto) := scene_add (new_object (Mesh sunGeometry sunMaterial)) sto in
  let scene := scene ++ [sun] in
  foldl add_planet (scene, [], sto, rng) planetsData.

(** [window.initSolarSystem]. The closure is numbered and stored when its
    first listener is registered; [mouseX] and [mouseY], declared further
    down, are 0 from then on (nothing reads them before). Calling
    [addEventListener] on the [null] of a missing close button throws. *)
Definition initSolarSystem (w : World num) : Completion * World num :=
  match document w !! "solar-scene" with
  | None => (Normal, w)
  | Some canvas =>
      if truthy (dataset canvas !! "initialised") then (Normal, w)
      else
        let w :=
          update_element "solar-scene"
            (λ el, set_dataset (<["initialised" := "true"]> (dataset el)) el) w in
        let infoPanel := getElementById "info-panel" w in
        let closeBtn := getElementById "close-info" w in
        let titleEl := getElementById "planet-title" w in
        let contentEl := getElementById "planet-content" w in
        let renderer := new_renderer (Some "solar-scene") in
        let renderer := setPixelRatio (devicePixelRatio w) renderer in
        let renderer := setSize (innerWidth w) (innerHeight w) renderer in
        let camera :=
          new_camera (lit 60 0) (innerWidth w / innerHeight w) (lit 1 0) (lit 10000 0) in
        let camera :=
          set_cam_position (mkVector3 (lit 0 0) (lit 200 0) (lit 800 0)) camera in
        let camera := lookAt (mkVector3 (lit 0 0) (lit 0 0) (lit 0 0)) camera in
        let '(scene, planets, sto, rng) := build_scene (store w) (random w) in
        let w := set_random rng (set_store sto w) in
        let mouse := mkVector2 (lit 0 0) (lit 0 0) in
        let e := length (solar w) in
        let w :=
          set_solar
            (solar w ++
             [Solar.mkEnv "solar-scene" infoPanel closeBtn titleEl contentEl renderer
                camera scene planets None mouse (lit 0 0) (lit 0 0)]) w in
        let w := element_addEventListener "solar-scene" "click" (Solar_onCanvasClick e) w in
        match closeBtn with
        | None => (Throw "TypeError", w)
        | Some closeBtn =>
            let w := element_addEventListener closeBtn "click" (Solar_closeClick e) w in
            let w := window_addEventListener "wheel" (Solar_onWheel e) w in
            let w := window_addEventListener "resize" (Solar_onResize e) w in
            let w := window_addEventListener "mousemove" (Solar_onMouseMove e) w in
            (Normal, animate e w)
        end
  end.

End Script.
End PlanetScript.

(** ** script.js *)

Module Script.
Section Script.
Context {num : Type} `{!JSNumber num}.
Local Open Scope js_scope.

Definition starCount : nat := 3000.

(** One turn of the loop that fills [starPositions]. *)
Definition star (i : nat) (st : list num * Random num) : list num * Random num :=
  let '(starPositions, rng) := st in
  let '(u, rng) := Math_random rng in
  let r := lit 2000 0 * u in
  let '(u, rng) := Math_random rng in
  let phi := u * lit 2 0 * Math_PI in
  let '(u, rng) := Math_random rng in
  let costheta := u * lit 2 0 - lit 1 0 in
  let theta := Math_acos costheta in
  let x := r * Math_sin theta * Math_cos phi in
  let y := r * Math_sin theta * Math_sin phi in
  let z := r * Math_cos theta in
  let starPositions := <[(i * 3)%nat := Math_fround x]> starPositions in
  let starPositions := <[(i * 3 + 1)%nat := Math_fround y]> starPositions in
  let starPositions := <[(i * 3 + 2)%nat := Math_fround z]> starPositions in
  (starPositions, rng).

(** [new Float32Array(starCount * 3)], then the loop over
    [i = 0 .. starCount - 1]. *)
Definition starfield (count : nat) (rng : Random num) : list num * Random num :=
  foldl (λ st i, star i st) (replicate (count * 3) (lit 0 0), rng) (seq 0 count).

Definition minZoom : num := lit 500 0.
Definition maxZoom : num := lit 2000 0.

Definition onMouseMove (clientX clientY : num) (w : World num) : World num :=
  update_landing
    (Landing.set_mouse (clientX / innerWidth w - lit 5 1)
                       (clientY / innerHeight w - lit 5 1)) w.

(** The two statements of [onWheel], on the camera. *)
Definition zoom (deltaY : num) (c : Camera) : Camera :=
  let p := cam_position c in
  let c := set_cam_position (mkVector3 (v_x p) (v_y p) (v_z p + deltaY * lit 5 1)) c in
  let p := cam_position c in
  set_cam_position
    (mkVector3 (v_x p) (v_y p) (Math_max minZoom (Math_min maxZoom (v_z p)))) c.

Definition onWheel (deltaY : num) (w : World num) : World num :=
  update_landing (λ v, Landing.set_camera (zoom deltaY (Landing.camera v)) v) w.

Definition onResize (w : World num) : World num :=
  update_landing
    (λ v,
       let camera := set_aspect (innerWidth w / innerHeight w) (Landing.camera v) in
       Landing.set_renderer (setSize (innerWidth w) (innerHeight w) (Landing.renderer v))
         (Landing.set_camera camera v)) w.

(** The rotation statements of [animate], on the star field. *)
Definition spin (stars : Object3D) : Object3D :=
  let rot := rotation stars in
  let stars := set_rotation (mkVector3 (v_x rot) (v_y rot + lit 5 4) (v_z rot)) stars in
  let rot := rotation stars in
  set_rotation (mkVector3 (v_x rot + lit 2 4) (v_y rot) (v_z rot)) stars.

(** The target and camera statements of [animate], on the closure. *)
Definition parallax (v : Landing.Env num) : Landing.Env num :=
  let v := Landing.set_target (Landing.mouseX v * lit 50 0) (Landing.mouseY v * lit 50 0) v in
  let c := Landing.camera v in
  let p := cam_position c in
  let c :=
    set_cam_position
      (mkVector3 (v_x p + (Landing.targetX v - v_x p) * lit 5 2) (v_y p) (v_z p)) c in
  let p := cam_position c in
  let c :=
    set_cam_position
      (mkVector3 (v_x p) (v_y p + (- Landing.targetY v - v_y p) * lit 5 2) (v_z p)) c in
  (* scene.position is the origin *)
  let c := lookAt origin c in
  Landing.set_renderer (render (Landing.renderer v)) (Landing.set_camera c v).

Definition animate (w : World num) : World num :=
  let w := requestAnimationFrame Landing_animate w in
  match landing w with
  | None => w
  | Some v =>
      let w := update_store (update_object (Landing.stars v) spin) w in
      update_landing parallax w
  end.

(** The listener of the start icon. *)
Definition iconClick (w : World num) : World num :=
  let w := window_removeEventListener "mousemove" Landing_onMouseMove w in
  let w := window_removeEventListener "wheel" Landing_onWheel w in
  let w :=
    gsap_to (mkTween "#icon-container" (lit 1 0) (Some (lit 5 1)) (lit 0 0) None) w in
  gsap_to (mkTween "#intro-overlay" (lit 1 0) None (lit 0 0) (Some Landing_onComplete)) w.

(** The [onComplete] of the overlay's tween. *)
Definition onComplete (w : World num) : Completion * World num :=
  match getElementById "solar-container" w with
  | None => (Throw "TypeError", w)
  | Some solarContainer =>
      let w :=
        update_element solarContainer
          (λ el, set_classList (classList_remove "hidden" (classList el)) el) w in
      if has_initSolarSystem w then PlanetScript.initSolarSystem w
      else (Normal, w)
  end.

(** The DOMContentLoaded listener: the browser calls it once. Calling
    [addEventListener] on the [null] of a missing icon container throws,
    after everything else is in place. *)
Definition onDOMContentLoaded (w : World num) : Completion * World num :=
  let canvas := getElementById "universe" w in
  let iconContainer := getElementById "icon-container" w in
  let introOverlay := getElementById "intro-overlay" w in
  let renderer := PlanetScript.new_renderer canvas in
  let renderer := PlanetScript.setPixelRatio (devicePixelRatio w) renderer in
  let renderer := setSize (innerWidth w) (innerHeight w) renderer in
  let camera :=
    new_camera (lit 75 0) (innerWidth w / innerHeight w) (lit 1 0) (lit 5000 0) in
  let p := cam_position camera in
  let camera := set_cam_position (mkVector3 (v_x p) (v_y p) (lit 1000 0)) camera in
  let '(starPositions, rng) := starfield starCount (random w) in
  let starGeometry := BufferGeometry starPositions 3 in
  let starMaterial := PointsMaterial 0xffffff (lit 2 0) true in
  let '(stars, sto) :=
    scene_add (new_object (Points starGeometry starMaterial)) (store w) in
  let w := set_random rng (set_store sto w) in
  let w :=
    set_landing
      (Some (Landing.mkEnv canvas iconContainer introOverlay renderer camera [stars]
               stars (lit 0 0) (lit 0 0) (lit 0 0) (lit 0 0))) w in
  let w := window_addEventListener "mousemove" Landing_onMouseMove w in
  let w := window_addEventListener "wheel" Landing_onWheel w in
  let w := window_addEventListener "resize" Landing_onResize w in
  let w := animate w in
  match iconContainer with
  | None => (Throw "TypeError", w)
  | Some iconContainer =>
      (Normal, element_addEventListener iconContainer "click" Landing_iconClick w)
  end.

End Script.
End Script.

(** ** The event loop *)

Module Page.
Section Loop.
Context {num : Type} `{!JSNumber num}.
Variable raycast : @Vector2 num → @Camera num → @Object3D num → list num.

(** What the browser does to the page after it has loaded. A click is
    delivered to the element whose listeners it reaches; a resize comes
    with the new size of the window. *)
Inductive Event :=
| MouseMove (clientX clientY : num)
| Wheel (deltaY : num)
| Resize (innerWidth innerHeight : num)
| Click (target : string) (event : @PlanetScript.ClickData num)
| AnimationFrame
| TimeoutFires (i : nat)
| TweenCompletes (i : nat).

(** A listener called with an event. Each closure is only ever
    registered for its own type of event. *)
Definition call (f : Listener) (ev : Event) (w : World num) : World num :=
  match f, ev with
  | Landing_onMouseMove, MouseMove x y => Script.onMouseMove x y w
  | Landing_onWheel, Wheel deltaY => Script.onWheel deltaY w
  | Landing_onResize, Resize _ _ => Script.onResize w
  | Landing_iconClick, Click _ _ => Script.iconClick w
  | Solar_onCanvasClick e, Click _ event => PlanetScript.onCanvasClick raycast e event w
  | Solar_closeClick e, Click _ _ => PlanetScript.closeClick e w
  | Solar_onWheel e, Wheel deltaY => PlanetScript.onWheel e deltaY w
  | Solar_onResize e, Resize _ _ => PlanetScript.onResize e w
  | Solar_onMouseMove e, MouseMove x y => PlanetScript.onMouseMove e x y w
  | _, _ => w
  end.

Definition run_callback (f : Callback) (w : World num) : World num :=
  match f with
  | Landing_animate => Script.animate w
  | Landing_onComplete => (Script.onComplete w).2
  | Solar_animate e => PlanetScript.animate e w
  | Solar_hidePanel e => PlanetScript.hidePanel e w
  end.

(** The listeners found at the start of the dispatch are called in the
    order of their registration. *)
Definition dispatch (fs : list Listener) (ev : Event) (w : World num) : World num :=
  foldl (λ w f, call f ev w) w fs.

Definition step (ev : Event) (w : World num) : World num :=
  match ev with
  | MouseMove _ _ => dispatch (listenersOf "mousemove" (window_listeners w)) ev w
  | Wheel _ => dispatch (listenersOf "wheel" (window_listeners w)) ev w
  | Resize width height =>
      let w := set_inner width height w in
      dispatch (listenersOf "resize" (window_listeners w)) ev w
  | Click target _ =>
      match document w !! target with
      | Some el => dispatch (listenersOf "click" (listeners el)) ev w
      | None => w
      end
  | AnimationFrame =>
      foldl (λ w f, run_callback f w) (set_frame_requests [] w) (frame_requests w)
  | TimeoutFires i =>
      match timeouts w !! i with
      | Some (_, f) => run_callback f (set_timeouts (delete i (timeouts w)) w)
      | None => w
      end
  | TweenCompletes i =>
      match tweens w !! i with
      | Some t =>
          let w := set_tweens (delete i (tweens w)) w in
          match tw_onComplete t with
          | Some f => run_callback f w
          | None => w
          end
      | None => w
      end
  end.

Definition run (evs : list Event) (w : World num) : World num :=
  foldl (λ w ev, step ev w) w evs.

(** The page before its scripts run: the elements of the markup, with no
    listener yet, and nothing created. *)
Definition page (markup : gmap string Element) (width height ratio : num)
    (planetScript : bool) (random : nat → num) : World num :=
  mkWorld (set_listeners [] <$> markup) [] width height ratio planetScript
          (mkRandom random 0) (mkStore ∅ 0) None [] [] [] [].

(** The page once DOMContentLoaded was handled. *)
Definition loaded (markup : gmap string Element) (width height ratio : num)
    (planetScript : bool) (random : nat → num) : World num :=
  (Script.onDOMContentLoaded (page markup width height ratio planetScript random)).2.

(** The worlds the page can be in when the browser delivers events that
    are [allowed] only. *)
Inductive reachable_by (allowed : Event → Prop) : World num → Prop :=
| reachable_loaded markup width height ratio planetScript random :
    reachable_by allowed (loaded markup width height ratio planetScript random)
| reachable_step ev w :
    allowed ev → reachable_by allowed w → reachable_by allowed (step ev w).

(** The worlds the page can be in. *)
Definition reachable : World num → Prop := reachable_by (λ _, True).

End Loop.
End Page.

(** * Properties *)

(** Projections of a world through the setters. *)
Ltac wsimpl :=
  cbn [fst snd
       document window_listeners innerWidth innerHeight devicePixelRatio
       has_initSolarSystem random store landing solar frame_requests
       timeouts tweens
       set_document set_window_listeners set_inner set_random set_store
       set_landing set_solar set_frame_requests set_timeouts set_tweens
       update_element window_addEventListener window_removeEventListener
       element_addEventListener requestAnimationFrame setTimeout gsap_to
       update_store update_solar update_landing] in *.

(** ** What the frame callback of planetScript.js touches *)

Section AnimateFrame.
Context {num : Type} `{!JSNumber num}.
Implicit Types w : World num.

Lemma animate_document e w :
  document (PlanetScript.animate e w) = document w.
Proof. unfold PlanetScript.animate. wsimpl. by destruct (solar w !! e). Qed.

Lemma animate_window_listeners e w :
  window_listeners (PlanetScript.animate e w) = window_listeners w.
Proof. unfold PlanetScript.animate. wsimpl. by destruct (solar w !! e). Qed.

Lemma animate_frame_requests e w :
  frame_requests (PlanetScript.animate e w) = frame_requests w ++ [Solar_animate e].
Proof. unfold PlanetScript.animate. wsimpl. by destruct (solar w !! e). Qed.

Lemma animate_landing e w :
  landing (PlanetScript.animate e w) = landing w.
Proof. unfold PlanetScript.animate. wsimpl. by destruct (solar w !! e). Qed.

End AnimateFrame.

(** ** Activation *)

Section Activation.
Context {num : Type} `{!JSNumber num}.
Implicit Types w : World num.

Lemma getElementById_Some id w x :
  getElementById id w = Some x → x = id ∧ is_Some (document w !! id).
Proof.
  unfold getElementById. destruct (document w !! id) as [el|]; [|done].
  intros [= <-]. eauto.
Qed.

(** Once the guard is passed the canvas carries the flag, whichever way
    the call ends. *)
Lemma initSolarSystem_sets_flag w c :
  document w !! "solar-scene" = Some c →
  ∃ c', document (PlanetScript.initSolarSystem w).2 !! "solar-scene" = Some c'
        ∧ truthy (dataset c' !! "initialised") = true.
Proof.
  intros Hc. unfold PlanetScript.initSolarSystem. rewrite Hc.
  destruct (truthy (dataset c !! "initialised")) eqn:Hflag.
  { exists c. auto. }
  cbv zeta.
  destruct (PlanetScript.build_scene _ _) as [[[scene planets] sto] rng'].
  set (flagged := λ el : Element, set_dataset (<["initialised":="true"]> (dataset el)) el).
  assert (Hdoc : ∀ d : gmap string Element, d !! "solar-scene" = Some c →
     ∀ l, alter (λ el, set_listeners l el) "solar-scene" (alter flagged "solar-scene" d)
          !! "solar-scene" = Some (set_listeners l (flagged c))).
  { intros d Hd l. rewrite !lookup_alter_eq, Hd. reflexivity. }
  destruct (getElementById "close-info" _) as [closeBtn|] eqn:Hclose.
  - exists (set_listeners (addListener "click"
              (Solar_onCanvasClick (length (solar w))) (listeners (flagged c))) (flagged c)).
    split; [|unfold flagged; cbn; rewrite lookup_insert_eq; reflexivity].
    apply getElementById_Some in Hclose as [-> _].
    wsimpl. rewrite animate_document. wsimpl.
    rewrite lookup_alter_ne by done.
    rewrite !lookup_alter_eq, Hc. reflexivity.
  - exists (set_listeners (addListener "click"
              (Solar_onCanvasClick (length (solar w))) (listeners (flagged c))) (flagged c)).
    split; [|unfold flagged; cbn; rewrite lookup_insert_eq; reflexivity].
    wsimpl. rewrite !lookup_alter_eq, Hc. reflexivity.
Qed.

(** The first disjunct of the guard. *)
Lemma initSolarSystem_null_canvas w :
  document w !! "solar-scene" = None →
  PlanetScript.initSolarSystem w = (Normal, w).
Proof.
  intros Hnone. unfold PlanetScript.initSolarSystem. rewrite Hnone. reflexivity.
Qed.

(** C8. When the page has no element with id solar-scene, the activation
    entry point returns normally, not by a throw, and leaves the whole
    world as it was: no object is created, no closure, no listener is
    registered on the window or on an element, no frame is requested. *)
Theorem initSolarSystem_without_canvas w :
  document w !! "solar-scene" = None →
  (PlanetScript.initSolarSystem w).1 = Normal
  ∧ (PlanetScript.initSolarSystem w).2 = w
  ∧ store (PlanetScript.initSolarSystem w).2 = store w
  ∧ solar (PlanetScript.initSolarSystem w).2 = solar w
  ∧ window_listeners (PlanetScript.initSolarSystem w).2 = window_listeners w
  ∧ document (PlanetScript.initSolarSystem w).2 = document w
  ∧ frame_requests (PlanetScript.initSolarSystem w).2 = frame_requests w.
Proof.
  intros Hnone. rewrite (initSolarSystem_null_canvas w Hnone). cbn [fst snd].
  repeat split; reflexivity.
Qed.

(** On a canvas that carries the flag the call is a no-op. *)
Lemma initSolarSystem_flagged w c :
  document w !! "solar-scene" = Some c →
  truthy (dataset c !! "initialised") = true →
  PlanetScript.initSolarSystem w = (Normal, w).
Proof.
  intros Hc Hflag. unfold PlanetScript.initSolarSystem. rewrite Hc, Hflag. reflexivity.
Qed.

(** C2. After one call of the activation entry point, however it ended,
    every further call returns normally and changes nothing: the world
    after [S n] calls (entities, listeners, closures, frame requests,
    everything) is the world after one. *)
Theorem initSolarSystem_idempotent w (n : nat) :
  let activate := λ w, (PlanetScript.initSolarSystem w).2 in
  PlanetScript.initSolarSystem (activate w) = (Normal, activate w)
  ∧ Nat.iter (S n) activate w = activate w.
Proof.
  intros activate.
  assert (Hagain : PlanetScript.initSolarSystem (activate w) = (Normal, activate w)).
  { subst activate. cbv beta.
    destruct (document w !! "solar-scene") as [c|] eqn:Hc.
    - destruct (initSolarSystem_sets_flag w c Hc) as (c' & Hc' & Hflag).
      by apply initSolarSystem_flagged with c'.
    - rewrite (initSolarSystem_null_canvas w Hc). cbn [snd].
      by apply initSolarSystem_null_canvas. }
  split; [exact Hagain|].
  induction n as [|n IH]; [reflexivity|].
  change (Nat.iter (S (S n)) activate w) with (activate (Nat.iter (S n) activate w)).
  rewrite IH. unfold activate at 1. by rewrite Hagain.
Qed.

End Activation.

(** A page without the canvas of the solar system. *)
Definition page_without_canvas : World R :=
  @Page.page R
    (list_to_map [("universe", mkElement ∅ [] "" []);
                  ("icon-container", mkElement ∅ [] "" [])])
    1920%R 1080%R 1%R true (λ _, 0%R).

Lemma initSolarSystem_without_canvas_witness :
  (@PlanetScript.initSolarSystem R Ideal page_without_canvas).1 = Normal
  ∧ (@PlanetScript.initSolarSystem R Ideal page_without_canvas).2 = page_without_canvas.
Proof.
  destruct (@initSolarSystem_without_canvas R Ideal page_without_canvas) as (H1 & H2 & _);
    [reflexivity | exact (conj H1 H2)].
Defined.

(** ** Induction over the event loop *)

Section StepInduction.
Context {num : Type} `{!JSNumber num}.
Variable raycast : @Vector2 num → @Camera num → @Object3D num → list num.
Implicit Types w : World num.

Lemma foldl_preserves {A} (P : World num → Prop) (f : World num → A → World num) l :
  (∀ x w, P w → P (f w x)) → ∀ w, P w → P (foldl f w l).
Proof.
  intros Hf. induction l as [|x l IH]; intros w Hw; [exact Hw|].
  cbn [foldl]. apply IH, Hf, Hw.
Qed.

(** A property of the world that survives every listener and every
    callback, and the bookkeeping of the loop itself, survives a step. *)
Lemma step_preserves (P : World num → Prop) (allowed : Page.Event → Prop) :
  (∀ width height w, P w → P (set_inner width height w)) →
  (∀ w, P w → P (set_frame_requests [] w)) →
  (∀ t w, P w → P (set_timeouts t w)) →
  (∀ t w, P w → P (set_tweens t w)) →
  (∀ f ev w, allowed ev → P w → P (Page.call raycast f ev w)) →
  (∀ f w, P w → P (Page.run_callback f w)) →
  ∀ ev w, allowed ev → P w → P (Page.step raycast ev w).
Proof.
  intros Hinner Hframes Htimeouts Htweens Hcall Hcallback ev w Hev Hw.
  destruct ev as [x y|d|width height|target event| |i|i];
    cbn [Page.step]; unfold Page.dispatch; cbv zeta.
  - apply foldl_preserves; auto.
  - apply foldl_preserves; auto.
  - apply foldl_preserves; auto.
  - destruct (document w !! target); [|exact Hw]. apply foldl_preserves; auto.
  - apply foldl_preserves; auto.
  - destruct (timeouts w !! i) as [[delay f]|]; auto.
  - destruct (tweens w !! i) as [t|]; [|exact Hw].
    destruct (tw_onComplete t); auto.
Qed.

Lemma reachable_by_invariant (P : World num → Prop) (allowed : Page.Event → Prop) :
  (∀ markup width height ratio planetScript random,
     P (Page.loaded markup width height ratio planetScript random)) →
  (∀ ev w, allowed ev → P w → P (Page.step raycast ev w)) →
  ∀ w, Page.reachable_by raycast allowed w → P w.
Proof. intros Hload Hstep w Hw. induction Hw; auto. Qed.

Lemma reachable_by_run allowed evs w :
  Forall allowed evs →
  Page.reachable_by raycast allowed w →
  Page.reachable_by raycast allowed (Page.run raycast evs w).
Proof.
  intros Hevs. revert w. induction Hevs as [|ev evs Hev _ IH]; intros w Hw; [exact Hw|].
  apply IH. by constructor.
Qed.

End StepInduction.

(** ** The wheel *)

Section Wheel.
Context {num : Type} `{!JSNumber num}.
Variable raycast : @Vector2 num → @Camera num → @Object3D num → list num.
Implicit Types w : World num.
Local Open Scope js_scope.

(** A camera, a closure and a world with the zoom distance blanked. *)
Definition without_z (c : @Camera num) : Camera :=
  set_cam_position
    (mkVector3 (v_x (cam_position c)) (v_y (cam_position c)) (lit 0 0)) c.

Definition landing_without_zoom (v : Landing.Env num) : Landing.Env num :=
  Landing.set_camera (without_z (Landing.camera v)) v.

Definition solar_without_zoom (v : Solar.Env num) : Solar.Env num :=
  Solar.set_camera (without_z (Solar.camera v)) v.

Definition without_zoom (w : World num) : World num :=
  set_landing (landing_without_zoom <$> landing w)
    (set_solar (solar_without_zoom <$> solar w) w).

Lemma solar_zoom_without_z d c : without_z (PlanetScript.zoom d c) = without_z c.
Proof. reflexivity. Qed.

Lemma landing_zoom_without_z d c : without_z (Script.zoom d c) = without_z c.
Proof. reflexivity. Qed.

Lemma without_zoom_update_solar e f w :
  (∀ v, solar_without_zoom (f v) = solar_without_zoom v) →
  without_zoom (update_solar e f w) = without_zoom w.
Proof.
  intros Hf. unfold without_zoom, update_solar, set_landing, set_solar. wsimpl.
  f_equal. apply list_eq. intros i. rewrite !list_lookup_fmap.
  destruct (decide (e = i)) as [->|Hne].
  - rewrite list_lookup_alter_eq. destruct (solar w !! i); cbn; [|done]. by rewrite Hf.
  - by rewrite list_lookup_alter_ne.
Qed.

Lemma without_zoom_update_landing f w :
  (∀ v, landing_without_zoom (f v) = landing_without_zoom v) →
  without_zoom (update_landing f w) = without_zoom w.
Proof.
  intros Hf. unfold without_zoom, update_landing, set_landing, set_solar. wsimpl.
  f_equal. destruct (landing w); cbn; [|done]. by rewrite Hf.
Qed.

Lemma call_wheel_without_zoom f d w :
  without_zoom (Page.call raycast f (Page.Wheel d) w) = without_zoom w.
Proof.
  destruct f; cbn [Page.call]; try reflexivity.
  - apply without_zoom_update_landing. reflexivity.
  - apply without_zoom_update_solar. reflexivity.
Qed.

(** C9. A wheel event changes the zoom distance and nothing else: with the
    z coordinate of every camera blanked, the world after the event is
    the world before it. In particular the store (the scene's objects,
    every planet's angle and position), the document, the listeners, and
    in each closure the camera's x and y and the pointer scalars
    [mouseX], [mouseY], [targetX], [targetY] are what they were. *)
Theorem wheel_changes_only_zoom d w :
  let w' := Page.step raycast (Page.Wheel d) w in
  without_zoom w' = without_zoom w
  ∧ store w' = store w
  ∧ document w' = document w
  ∧ window_listeners w' = window_listeners w
  ∧ solar_without_zoom <$> solar w' = solar_without_zoom <$> solar w
  ∧ landing_without_zoom <$> landing w' = landing_without_zoom <$> landing w.
Proof.
  intros w'.
  assert (Heq : without_zoom w' = without_zoom w).
  { subst w'. cbn [Page.step]. unfold Page.dispatch.
    generalize (listenersOf "wheel" (window_listeners w)). intros fs.
    revert w. induction fs as [|f fs IH]; intros w; [reflexivity|].
    cbn [foldl]. rewrite IH. apply call_wheel_without_zoom. }
  split; [exact Heq|].
  pose proof (f_equal store Heq) as Hstore.
  pose proof (f_equal document Heq) as Hdoc.
  pose proof (f_equal window_listeners Heq) as Hwl.
  pose proof (f_equal solar Heq) as Hsolar.
  pose proof (f_equal landing Heq) as Hlanding.
  auto.
Qed.

End Wheel.

(** ** The shape of an activation *)

Section ActivationShape.
Context {num : Type} `{!JSNumber num}.
Implicit Types w : World num.
Local Open Scope js_scope.

(** The world once the flag is set. *)
Definition flagged (w : World num) : World num :=
  update_element "solar-scene"
    (λ el, set_dataset (<["initialised" := "true"]> (dataset el)) el) w.

(** The closure an activation creates, given the scene it built. *)
Definition new_env (w : World num) (scene planets : list nat) : Solar.Env num :=
  Solar.mkEnv "solar-scene"
    (getElementById "info-panel" (flagged w))
    (getElementById "close-info" (flagged w))
    (getElementById "planet-title" (flagged w))
    (getElementById "planet-content" (flagged w))
    (setSize (innerWidth w) (innerHeight w)
       (PlanetScript.setPixelRatio (devicePixelRatio w)
          (PlanetScript.new_renderer (Some "solar-scene"))))
    (lookAt (mkVector3 (lit 0 0) (lit 0 0) (lit 0 0))
       (set_cam_position (mkVector3 (lit 0 0) (lit 200 0) (lit 800 0))
          (new_camera (lit 60 0) (innerWidth w / innerHeight w) (lit 1 0) (lit 10000 0))))
    scene planets None (mkVector2 (lit 0 0) (lit 0 0)) (lit 0 0) (lit 0 0).

(** The world when the click listener of the canvas is in place. *)
Definition with_env (w : World num) (scene planets : list nat)
    (sto : Store num) (rng : Random num) : World num :=
  element_addEventListener "solar-scene" "click" (Solar_onCanvasClick (length (solar w)))
    (set_solar (solar w ++ [new_env w scene planets])
       (set_random rng (set_store sto (flagged w)))).

(** The world when the other listeners are in place. *)
Definition with_listeners (e : nat) (w : World num) : World num :=
  window_addEventListener "mousemove" (Solar_onMouseMove e)
    (window_addEventListener "resize" (Solar_onResize e)
       (window_addEventListener "wheel" (Solar_onWheel e)
          (element_addEventListener "close-info" "click" (Solar_closeClick e) w))).

Inductive activation (w : World num) : Completion * World num → Prop :=
| activation_guard :
    (document w !! "solar-scene" = None
     ∨ ∃ c, document w !! "solar-scene" = Some c
            ∧ truthy (dataset c !! "initialised") = true) →
    activation w (Normal, w)
| activation_throw c scene planets sto rng :
    document w !! "solar-scene" = Some c →
    truthy (dataset c !! "initialised") = false →
    PlanetScript.build_scene (store w) (random w) = (scene, planets, sto, rng) →
    document w !! "close-info" = None →
    activation w (Throw "TypeError", with_env w scene planets sto rng)
| activation_normal c scene planets sto rng :
    document w !! "solar-scene" = Some c →
    truthy (dataset c !! "initialised") = false →
    PlanetScript.build_scene (store w) (random w) = (scene, planets, sto, rng) →
    is_Some (document w !! "close-info") →
    activation w
      (Normal,
       PlanetScript.animate (length (solar w))
         (with_listeners (length (solar w)) (with_env w scene planets sto rng))).

Lemma getElementById_flagged id w :
  getElementById id (flagged w) = getElementById id w.
Proof.
  unfold getElementById, flagged. wsimpl.
  destruct (decide ("solar-scene" = id)) as [<-|Hne].
  - rewrite lookup_alter_eq. by destruct (document w !! "solar-scene").
  - by rewrite lookup_alter_ne.
Qed.

Lemma initSolarSystem_activation w :
  activation w (PlanetScript.initSolarSystem w).
Proof.
  unfold PlanetScript.initSolarSystem.
  destruct (document w !! "solar-scene") as [c|] eqn:Hc; [|constructor; auto].
  destruct (truthy (dataset c !! "initialised")) eqn:Hflag; [constructor; eauto|].
  cbv zeta. fold (flagged w).
  destruct (PlanetScript.build_scene (store (flagged w)) (random (flagged w)))
    as [[[scene planets] sto] rng] eqn:Hbuild.
  destruct (getElementById "close-info" (flagged w)) as [closeBtn|] eqn:Hclose.
  - pose proof Hclose as Hclose'. apply getElementById_Some in Hclose' as [-> _].
    rewrite <- Hclose at 1.
    rewrite getElementById_flagged in Hclose.
    apply getElementById_Some in Hclose as [_ Hclose].
    exact (activation_normal w c scene planets sto rng Hc Hflag Hbuild Hclose).
  - rewrite <- Hclose at 1. rewrite getElementById_flagged in Hclose.
    assert (Hnone : document w !! "close-info" = None).
    { unfold getElementById in Hclose. by destruct (document w !! "close-info"). }
    exact (activation_throw w c scene planets sto rng Hc Hflag Hbuild Hnone).
Qed.

(** The closure the DOMContentLoaded listener creates. *)
Definition landing_env (w : World num) : Landing.Env num :=
  Landing.mkEnv
    (getElementById "universe" w)
    (getElementById "icon-container" w)
    (getElementById "intro-overlay" w)
    (setSize (innerWidth w) (innerHeight w)
       (PlanetScript.setPixelRatio (devicePixelRatio w)
          (PlanetScript.new_renderer (getElementById "universe" w))))
    (set_cam_position (mkVector3 (lit 0 0) (lit 0 0) (lit 1000 0))
       (new_camera (lit 75 0) (innerWidth w / innerHeight w) (lit 1 0) (lit 5000 0)))
    [next_object (store w)] (next_object (store w))
    (lit 0 0) (lit 0 0) (lit 0 0) (lit 0 0).

(** The world when the star field and the closure exist and the window
    listeners are in place. *)
Definition with_landing (w : World num) (starPositions : list num)
    (rng : Random num) : World num :=
  window_addEventListener "resize" Landing_onResize
    (window_addEventListener "wheel" Landing_onWheel
       (window_addEventListener "mousemove" Landing_onMouseMove
          (set_landing (Some (landing_env w))
             (set_random rng
                (set_store
                   (scene_add
                      (new_object
                         (Points (BufferGeometry starPositions 3)
                            (PointsMaterial 0xffffff (lit 2 0) true)))
                      (store w)).2 w))))).

Inductive booted (w : World num) : Completion * World num → Prop :=
| booted_throw sp rng :
    Script.starfield Script.starCount (random w) = (sp, rng) →
    document w !! "icon-container" = None →
    booted w (Throw "TypeError", Script.animate (with_landing w sp rng))
| booted_normal sp rng :
    Script.starfield Script.starCount (random w) = (sp, rng) →
    is_Some (document w !! "icon-container") →
    booted w
      (Normal,
       element_addEventListener "icon-container" "click" Landing_iconClick
         (Script.animate (with_landing w sp rng))).

Lemma onDOMContentLoaded_booted w : booted w (Script.onDOMContentLoaded w).
Proof.
  unfold Script.onDOMContentLoaded. cbv zeta.
  destruct (Script.starfield Script.starCount (random w)) as [sp rng] eqn:Hstars.
  cbn [scene_add].
  destruct (getElementById "icon-container" w) as [icon|] eqn:Hicon.
  - pose proof Hicon as Hicon'. apply getElementById_Some in Hicon' as [-> Hsome].
    rewrite <- Hicon at 1.
    exact (booted_normal w sp rng Hstars Hsome).
  - rewrite <- Hicon at 1.
    assert (Hnone : document w !! "icon-container" = None).
    { unfold getElementById in Hicon. by destruct (document w !! "icon-container"). }
    exact (booted_throw w sp rng Hstars Hnone).
Qed.

(** What the frame callback does to the closures. *)
Definition animate_env (v : Solar.Env num) : Solar.Env num :=
  Solar.set_renderer (render (Solar.renderer v))
    (Solar.set_camera
       (PlanetScript.parallax (Solar.mouseX v) (Solar.mouseY v) (Solar.camera v)) v).

Lemma animate_solar e w :
  solar (PlanetScript.animate e w) = alter animate_env e (solar w).
Proof.
  unfold PlanetScript.animate. wsimpl.
  destruct (solar w !! e) as [v|] eqn:Hv; [reflexivity|].
  wsimpl. apply list_eq. intros i. destruct (decide (e = i)) as [->|Hne].
  - by rewrite list_lookup_alter_eq, Hv.
  - by rewrite list_lookup_alter_ne.
Qed.

End ActivationShape.

(** ** The zoom distance stays in its range *)

Section ZoomInvariant.
Context {num : Type} `{!JSNumber num}.
Variable raycast : @Vector2 num → @Camera num → @Object3D num → list num.
Implicit Types w : World num.
Local Open Scope js_scope.

(** What it means for a distance to be in the range of each screen, and
    which wheel deltas the browser delivers, are given per number system;
    the two clamps must bring every sum into the range. *)
Variables in_landing in_solar ok_delta : num → Prop.
Hypothesis landing_start : in_landing (lit 1000 0).
Hypothesis solar_start : in_solar (lit 800 0).
Hypothesis landing_clamp : ∀ z d, in_landing z → ok_delta d →
  in_landing (Math_max Script.minZoom (Math_min Script.maxZoom (z + d * lit 5 1))).
Hypothesis solar_clamp : ∀ z d, in_solar z → ok_delta d →
  in_solar (Math_max PlanetScript.minZoom (Math_min PlanetScript.maxZoom (z + d * lit 5 1))).

Definition landing_distance (v : Landing.Env num) : num :=
  v_z (cam_position (Landing.camera v)).

Definition solar_distance (v : Solar.Env num) : num :=
  v_z (cam_position (Solar.camera v)).

Definition zoomed (w : World num) : Prop :=
  (∀ v, landing w = Some v → in_landing (landing_distance v))
  ∧ Forall (λ v, in_solar (solar_distance v)) (solar w).

Definition wheel_allowed (ev : @Page.Event num) : Prop :=
  match ev with
  | Page.Wheel d => ok_delta d
  | _ => True
  end.

Lemma zoomed_same w w' :
  landing w' = landing w → solar w' = solar w → zoomed w → zoomed w'.
Proof. unfold zoomed. by intros -> ->. Qed.

Lemma zoomed_update_solar e f w :
  (∀ v, in_solar (solar_distance v) → in_solar (solar_distance (f v))) →
  zoomed w → zoomed (update_solar e f w).
Proof.
  intros Hf [Hl Hs]. split; [exact Hl|]. wsimpl.
  apply Forall_alter; auto.
Qed.

Lemma zoomed_update_landing f w :
  (∀ v, in_landing (landing_distance v) → in_landing (landing_distance (f v))) →
  zoomed w → zoomed (update_landing f w).
Proof.
  intros Hf [Hl Hs]. split; [|exact Hs]. wsimpl.
  intros v'. destruct (landing w) as [v|]; cbn; [|done].
  intros [= <-]. auto.
Qed.

Lemma onCanvasClick_solar e event w :
  ∃ mouse,
    solar (PlanetScript.onCanvasClick raycast e event w)
    = alter (λ v, Solar.set_raycaster (Some (mouse, Solar.camera v))
                    (Solar.set_mouse mouse v)) e (solar w).
Proof.
  unfold PlanetScript.onCanvasClick. eexists.
  destruct (solar w !! e) as [v|] eqn:Hv.
  - cbv zeta. repeat case_match; wsimpl; reflexivity.
  - apply list_eq. intros i. destruct (decide (e = i)) as [->|Hne].
    + by rewrite list_lookup_alter_eq, Hv.
    + by rewrite list_lookup_alter_ne.
Qed.

Lemma onCanvasClick_landing e event w :
  landing (PlanetScript.onCanvasClick raycast e event w) = landing w.
Proof.
  unfold PlanetScript.onCanvasClick. cbv zeta. repeat case_match; reflexivity.
Qed.

Lemma zoomed_call f ev w :
  wheel_allowed ev → zoomed w → zoomed (Page.call raycast f ev w).
Proof.
  intros Hev Hw.
  destruct f, ev; cbn [Page.call]; try exact Hw.
  - apply zoomed_update_landing; auto.
  - apply zoomed_update_landing; [|exact Hw]. intros v Hv. by apply landing_clamp.
  - apply zoomed_update_landing; auto.
  - destruct (onCanvasClick_solar e event w) as (mouse & Hs).
    destruct Hw as [Hl Hsol]. split.
    + by rewrite onCanvasClick_landing.
    + rewrite Hs. apply Forall_alter; [exact Hsol|]. auto.
  - revert Hw. apply zoomed_same; unfold PlanetScript.closeClick;
      repeat case_match; reflexivity.
  - apply zoomed_update_solar; [|exact Hw]. intros v Hv. by apply solar_clamp.
  - apply zoomed_update_solar; auto.
  - apply zoomed_update_solar; auto.
Qed.

Lemma zoomed_animate e w : zoomed w → zoomed (PlanetScript.animate e w).
Proof.
  intros [Hl Hs]. split.
  - by rewrite animate_landing.
  - rewrite animate_solar. apply Forall_alter; auto.
Qed.

Lemma zoomed_initSolarSystem w :
  zoomed w → zoomed (PlanetScript.initSolarSystem w).2.
Proof.
  intros Hw.
  assert (Henv : ∀ scene planets sto rng, zoomed (with_env w scene planets sto rng)).
  { intros. destruct Hw as [Hl Hs]. split; [exact Hl|].
    unfold with_env. wsimpl. apply Forall_app. split; [exact Hs|].
    repeat constructor. exact solar_start. }
  destruct (initSolarSystem_activation w); cbn [snd]; auto.
  apply zoomed_animate. revert Henv. unfold with_listeners.
  intros Henv. exact (Henv scene planets sto rng).
Qed.

Lemma zoomed_landing_animate w : zoomed w → zoomed (Script.animate w).
Proof.
  intros Hw.
  unfold Script.animate. wsimpl. destruct (landing w) as [v|] eqn:Hv; [|exact Hw].
  apply zoomed_update_landing; [auto|].
  revert Hw. apply zoomed_same; reflexivity.
Qed.

Lemma zoomed_run_callback f w : zoomed w → zoomed (Page.run_callback f w).
Proof.
  intros Hw. destruct f; cbn [Page.run_callback].
  - by apply zoomed_landing_animate.
  - unfold Script.onComplete.
    destruct (getElementById "solar-container" w); [|exact Hw].
    cbv zeta. wsimpl. destruct (has_initSolarSystem w); [|exact Hw].
    apply zoomed_initSolarSystem. exact Hw.
  - by apply zoomed_animate.
  - unfold PlanetScript.hidePanel. repeat case_match; exact Hw.
Qed.

Lemma zoomed_element_addEventListener id type f w :
  zoomed w → zoomed (element_addEventListener id type f w).
Proof. apply zoomed_same; reflexivity. Qed.

Lemma zoomed_with_landing w sp rng :
  solar w = [] → zoomed (with_landing w sp rng).
Proof.
  intros Hsolar. split.
  - unfold with_landing. wsimpl. intros v [= <-]. exact landing_start.
  - unfold with_landing. wsimpl. rewrite Hsolar. constructor.
Qed.

Lemma zoomed_loaded markup width height ratio planetScript random :
  zoomed (Page.loaded markup width height ratio planetScript random).
Proof.
  unfold Page.loaded.
  assert (Hsolar : solar (Page.page markup width height ratio planetScript random) = [])
    by reflexivity.
  revert Hsolar. generalize (Page.page markup width height ratio planetScript random).
  intros w Hsolar.
  destruct (onDOMContentLoaded_booted w); cbn [snd].
  - apply zoomed_landing_animate. by apply zoomed_with_landing.
  - apply zoomed_element_addEventListener.
    apply zoomed_landing_animate. by apply zoomed_with_landing.
Qed.

(** Whatever the browser delivers, as long as the wheel deltas are
    allowed ones, both zoom distances are in their range. *)
Lemma zoomed_reachable w :
  Page.reachable_by raycast wheel_allowed w → zoomed w.
Proof.
  apply reachable_by_invariant.
  - apply zoomed_loaded.
  - apply step_preserves; auto using zoomed_call, zoomed_run_callback.
Qed.

End ZoomInvariant.

(** ** The zoom distance over the reals *)

Section IdealZoom.
Local Open Scope R_scope.

Lemma Real_literal_integer m : Real.literal m 0 = IZR m.
Proof. unfold Real.literal. simpl. field. Qed.

Lemma Real_literal_half : Real.literal 5 1 = / 2.
Proof. unfold Real.literal. simpl. field. Qed.

Lemma Rclamp_in_range lo hi t : lo <= hi → lo <= Rmax lo (Rmin hi t) <= hi.
Proof.
  intros Hle. split; [apply Rmax_l|].
  apply Rmax_lub; [exact Hle|apply Rmin_l].
Qed.

Lemma Rclamp_inside lo hi t : lo <= t <= hi → Rmax lo (Rmin hi t) = t.
Proof.
  intros [Hlo Hhi]. rewrite Rmin_right by exact Hhi. by rewrite Rmax_right.
Qed.

Lemma Rclamp_above lo hi t : lo <= hi → hi <= t → Rmax lo (Rmin hi t) = hi.
Proof.
  intros Hle Hhi. rewrite Rmin_left by exact Hhi. by rewrite Rmax_right.
Qed.

Definition solar_range (z : R) : Prop := 300 <= z <= 1500.
Definition landing_range (z : R) : Prop := 500 <= z <= 2000.

Lemma ideal_solar_clamp (z d : R) :
  solar_range
    (@Math_max R Ideal (@PlanetScript.minZoom R Ideal)
       (@Math_min R Ideal (@PlanetScript.maxZoom R Ideal)
          (@num_add R Ideal z (@num_mul R Ideal d (@lit R Ideal 5 1))))).
Proof.
  unfold PlanetScript.minZoom, PlanetScript.maxZoom. cbn [Ideal Math_max Math_min lit].
  rewrite !Real_literal_integer. apply Rclamp_in_range. lra.
Qed.

Lemma ideal_landing_clamp (z d : R) :
  landing_range
    (@Math_max R Ideal (@Script.minZoom R Ideal)
       (@Math_min R Ideal (@Script.maxZoom R Ideal)
          (@num_add R Ideal z (@num_mul R Ideal d (@lit R Ideal 5 1))))).
Proof.
  unfold Script.minZoom, Script.maxZoom. cbn [Ideal Math_max Math_min lit].
  rewrite !Real_literal_integer. apply Rclamp_in_range. lra.
Qed.

(** Over the reals: in every world the page can reach, whatever events
    the browser delivered and whatever their wheel deltas were, the zoom
    distance of the landing camera is in [500, 2000] and the zoom distance
    of every solar camera is in [300, 1500]. *)
Lemma real_zoom_in_range raycast (w : World R) :
  @Page.reachable R Ideal raycast w →
  (∀ v, landing w = Some v → 500 <= landing_distance v <= 2000)
  ∧ (∀ e v, solar w !! e = Some v → 300 <= solar_distance v <= 1500).
Proof.
  intros Hw.
  destruct (@zoomed_reachable R Ideal raycast landing_range solar_range (λ _, True)) with w
    as [Hl Hs].
  - unfold landing_range. cbn [Ideal lit]. rewrite Real_literal_integer. lra.
  - unfold solar_range. cbn [Ideal lit]. rewrite Real_literal_integer. lra.
  - intros z d _ _. apply ideal_landing_clamp.
  - intros z d _ _. apply ideal_solar_clamp.
  - revert Hw. unfold Page.reachable. clear. intros Hw.
    induction Hw; [constructor|]. constructor; [|done]. by destruct ev.
  - split; [exact Hl|]. intros e v Hv.
    rewrite Forall_lookup in Hs. exact (Hs e v Hv).
Qed.

End IdealZoom.

(** ** The zoom distance in binary64 *)

Section SpecFloatFacts.
Variables prec emax : Z.

Lemma iter_pos_preserves {A} (P : A → Prop) (f : A → A) :
  (∀ x, P x → P (f x)) → ∀ n x, P x → P (SpecFloat.iter_pos f n x).
Proof.
  intros Hf. induction n as [n IH|n IH|]; intros x Hx; cbn [SpecFloat.iter_pos]; auto.
Qed.

Lemma shr_1_nonneg mrs : (0 <= shr_m mrs)%Z → (0 <= shr_m (shr_1 mrs))%Z.
Proof.
  destruct mrs as [m r s]. cbn [shr_m]. intros Hm.
  destruct m as [|p|p]; [done| |lia].
  destruct p; cbn; lia.
Qed.

Lemma shr_nonneg mrs e n : (0 <= shr_m mrs)%Z → (0 <= shr_m (shr mrs e n).1)%Z.
Proof.
  intros Hm. unfold shr. destruct n as [|p|p]; cbn [fst]; [done| |done].
  apply (iter_pos_preserves (λ r, (0 <= shr_m r)%Z)); [apply shr_1_nonneg|done].
Qed.

Lemma shr_fexp_nonneg m e l :
  (0 <= m)%Z → (0 <= shr_m (shr_fexp prec emax m e l).1)%Z.
Proof.
  intros Hm. unfold shr_fexp. apply shr_nonneg.
  destruct l as [|[]]; cbn; exact Hm.
Qed.

Lemma round_nearest_even_nonneg m l : (0 <= m)%Z → (0 <= round_nearest_even m l)%Z.
Proof.
  intros Hm. unfold round_nearest_even.
  destruct l as [|[]]; try done; [destruct (Z.even m)|]; lia.
Qed.

Lemma binary_round_aux_not_nan sx mx ex lx :
  (0 <= mx)%Z → binary_round_aux prec emax sx mx ex lx ≠ S754_nan.
Proof.
  intros Hm. unfold binary_round_aux.
  pose proof (shr_fexp_nonneg mx ex lx Hm) as H1.
  destruct (shr_fexp prec emax mx ex lx) as [mrs' e'] eqn:E1. cbn [fst] in H1.
  pose proof (shr_fexp_nonneg _ e' loc_Exact
                (round_nearest_even_nonneg _ (loc_of_shr_record mrs') H1)) as H2.
  destruct (shr_fexp prec emax _ e' loc_Exact) as [mrs'' e''] eqn:E2. cbn [fst] in H2.
  destruct (shr_m mrs'') as [|p|p]; [done| |lia].
  by destruct (e'' <=? emax - prec)%Z.
Qed.

Lemma binary_normalize_not_nan m e szero :
  binary_normalize prec emax m e szero ≠ S754_nan.
Proof.
  unfold binary_normalize, binary_round.
  destruct m as [|p|p]; [done| |];
    destruct (shl_align _ _ _) as [mz ez]; by apply binary_round_aux_not_nan.
Qed.

Definition SFfinite (x : spec_float) : Prop :=
  match x with
  | S754_zero _ | S754_finite _ _ _ => True
  | _ => False
  end.

Lemma SFadd_not_nan x y :
  SFfinite x → y ≠ S754_nan → SFadd prec emax x y ≠ S754_nan.
Proof.
  destruct x as [sx|sx| |sx mx ex], y as [sy|sy| |sy my ey]; try done; intros _ _.
  - by destruct sx, sy.
  - apply binary_normalize_not_nan.
Qed.

Lemma SFmul_finite_not_nan x sy my ey :
  x ≠ S754_nan → SFmul prec emax x (S754_finite sy my ey) ≠ S754_nan.
Proof.
  destruct x as [sx|sx| |sx mx ex]; try done; intros _.
  by apply binary_round_aux_not_nan.
Qed.

Lemma SFcompare_refl x : x ≠ S754_nan → SFcompare x x = Some Eq.
Proof.
  destruct x as [sx|sx| |sx mx ex]; try done; intros _; cbn.
  - by destruct sx.
  - rewrite Z.compare_refl, Pos.compare_cont_refl. by destruct sx.
Qed.

Lemma SFcompare_swap x y c :
  SFcompare x y = Some c → SFcompare y x = Some (CompOpp c).
Proof.
  destruct x as [sx|sx| |sx mx ex], y as [sy|sy| |sy my ey]; cbn; try done;
    try (intros [= <-]; by repeat match goal with b : bool |- _ => destruct b end).
  intros [= <-]. f_equal.
  pose proof (Pos.compare_cont_antisym mx my Eq) as Hm. cbn [CompOpp] in Hm.
  rewrite (Z.compare_antisym ey ex).
  destruct sx, sy; try done; destruct (ey ?= ex)%Z; cbn; try done.
  by rewrite <- Hm, CompOpp_involutive.
Qed.

Lemma SFcompare_defined x y :
  x ≠ S754_nan → y ≠ S754_nan → is_Some (SFcompare x y).
Proof.
  destruct x as [sx|sx| |sx mx ex], y as [sy|sy| |sy my ey]; cbn; try done; eauto.
Qed.

End SpecFloatFacts.

Section Float64Zoom.

Lemma is_nan_false x : PrimFloat.is_nan x = false ↔ Prim2SF x ≠ S754_nan.
Proof.
  unfold PrimFloat.is_nan. rewrite FloatAxioms.eqb_spec. unfold SFeqb. split.
  - intros Hx Hnan. rewrite Hnan in Hx. discriminate.
  - intros Hx. by rewrite SFcompare_refl.
Qed.

Lemma leb_refl x : PrimFloat.is_nan x = false → PrimFloat.leb x x = true.
Proof.
  rewrite is_nan_false, FloatAxioms.leb_spec. intros Hx. unfold SFleb. by rewrite SFcompare_refl.
Qed.

Lemma ltb_leb x y : PrimFloat.ltb x y = true → PrimFloat.leb x y = true.
Proof.
  rewrite FloatAxioms.ltb_spec, FloatAxioms.leb_spec. unfold SFltb, SFleb.
  by destruct (SFcompare (Prim2SF x) (Prim2SF y)) as [[]|].
Qed.

Lemma not_ltb_leb x y :
  PrimFloat.is_nan x = false → PrimFloat.is_nan y = false →
  PrimFloat.ltb x y = false → PrimFloat.leb y x = true.
Proof.
  rewrite !is_nan_false, FloatAxioms.ltb_spec, FloatAxioms.leb_spec. unfold SFltb, SFleb. intros Hx Hy.
  destruct (SFcompare_defined (Prim2SF x) (Prim2SF y) Hx Hy) as [c Hc].
  rewrite Hc, (SFcompare_swap _ _ _ Hc). by destruct c.
Qed.

Lemma leb_not_nan x y :
  PrimFloat.leb x y = true → PrimFloat.is_nan x = false ∧ PrimFloat.is_nan y = false.
Proof.
  rewrite !is_nan_false, FloatAxioms.leb_spec. unfold SFleb.
  destruct (Prim2SF x), (Prim2SF y); done.
Qed.

(** A distance is in a range when the two comparisons of the language
    say so. *)
Definition between (lo hi z : float) : Prop :=
  PrimFloat.leb lo z = true ∧ PrimFloat.leb z hi = true.

Lemma between_finite lo hi z :
  SFfinite (Prim2SF lo) → SFfinite (Prim2SF hi) → between lo hi z →
  SFfinite (Prim2SF z).
Proof.
  unfold between. rewrite !FloatAxioms.leb_spec. unfold SFleb.
  destruct (Prim2SF lo) as [?|?| |[] ? ?], (Prim2SF hi) as [?|?| |[] ? ?],
    (Prim2SF z) as [?|[]| |? ? ?]; cbn; try done; intros _ _ [? ?]; done.
Qed.

Lemma clamp_between lo hi t :
  F64.is_neg_zero lo = false → F64.is_neg_zero hi = false →
  PrimFloat.leb lo hi = true → PrimFloat.is_nan t = false →
  between lo hi (F64.max lo (F64.min hi t)).
Proof.
  intros Hzlo Hzhi Hle Ht.
  destruct (leb_not_nan lo hi Hle) as [Hlo Hhi].
  assert (Hm : PrimFloat.is_nan (F64.min hi t) = false
               ∧ PrimFloat.leb (F64.min hi t) hi = true).
  { unfold F64.min. rewrite Hhi, Ht, Hzhi. cbn [orb].
    destruct (PrimFloat.ltb hi t) eqn:H1; [by auto using leb_refl|].
    assert (PrimFloat.leb t hi = true) by by apply not_ltb_leb.
    by destruct (PrimFloat.ltb t hi). }
  destruct Hm as [Hm Hmhi]. unfold between, F64.max.
  rewrite Hlo, Hm, Hzlo. cbn [orb].
  destruct (PrimFloat.ltb lo (F64.min hi t)) eqn:H1; [by auto using ltb_leb|].
  assert (PrimFloat.leb lo lo = true) by by apply leb_refl.
  by destruct (PrimFloat.ltb (F64.min hi t) lo).
Qed.

Lemma zoom_sum_not_nan lo hi z d :
  SFfinite (Prim2SF lo) → SFfinite (Prim2SF hi) → between lo hi z →
  PrimFloat.is_nan d = false →
  PrimFloat.is_nan (PrimFloat.add z (PrimFloat.mul d (F64.literal 5 1))) = false.
Proof.
  intros Hlo Hhi Hz Hd. apply is_nan_false. rewrite FloatAxioms.add_spec.
  apply SFadd_not_nan; [by apply (between_finite lo hi)|].
  rewrite FloatAxioms.mul_spec.
  replace (Prim2SF (F64.literal 5 1)) with (S754_finite false 4503599627370496 (-53))
    by (vm_compute; reflexivity).
  apply SFmul_finite_not_nan. by apply is_nan_false.
Qed.

End Float64Zoom.

Section Float64Invariant.
Variables cos sin acos : float → float.
Let F := Float64 cos sin acos.

Definition not_nan_delta (ev : @Page.Event float) : Prop :=
  match ev with
  | Page.Wheel deltaY => PrimFloat.is_nan deltaY = false
  | _ => True
  end.

(** In binary64: in every world the page can reach through events whose
    wheel deltas are numbers (deltaY is not NaN; infinities are allowed),
    both zoom distances are in their range. *)
Lemma binary64_zoom_in_range raycast (w : World float) :
  @Page.reachable_by float F raycast not_nan_delta w →
  (∀ v, landing w = Some v →
        between (F64.literal 500 0) (F64.literal 2000 0) (landing_distance v))
  ∧ (∀ e v, solar w !! e = Some v →
        between (F64.literal 300 0) (F64.literal 1500 0) (solar_distance v)).
Proof.
  intros Hw.
  destruct (@zoomed_reachable float F raycast
              (between (F64.literal 500 0) (F64.literal 2000 0))
              (between (F64.literal 300 0) (F64.literal 1500 0))
              (λ d, PrimFloat.is_nan d = false)) with w as [Hl Hs].
  - split; vm_compute; reflexivity.
  - split; vm_compute; reflexivity.
  - intros z d Hz Hd. apply clamp_between; try (vm_compute; reflexivity).
    apply (zoom_sum_not_nan (F64.literal 500 0) (F64.literal 2000 0)); try done;
      vm_compute; exact I.
  - intros z d Hz Hd. apply clamp_between; try (vm_compute; reflexivity).
    apply (zoom_sum_not_nan (F64.literal 300 0) (F64.literal 1500 0)); try done;
      vm_compute; exact I.
  - revert Hw. clear. intros Hw.
    induction Hw; [constructor|]. constructor; [|done]. by destruct ev.
  - split; [exact Hl|]. intros e v Hv.
    rewrite Forall_lookup in Hs. exact (Hs e v Hv).
Qed.

End Float64Invariant.

(** C3. For any finite sequence of events the browser delivers to the
    loaded page, wheel events with any deltaY among them, the zoom distance
    of the landing camera is in [500, 2000] and that of every solar camera
    is in [300, 1500]: over the reals for every real deltaY, and in
    binary64 for every deltaY that is a number (a WheelEvent's deltaY is
    never NaN). Both cameras start in their range, at 1000 and at 800. *)
Theorem zoom_distance_in_range :
  (∀ raycast (w : World R),
     @Page.reachable R Ideal raycast w →
     (∀ v, landing w = Some v → (500 <= landing_distance v <= 2000)%R)
     ∧ (∀ e v, solar w !! e = Some v → (300 <= solar_distance v <= 1500)%R))
  ∧ (∀ cos sin acos raycast (w : World float),
       @Page.reachable_by float (Float64 cos sin acos) raycast not_nan_delta w →
       (∀ v, landing w = Some v →
             between (F64.literal 500 0) (F64.literal 2000 0) (landing_distance v))
       ∧ (∀ e v, solar w !! e = Some v →
             between (F64.literal 300 0) (F64.literal 1500 0) (solar_distance v))).
Proof.
  split.
  - exact real_zoom_in_range.
  - exact binary64_zoom_in_range.
Qed.

(** Why a wheel delta has to be a number: the clamp lets NaN through. *)
Example binary64_clamp_of_nan :
  F64.max (F64.literal 300 0) (F64.min (F64.literal 1500 0) PrimFloat.nan) = PrimFloat.nan.
Proof. vm_compute. reflexivity. Qed.

Lemma zoom_distance_in_range_witness :
  let w :=
    @Page.run float (Float64 (λ x, x) (λ x, x) (λ x, x)) (λ _ _ _, [])
      [Page.Wheel (F64.literal 1000 0); Page.AnimationFrame;
       Page.Wheel PrimFloat.neg_infinity]
      (@Page.loaded float (Float64 (λ x, x) (λ x, x) (λ x, x)) ∅
         (F64.literal 1920 0) (F64.literal 1080 0) (F64.literal 1 0) true
         (λ _, PrimFloat.zero)) in
  (∀ v, landing w = Some v →
        between (F64.literal 500 0) (F64.literal 2000 0) (landing_distance v))
  ∧ (∀ e v, solar w !! e = Some v →
        between (F64.literal 300 0) (F64.literal 1500 0) (solar_distance v)).
Proof.
  intros w.
  apply (proj2 zoom_distance_in_range (λ x, x) (λ x, x) (λ x, x) (λ _ _ _, [])).
  apply reachable_by_run; [|constructor].
  repeat constructor.
Defined.

(** ** The wheel scenario *)

Section WheelScenario.
Context {num : Type} `{!JSNumber num}.
Local Open Scope js_scope.

Lemma onWheel_distance e d (w : World num) :
  solar_distance <$> solar (PlanetScript.onWheel e d w) !! e
  = (λ z, Math_max PlanetScript.minZoom
            (Math_min PlanetScript.maxZoom (z + d * lit 5 1)))
      <$> (solar_distance <$> solar w !! e).
Proof.
  unfold PlanetScript.onWheel. wsimpl. rewrite list_lookup_alter_eq.
  by destruct (solar w !! e).
Qed.

End WheelScenario.

(** C5. On the solar screen, from zoom distance 800, a wheel event with
    deltaY = 1000 leaves the distance at exactly 1300 and a second one at
    exactly 1500, in binary64 as over the reals. *)
Theorem wheel_scenario :
  (∀ cos sin acos (w : World float) e,
     solar_distance <$> solar w !! e = Some (F64.literal 800 0) →
     solar_distance <$>
       solar (@PlanetScript.onWheel float (Float64 cos sin acos) e (F64.literal 1000 0) w) !! e
     = Some (F64.literal 1300 0)
     ∧ solar_distance <$>
         solar (@PlanetScript.onWheel float (Float64 cos sin acos) e (F64.literal 1000 0)
                  (@PlanetScript.onWheel float (Float64 cos sin acos) e
                     (F64.literal 1000 0) w)) !! e
       = Some (F64.literal 1500 0))
  ∧ (∀ (w : World R) e,
       solar_distance <$> solar w !! e = Some 800%R →
       solar_distance <$> solar (@PlanetScript.onWheel R Ideal e 1000%R w) !! e
       = Some 1300%R
       ∧ solar_distance <$>
           solar (@PlanetScript.onWheel R Ideal e 1000%R
                    (@PlanetScript.onWheel R Ideal e 1000%R w)) !! e
         = Some 1500%R).
Proof.
  split.
  - intros cos sin acos w e Hw.
    rewrite !(@onWheel_distance float (Float64 cos sin acos)), Hw.
    split; vm_compute; reflexivity.
  - intros w e Hw.
    rewrite !(@onWheel_distance R Ideal), Hw.
    unfold PlanetScript.minZoom, PlanetScript.maxZoom.
    cbn [fmap option_fmap option_map Ideal Math_max Math_min lit num_add num_mul].
    rewrite !Real_literal_integer, Real_literal_half.
    replace (800 + 1000 * / 2)%R with 1300%R by lra.
    rewrite (Rclamp_inside 300 1500 1300) by lra.
    split; [reflexivity|].
    f_equal. apply Rclamp_above; lra.
Qed.

Lemma wheel_scenario_witness :
  let F := Float64 (λ x, x) (λ x, x) (λ x, x) in
  let w0 :=
    @Page.page float ∅ (F64.literal 1920 0) (F64.literal 1080 0) (F64.literal 1 0)
      true (λ _, PrimFloat.zero) in
  let w := set_solar [@new_env float F w0 [] []] w0 in
  solar_distance <$> solar (@PlanetScript.onWheel float F 0 (F64.literal 1000 0) w) !! 0
  = Some (F64.literal 1300 0)
  ∧ solar_distance <$>
      solar (@PlanetScript.onWheel float F 0 (F64.literal 1000 0)
               (@PlanetScript.onWheel float F 0 (F64.literal 1000 0) w)) !! 0
    = Some (F64.literal 1500 0).
Proof.
  intros F w0 w.
  apply (proj1 wheel_scenario (λ x, x) (λ x, x) (λ x, x) w 0).
  reflexivity.
Defined.

(** ** Orbits *)

Section Orbit.
Context {num : Type} `{!JSNumber num}.
Local Open Scope js_scope.

(** Where the formula of the loop puts a body with the given data. *)
Definition on_orbit_position (u : @UserData num) : Vector3 :=
  mkVector3 (Math_cos (angle u) * orbitalRadius u) (lit 0 0)
            (Math_sin (angle u) * orbitalRadius u).

(** The position of an object is the one its own angle and radius give. *)
Definition on_orbit (o : @Object3D num) : Prop :=
  ∀ u, userData o = Some u → position o = on_orbit_position u.

Lemma orbit_userData o u :
  userData o = Some u →
  userData (PlanetScript.orbit o) = Some (set_angle (angle u + speed u) u).
Proof. unfold PlanetScript.orbit. by intros ->. Qed.

Lemma orbit_userData_None o :
  userData o = None → PlanetScript.orbit o = o.
Proof. unfold PlanetScript.orbit. by intros ->. Qed.

Lemma orbit_kind o : kind (PlanetScript.orbit o) = kind o.
Proof. unfold PlanetScript.orbit. by destruct (userData o). Qed.

(** One tick puts the body where its new angle says, wherever it was. *)
Lemma orbit_on_orbit o : on_orbit (PlanetScript.orbit o).
Proof.
  unfold on_orbit, PlanetScript.orbit. destruct (userData o) as [u|] eqn:Hu.
  - cbn. intros u' [= <-]. reflexivity.
  - intros u'. rewrite Hu. discriminate.
Qed.

Lemma orbit_iter_userData n o u :
  userData o = Some u →
  userData (Nat.iter n PlanetScript.orbit o)
  = Some (set_angle (Nat.iter n (λ a, a + speed u) (angle u)) u).
Proof.
  intros Hu. induction n as [|n IH].
  - cbn. rewrite Hu. by destruct u.
  - rewrite !Nat.iter_succ, (orbit_userData _ _ IH). reflexivity.
Qed.

Lemma orbit_iter_position n o u :
  userData o = Some u →
  position (Nat.iter (S n) PlanetScript.orbit o)
  = on_orbit_position (set_angle (Nat.iter (S n) (λ a, a + speed u) (angle u)) u).
Proof.
  intros Hu. rewrite (Nat.iter_succ n PlanetScript.orbit).
  apply (orbit_on_orbit (Nat.iter n PlanetScript.orbit o)).
  rewrite <- (Nat.iter_succ n PlanetScript.orbit).
  exact (orbit_iter_userData (S n) o u Hu).
Qed.

End Orbit.

Section RealTrig.
Local Open Scope R_scope.

Lemma Rabs_sin_le x : Rabs (sin x) <= Rabs x.
Proof.
  assert (Hpos : ∀ y, 0 <= y → Rabs (sin y) <= y).
  { intros y Hy. apply Rabs_le. split.
    - destruct (Rle_dec y 1) as [Hle|Hgt].
      + pose proof PI2_1. pose proof (sin_ge_0 y Hy). lra.
      + pose proof (SIN_bound y). lra.
    - destruct Hy as [Hy|<-]; [left; by apply sin_lt_x|rewrite sin_0; lra]. }
  destruct (Rle_dec 0 x) as [Hx|Hx].
  - rewrite (Rabs_right x) by lra. by apply Hpos.
  - rewrite (Rabs_left x) by lra.
    rewrite <- (Rabs_Ropp (sin x)), <- sin_neg. apply Hpos. lra.
Qed.

Lemma cos_lipschitz a b : Rabs (cos a - cos b) <= Rabs (a - b).
Proof.
  rewrite form2, !Rabs_mult.
  pose proof (Rabs_sin_le ((a - b) / 2)) as H1.
  pose proof (SIN_bound ((a + b) / 2)) as H2.
  assert (H3 : Rabs (sin ((a + b) / 2)) <= 1) by (apply Rabs_le; lra).
  assert (H4 : Rabs ((a - b) / 2) = Rabs (a - b) / 2).
  { unfold Rdiv. rewrite Rabs_mult, (Rabs_right (/ 2)); lra. }
  rewrite (Rabs_left (-2)) by lra.
  pose proof (Rabs_pos (sin ((a - b) / 2))).
  pose proof (Rabs_pos (sin ((a + b) / 2))).
  nra.
Qed.

Lemma sin_lipschitz a b : Rabs (sin a - sin b) <= Rabs (a - b).
Proof.
  rewrite form4, !Rabs_mult.
  pose proof (Rabs_sin_le ((a - b) / 2)) as H1.
  pose proof (COS_bound ((a + b) / 2)) as H2.
  assert (H3 : Rabs (cos ((a + b) / 2)) <= 1) by (apply Rabs_le; lra).
  assert (H4 : Rabs ((a - b) / 2) = Rabs (a - b) / 2).
  { unfold Rdiv. rewrite Rabs_mult, (Rabs_right (/ 2)); lra. }
  rewrite (Rabs_right 2) by lra.
  pose proof (Rabs_pos (sin ((a - b) / 2))).
  pose proof (Rabs_pos (cos ((a + b) / 2))).
  nra.
Qed.

End RealTrig.

Lemma real_angle_after n (s a : R) :
  Nat.iter n (λ a, a + s)%R a = (a + INR n * s)%R.
Proof.
  induction n as [|n IH]; [simpl; lra|].
  change (Nat.iter (S n) (λ a, a + s)%R a) with (Nat.iter n (λ a, a + s)%R a + s)%R.
  rewrite IH, S_INR. lra.
Qed.

(** The angle binary64 arithmetic reaches after adding 0.01 a hundred
    times to 0: 1 + 3 * 2^-52, printed 1.0000000000000007. *)
Definition binary64_angle_100 : float :=
  Eval vm_compute in Z.ldexp (F64.of_Z 4503599627370499) (-52).

Lemma binary64_angle_100_value :
  F64.to_R binary64_angle_100 = (1 + 3 / 4503599627370496)%R.
Proof.
  unfold F64.to_R.
  replace (Prim2SF binary64_angle_100)
    with (S754_finite false 4503599627370499 (-52)) by (vm_compute; reflexivity).
  cbn [cond_Zopp].
  replace (powerRZ 2 (-52)) with (/ 4503599627370496)%R; [lra|].
  change (-52)%Z with (- Z.of_nat 52)%Z.
  rewrite powerRZ_neg', <- pow_powerRZ. f_equal. simpl. lra.
Qed.

(** C6. A body with orbitalRadius 150, speed 0.01 and angle 0, after
    exactly 100 ticks of the loop body: over the reals its angle is 1 and
    its position (cos 1 * 150, 0, sin 1 * 150) exactly; in binary64 its
    angle is 1 + 3 * 2^-52, within 2^-50 of 1, and its position is
    (Math.cos(angle) * 150, 0, Math.sin(angle) * 150) at that angle, which
    with the exact cosine and sine is within 10^-12 of
    (cos 1 * 150, 0, sin 1 * 150). *)
Theorem hundred_ticks :
  (∀ (o : @Object3D R) u,
     userData o = Some u →
     orbitalRadius u = @lit R Ideal 150 0 → speed u = @lit R Ideal 1 2 →
     angle u = @lit R Ideal 0 0 →
     ∃ u', userData (Nat.iter 100 (@PlanetScript.orbit R Ideal) o) = Some u'
           ∧ angle u' = 1%R
           ∧ position (Nat.iter 100 (@PlanetScript.orbit R Ideal) o)
             = mkVector3 (cos 1 * 150)%R 0%R (sin 1 * 150)%R)
  ∧ (∀ cos sin acos (o : @Object3D float) u,
       userData o = Some u →
       orbitalRadius u = F64.literal 150 0 → speed u = F64.literal 1 2 →
       angle u = F64.literal 0 0 →
       ∃ u', userData (Nat.iter 100 (@PlanetScript.orbit float (Float64 cos sin acos)) o)
             = Some u'
             ∧ angle u' = binary64_angle_100
             ∧ PrimFloat.leb
                 (PrimFloat.abs (PrimFloat.sub (angle u') (F64.literal 1 0)))
                 (Z.ldexp (F64.literal 1 0) (-50)) = true
             ∧ position (Nat.iter 100 (@PlanetScript.orbit float (Float64 cos sin acos)) o)
               = mkVector3 (PrimFloat.mul (cos binary64_angle_100) (F64.literal 150 0))
                           (F64.literal 0 0)
                           (PrimFloat.mul (sin binary64_angle_100) (F64.literal 150 0)))
  ∧ (Rabs (F64.to_R binary64_angle_100 - 1) <= / 10 ^ 15
     ∧ Rabs (cos (F64.to_R binary64_angle_100) * 150 - cos 1 * 150) <= / 10 ^ 12
     ∧ Rabs (sin (F64.to_R binary64_angle_100) * 150 - sin 1 * 150) <= / 10 ^ 12)%R.
Proof.
  split; [|split].
  - intros o u Hu Hr Hs Ha.
    assert (Hangle : Nat.iter 100 (λ a, @num_add R Ideal a (speed u)) (angle u) = 1%R).
    { cbn [Ideal num_add]. rewrite real_angle_after, Hs, Ha.
      replace (INR 100) with 100%R by (simpl; lra).
      cbn [Ideal lit]. unfold Real.literal. simpl. lra. }
    eexists. split; [exact (@orbit_iter_userData R Ideal 100 o u Hu)|].
    rewrite (@orbit_iter_position R Ideal 99 o u Hu), Hangle.
    split; [reflexivity|].
    unfold on_orbit_position. cbn [angle orbitalRadius set_angle Ideal Math_cos Math_sin
      num_mul lit]. rewrite Hr. cbn [Ideal lit]. rewrite !Real_literal_integer. reflexivity.
  - intros cos sin acos o u Hu Hr Hs Ha.
    assert (Hangle : Nat.iter 100 (λ a, @num_add float (Float64 cos sin acos) a (speed u))
                       (angle u) = binary64_angle_100).
    { rewrite Hs, Ha. vm_compute. reflexivity. }
    eexists. split; [exact (@orbit_iter_userData float (Float64 cos sin acos) 100 o u Hu)|].
    rewrite (@orbit_iter_position float (Float64 cos sin acos) 99 o u Hu), Hangle.
    split; [reflexivity|]. split; [vm_compute; reflexivity|].
    unfold on_orbit_position. cbn [angle orbitalRadius set_angle Float64 Math_cos Math_sin
      num_mul lit]. rewrite Hr. reflexivity.
  - assert (Hgap : (Rabs (F64.to_R binary64_angle_100 - 1) <= / 10 ^ 15)%R).
    { rewrite binary64_angle_100_value. rewrite Rabs_right; simpl; lra. }
    split; [exact Hgap|].
    pose proof (cos_lipschitz (F64.to_R binary64_angle_100) 1) as Hcos.
    pose proof (sin_lipschitz (F64.to_R binary64_angle_100) 1) as Hsin.
    assert (Hscale : ∀ x y : R, (Rabs (x - y) <= / 10 ^ 15 →
                                 Rabs (x * 150 - y * 150) <= / 10 ^ 12)%R).
    { intros x y Hxy. replace (x * 150 - y * 150)%R with ((x - y) * 150)%R by lra.
      rewrite Rabs_mult, (Rabs_right 150) by lra. simpl in *. lra. }
    split; apply Hscale; lra.
Qed.

(** The Earth of [planetsData], at angle 0. *)
Definition earth_at_0 : @UserData float :=
  mkUserData "Earth" "" (F64.literal 150 0) (F64.literal 1 2) (F64.literal 0 0).

Lemma hundred_ticks_witness :
  let F := Float64 (λ x, x) (λ x, x) (λ x, x) in
  let o :=
    set_userData (Some earth_at_0)
      (@new_object float F
         (Mesh (SphereGeometry (F64.literal 15 0) 32 32) (MeshStandardMaterial 0x4cafef))) in
  ∃ u', userData (Nat.iter 100 (@PlanetScript.orbit float F) o) = Some u'
        ∧ angle u' = binary64_angle_100
        ∧ PrimFloat.leb
            (PrimFloat.abs (PrimFloat.sub (angle u') (F64.literal 1 0)))
            (Z.ldexp (F64.literal 1 0) (-50)) = true
        ∧ position (Nat.iter 100 (@PlanetScript.orbit float F) o)
          = mkVector3 (PrimFloat.mul binary64_angle_100 (F64.literal 150 0))
                      (F64.literal 0 0)
                      (PrimFloat.mul binary64_angle_100 (F64.literal 150 0)).
Proof.
  intros F o.
  apply (proj1 (proj2 hundred_ticks) (λ x, x) (λ x, x) (λ x, x) o earth_at_0);
    reflexivity.
Defined.

(** ** The star fields *)

Section Starfield.
Context {num : Type} `{!JSNumber num}.
Local Open Scope js_scope.

(** The [i]-th item of a buffer attribute of item size 3. *)
Definition point (buffer : list num) (i : nat) : option (@Vector3 num) :=
  match buffer !! (i * 3)%nat, buffer !! (i * 3 + 1)%nat, buffer !! (i * 3 + 2)%nat with
  | Some x, Some y, Some z => Some (mkVector3 x y z)
  | _, _, _ => None
  end.

(** The point a turn of the loop of planetScript.js stores when the next
    three values of [Math.random] are [rnd k], [rnd (k+1)], [rnd (k+2)]. *)
Definition solar_star (rnd : nat → num) (k : nat) : @Vector3 num :=
  let r := lit 4000 0 * rnd k in
  let theta := Math_acos (lit 2 0 * rnd (S k) - lit 1 0) in
  let phi := rnd (S (S k)) * lit 2 0 * Math_PI in
  mkVector3 (Math_fround (r * Math_sin theta * Math_cos phi))
            (Math_fround (r * Math_sin theta * Math_sin phi))
            (Math_fround (r * Math_cos theta)).


Definition store_point (i : nat) (p : @Vector3 num) (buffer : list num) : list num :=
  <[(i * 3 + 2)%nat := v_z p]> (<[(i * 3 + 1)%nat := v_y p]> (<[(i * 3)%nat := v_x p]> buffer)).

Lemma solar_star_turn i buffer rng :
  PlanetScript.star i (buffer, rng)
  = (store_point i (solar_star (entropy rng) (drawn rng)) buffer,
     mkRandom (entropy rng) (S (S (S (drawn rng))))).
Proof. reflexivity. Qed.


Lemma length_store_point i p buffer :
  length (store_point i p buffer) = length buffer.
Proof. unfold store_point. by rewrite !length_insert. Qed.

Lemma point_store_point_eq i p buffer :
  (i * 3 + 2 < length buffer)%nat → point (store_point i p buffer) i = Some p.
Proof.
  intros Hi. unfold point, store_point.
  rewrite !list_lookup_insert_ne by lia.
  rewrite list_lookup_insert_eq by lia.
  rewrite list_lookup_insert_ne by lia.
  rewrite list_lookup_insert_eq by (rewrite length_insert; lia).
  rewrite list_lookup_insert_eq by (rewrite !length_insert; lia).
  by destruct p.
Qed.

Lemma point_store_point_ne i j p buffer :
  i ≠ j → point (store_point i p buffer) j = point buffer j.
Proof.
  intros Hij. unfold point, store_point.
  by rewrite !list_lookup_insert_ne by lia.
Qed.

(** The loop, for any body that draws three numbers and stores one
    point. *)
Lemma star_loop (body : nat → list num * Random num → list num * Random num)
    (star : (nat → num) → nat → @Vector3 num) :
  (∀ i buffer rng,
     body i (buffer, rng)
     = (store_point i (star (entropy rng) (drawn rng)) buffer,
        mkRandom (entropy rng) (S (S (S (drawn rng)))))) →
  ∀ n buffer rng,
    (n * 3 ≤ length buffer)%nat →
    let result := foldl (λ st i, body i st) (buffer, rng) (seq 0 n) in
    length result.1 = length buffer
    ∧ result.2 = mkRandom (entropy rng) (drawn rng + 3 * n)
    ∧ ∀ i, (i < n)%nat →
        point result.1 i = Some (star (entropy rng) (drawn rng + 3 * i)%nat).
Proof.
  intros Hbody n buffer rng. induction n as [|n IH]; intros Hlen result.
  - subst result. cbn. split; [done|]. split; [|intros; lia].
    destruct rng. cbn. f_equal. lia.
  - subst result. rewrite seq_S, foldl_app. cbn [foldl Nat.add].
    destruct IH as (Hl & Hr & Hp); [lia|].
    destruct (foldl (λ st i, body i st) (buffer, rng) (seq 0 n)) as [buffer' rng'].
    cbn [fst snd] in *. subst rng'. rewrite Hbody. cbn [fst snd entropy drawn].
    rewrite length_store_point. split; [done|]. split; [f_equal; lia|].
    intros i Hi. destruct (decide (i = n)) as [->|Hne].
    + rewrite point_store_point_eq by lia. done.
    + rewrite point_store_point_ne by done. apply Hp. lia.
Qed.



End Starfield.

Section IdealStarfield.
Local Open Scope R_scope.





End IdealStarfield.



(** ** After the start icon was clicked *)

Section StartClicked.
Context {num : Type} `{!JSNumber num}.
Variable raycast : @Vector2 num → @Camera num → @Object3D num → list num.
Implicit Types w : World num.

(** The two listeners of the landing page that the click removes are not
    registered on the window. *)
Definition detached (w : World num) : Prop :=
  (("mousemove", Landing_onMouseMove) ∉ window_listeners w)
  ∧ (("wheel", Landing_onWheel) ∉ window_listeners w).

Definition pointer_event (ev : @Page.Event num) : Prop :=
  match ev with
  | Page.MouseMove _ _ | Page.Wheel _ => True
  | _ => False
  end.

Lemma not_elem_of_removeListener tf type f l :
  tf ∉ l → tf ∉ removeListener type f l.
Proof. unfold removeListener. rewrite list_elem_of_filter. tauto. Qed.

Lemma removeListener_removes type f l : (type, f) ∉ removeListener type f l.
Proof. unfold removeListener. rewrite list_elem_of_filter. tauto. Qed.

Lemma not_elem_of_addListener tf type f l :
  tf ≠ (type, f) → tf ∉ l → tf ∉ addListener type f l.
Proof.
  intros Hne Hl. unfold addListener. case_decide; [exact Hl|].
  rewrite elem_of_app, list_elem_of_singleton. tauto.
Qed.

Lemma detached_same w w' :
  window_listeners w' = window_listeners w → detached w → detached w'.
Proof. unfold detached. by intros ->. Qed.

Lemma iconClick_detaches w : detached (Script.iconClick w).
Proof.
  unfold detached, Script.iconClick. wsimpl. split.
  - apply not_elem_of_removeListener, removeListener_removes.
  - apply removeListener_removes.
Qed.

Lemma detached_iconClick w : detached w → detached (Script.iconClick w).
Proof. intros _. apply iconClick_detaches. Qed.

Lemma onCanvasClick_window_listeners e event w :
  window_listeners (PlanetScript.onCanvasClick raycast e event w) = window_listeners w.
Proof.
  unfold PlanetScript.onCanvasClick. cbv zeta. repeat case_match; reflexivity.
Qed.

Lemma detached_call f ev w : detached w → detached (Page.call raycast f ev w).
Proof.
  intros Hw. destruct f, ev; cbn [Page.call]; try exact Hw.
  - apply iconClick_detaches.
  - revert Hw. apply detached_same, onCanvasClick_window_listeners.
  - revert Hw. apply detached_same. unfold PlanetScript.closeClick.
    repeat case_match; reflexivity.
Qed.

Lemma detached_initSolarSystem w :
  detached w → detached (PlanetScript.initSolarSystem w).2.
Proof.
  intros Hw. destruct (initSolarSystem_activation w); cbn [snd]; [done|done|].
  unfold detached. rewrite animate_window_listeners.
  unfold with_listeners, with_env. wsimpl. destruct Hw as [Hm Hwh].
  split; repeat (apply not_elem_of_addListener; [done|]); assumption.
Qed.

Lemma detached_run_callback f w : detached w → detached (Page.run_callback f w).
Proof.
  intros Hw. destruct f; cbn [Page.run_callback].
  - revert Hw. apply detached_same. unfold Script.animate. wsimpl.
    by destruct (landing w).
  - unfold Script.onComplete.
    destruct (getElementById "solar-container" w); [|exact Hw].
    cbv zeta. wsimpl. destruct (has_initSolarSystem w); [|exact Hw].
    by apply detached_initSolarSystem.
  - revert Hw. apply detached_same, animate_window_listeners.
  - revert Hw. apply detached_same. unfold PlanetScript.hidePanel.
    repeat case_match; reflexivity.
Qed.

Lemma detached_step ev w : detached w → detached (Page.step raycast ev w).
Proof.
  apply (step_preserves raycast detached (λ _, True));
    auto using detached_call, detached_run_callback.
Qed.

Lemma detached_run evs w : detached w → detached (Page.run raycast evs w).
Proof.
  revert w. induction evs as [|ev evs IH]; intros w Hw; [exact Hw|].
  cbn [Page.run foldl]. apply IH, detached_step, Hw.
Qed.

Lemma elem_of_listenersOf type f l : f ∈ listenersOf type l ↔ (type, f) ∈ l.
Proof.
  unfold listenersOf. rewrite list_elem_of_fmap. split.
  - intros ([t g] & -> & Hin). rewrite list_elem_of_filter in Hin.
    destruct Hin as [Ht Hin]. cbn in Ht. by subst t.
  - intros Hin. exists (type, f). split; [done|].
    rewrite list_elem_of_filter. done.
Qed.

(** A listener other than the two of the landing page leaves the closure
    of the landing page alone when it receives a pointer event. *)
Lemma call_pointer_landing f ev w :
  pointer_event ev →
  (∀ x y, ev = Page.MouseMove x y → f ≠ Landing_onMouseMove) →
  (∀ d, ev = Page.Wheel d → f ≠ Landing_onWheel) →
  landing (Page.call raycast f ev w) = landing w.
Proof.
  intros Hev Hmove Hwheel.
  destruct ev as [x y|d| | | | |]; try done; destruct f; cbn [Page.call]; try done.
  - by destruct (Hmove x y).
  - by destruct (Hwheel d).
Qed.

Lemma dispatch_pointer_landing fs ev w :
  pointer_event ev →
  (∀ x y, ev = Page.MouseMove x y → Landing_onMouseMove ∉ fs) →
  (∀ d, ev = Page.Wheel d → Landing_onWheel ∉ fs) →
  landing (Page.dispatch raycast fs ev w) = landing w.
Proof.
  intros Hev. unfold Page.dispatch. revert w.
  induction fs as [|f fs IH]; intros w Hmove Hwheel; [reflexivity|].
  cbn [foldl]. rewrite IH.
  - apply call_pointer_landing; [done| |].
    + intros x y -> ->. apply (Hmove x y); [done|]. by left.
    + intros d -> ->. apply (Hwheel d); [done|]. by left.
  - intros x y Heq Hin. apply (Hmove x y Heq). by right.
  - intros d Heq Hin. apply (Hwheel d Heq). by right.
Qed.

Lemma detached_pointer_landing ev w :
  detached w → pointer_event ev →
  landing (Page.step raycast ev w) = landing w.
Proof.
  intros [Hm Hwh] Hev.
  destruct ev as [x y|d| | | | |]; try done; cbn [Page.step];
    apply dispatch_pointer_landing; try done.
  - intros ? ? _. by rewrite elem_of_listenersOf.
  - intros ? _. by rewrite elem_of_listenersOf.
Qed.

(** The click on the start icon reaches the listener of script.js. *)
Lemma click_detaches el click w :
  document w !! "icon-container" = Some el →
  ("click", Landing_iconClick) ∈ listeners el →
  detached (Page.step raycast (Page.Click "icon-container" click) w).
Proof.
  intros Hel Hin. cbn [Page.step]. rewrite Hel. clear Hel.
  apply elem_of_listenersOf in Hin. revert Hin.
  generalize (listenersOf "click" (listeners el)). intros fs Hin.
  unfold Page.dispatch. revert w.
  induction fs as [|f fs IH]; intros w; [by apply elem_of_nil in Hin|].
  apply elem_of_cons in Hin as [<-|Hin]; cbn [foldl]; [|by apply IH].
  change (Page.call raycast Landing_iconClick (Page.Click "icon-container" click) w)
    with (Script.iconClick w).
  assert (Hd := iconClick_detaches w). revert Hd.
  generalize (Script.iconClick w). clear. intros w Hw.
  induction fs as [|f fs IH] in w, Hw |- *; [exact Hw|].
  cbn [foldl]. apply IH. by apply detached_call.
Qed.

(** C10. Once a click on the start icon has reached the listener of
    script.js, the mousemove and wheel listeners of the landing page are
    off the window (the listener removes them before it starts the
    tweens) and stay off whatever happens next; so every later pointer
    move or wheel event leaves the closure of the landing page, with its
    pointer scalars [mouseX], [mouseY], [targetX], [targetY] and its
    camera, exactly as it found it. *)
Theorem pointer_ignored_after_start el click evs ev w :
  document w !! "icon-container" = Some el →
  ("click", Landing_iconClick) ∈ listeners el →
  pointer_event ev →
  let w' :=
    Page.run raycast evs (Page.step raycast (Page.Click "icon-container" click) w) in
  detached w' ∧ landing (Page.step raycast ev w') = landing w'.
Proof.
  intros Hel Hin Hev w'.
  assert (Hw' : detached w').
  { subst w'. apply detached_run. by apply (click_detaches el). }
  split; [exact Hw'|]. by apply detached_pointer_landing.
Qed.

End StartClicked.

(** ** The bodies of the scene *)

Section Bodies.
Context {num : Type} `{!JSNumber num}.
Implicit Types (w : World num) (sto : Store num) (o : @Object3D num).
Local Open Scope js_scope.

(** An object is the mesh built for an entry of [planetsData]: the
    sphere of that entry, with its name, content, radius and speed in
    [userData]. *)
Definition body_of (data : @PlanetScript.PlanetData num) (o : @Object3D num) : Prop :=
  kind o = Mesh (SphereGeometry (PlanetScript.data_size data) 32 32)
                (MeshStandardMaterial (PlanetScript.data_color data))
  ∧ ∃ u, userData o = Some u
         ∧ name u = PlanetScript.data_name data
         ∧ content u = PlanetScript.data_content data
         ∧ orbitalRadius u = PlanetScript.data_orbitalRadius data
         ∧ speed u = PlanetScript.data_speed data.

(** The addresses of a [planets] array hold, in order, the meshes of the
    entries of a table of planets. *)
Definition holds_bodies (table : list (@PlanetScript.PlanetData num))
    (sto : Store num) (planets : list nat) : Prop :=
  Forall2 (λ a data, a < next_object sto
                     ∧ ∃ o, objects sto !! a = Some o ∧ body_of data o)
          planets table.

Definition all_on_orbit (sto : Store num) (planets : list nat) : Prop :=
  ∀ a o, a ∈ planets → objects sto !! a = Some o → on_orbit o.

(** A change of the store that keeps every object there was, as the body
    it was and on its orbit if it was. *)
Definition gentle (sto sto' : Store num) : Prop :=
  next_object sto ≤ next_object sto'
  ∧ ∀ a o, a < next_object sto → objects sto !! a = Some o →
      ∃ o', objects sto' !! a = Some o'
            ∧ (∀ data, body_of data o → body_of data o')
            ∧ (on_orbit o → on_orbit o').

Lemma gentle_refl sto : gentle sto sto.
Proof. split; [done|]. intros a o _ Ho. exists o. auto. Qed.

Lemma gentle_trans sto1 sto2 sto3 :
  gentle sto1 sto2 → gentle sto2 sto3 → gentle sto1 sto3.
Proof.
  intros [Hn1 H1] [Hn2 H2]. split; [lia|].
  intros a o Ha Ho.
  destruct (H1 a o Ha Ho) as (o' & Ho' & Hb' & Hon').
  destruct (H2 a o' ltac:(lia) Ho') as (o'' & Ho'' & Hb'' & Hon'').
  exists o''. auto.
Qed.

Lemma gentle_scene_add o sto : gentle sto (scene_add o sto).2.
Proof.
  split; [cbn; lia|]. intros a o' Ha Ho'. exists o'. cbn.
  rewrite lookup_insert_ne by lia. auto.
Qed.

Lemma gentle_update_object a f sto :
  (∀ data o, body_of data o → body_of data (f o)) →
  (∀ o, on_orbit o → on_orbit (f o)) →
  gentle sto (update_object a f sto).
Proof.
  intros Hb Hon. split; [done|]. intros a' o _ Ho. cbn.
  destruct (decide (a = a')) as [->|Hne].
  - exists (f o). rewrite lookup_alter_eq, Ho. auto.
  - exists o. rewrite lookup_alter_ne by done. auto.
Qed.

Lemma body_of_orbit data o : body_of data o → body_of data (PlanetScript.orbit o).
Proof.
  intros [Hk (u & Hu & Hfields)]. split; [by rewrite orbit_kind|].
  exists (set_angle (angle u + speed u) u). split; [by apply orbit_userData|].
  exact Hfields.
Qed.

Lemma body_of_spin data o : body_of data o → body_of data (Script.spin o).
Proof. intros Hb. exact Hb. Qed.

Lemma on_orbit_spin o : on_orbit o → on_orbit (Script.spin o).
Proof. intros Hon. exact Hon. Qed.

Lemma gentle_orbit a sto : gentle sto (update_object a PlanetScript.orbit sto).
Proof.
  apply gentle_update_object; [apply body_of_orbit|].
  intros o _. apply orbit_on_orbit.
Qed.

Lemma gentle_spin a sto : gentle sto (update_object a Script.spin sto).
Proof. apply gentle_update_object; [apply body_of_spin|apply on_orbit_spin]. Qed.

Definition orbit_all (planets : list nat) (sto : Store num) : Store num :=
  foldl (λ sto planet, update_object planet PlanetScript.orbit sto) sto planets.

Lemma gentle_orbit_all planets sto : gentle sto (orbit_all planets sto).
Proof.
  unfold orbit_all. revert sto.
  induction planets as [|a planets IH]; intros sto; [apply gentle_refl|].
  cbn [foldl]. eapply gentle_trans; [apply gentle_orbit|apply IH].
Qed.

(** After the loop of [animate] every address of the array holds an
    object that is on its orbit. *)
Lemma orbit_all_on_orbit planets sto : all_on_orbit (orbit_all planets sto) planets.
Proof.
  unfold orbit_all. revert sto.
  induction planets as [|a planets IH] using rev_ind; intros sto b o Hb Ho.
  { by apply elem_of_nil in Hb. }
  rewrite foldl_app in Ho. cbn [foldl update_object objects] in Ho.
  destruct (decide (a = b)) as [->|Hne].
  - rewrite lookup_alter_eq in Ho.
    destruct (objects _ !! b) as [o0|]; [|done].
    injection Ho as <-. apply orbit_on_orbit.
  - rewrite lookup_alter_ne in Ho by done.
    apply elem_of_app in Hb as [Hb|Hb]; [by apply (IH sto b)|].
    apply list_elem_of_singleton in Hb. congruence.
Qed.

Lemma holds_bodies_gentle table sto sto' planets :
  gentle sto sto' → holds_bodies table sto planets → holds_bodies table sto' planets.
Proof.
  intros [Hn Hg]. unfold holds_bodies. intros HF.
  eapply Forall2_impl; [exact HF|]. cbv beta.
  intros a data (Ha & o & Ho & Hb).
  destruct (Hg a o Ha Ho) as (o' & Ho' & Hb' & _).
  split; [lia|]. exists o'. auto.
Qed.

Lemma holds_bodies_bound table sto planets a :
  holds_bodies table sto planets → a ∈ planets →
  a < next_object sto ∧ is_Some (objects sto !! a).
Proof.
  unfold holds_bodies. intros Hb Ha.
  apply list_elem_of_lookup in Ha as [i Hi].
  destruct (Forall2_lookup_l _ _ _ _ _ Hb Hi) as (data & _ & Hlt & o & Ho & _).
  split; [done|]. by exists o.
Qed.

Lemma all_on_orbit_gentle table sto sto' planets :
  gentle sto sto' → holds_bodies table sto planets →
  all_on_orbit sto planets → all_on_orbit sto' planets.
Proof.
  intros [Hn Hg] Hb Hon a o' Ha Ho'.
  destruct (holds_bodies_bound table sto planets a Hb Ha) as [Hlt [o Ho]].
  destruct (Hg a o Hlt Ho) as (o'' & Ho'' & _ & Hon'').
  rewrite Ho' in Ho''. injection Ho'' as <-.
  apply Hon''. by apply (Hon a).
Qed.

End Bodies.

Section BuildScene.
Context {num : Type} `{!JSNumber num}.
Implicit Types (w : World num) (sto : Store num) (o : @Object3D num).
Local Open Scope js_scope.

Lemma add_planet_spec scene planets sto rng data :
  ∃ scene' ring sto' rng',
    PlanetScript.add_planet (scene, planets, sto, rng) data
    = (scene', planets ++ [next_object sto], sto', rng')
    ∧ gentle sto sto'
    ∧ next_object sto < next_object sto'
    ∧ (∃ o, objects sto' !! next_object sto = Some o ∧ body_of data o)
    ∧ objects sto' !! S (next_object sto) = Some ring
    ∧ (∃ inner outer segments m, kind ring = Mesh (RingGeometry inner outer segments) m).
Proof.
  unfold PlanetScript.add_planet. cbv zeta. cbn [Math_random scene_add].
  do 4 eexists. split; [reflexivity|]. cbn [objects next_object].
  split; [|split; [lia|split; [|split]]].
  - split; [cbn; lia|]. intros a o Ha Ho. exists o. cbn.
    rewrite !lookup_insert_ne by lia. auto.
  - eexists. rewrite lookup_insert_ne by lia. rewrite lookup_insert_eq.
    split; [reflexivity|]. split; [reflexivity|]. eexists. split; [reflexivity|].
    cbn. auto.
  - by rewrite lookup_insert_eq.
  - cbn. eauto.
Qed.

Lemma add_planets_spec table :
  ∀ scene planets sto rng done,
    holds_bodies done sto planets →
    ∃ scene' planets' sto' rng',
      foldl PlanetScript.add_planet (scene, planets, sto, rng) table
      = (scene', planets', sto', rng')
      ∧ gentle sto sto'
      ∧ holds_bodies (done ++ table) sto' planets'.
Proof.
  induction table as [|data table IH]; intros scene planets sto rng done Hdone.
  - exists scene, planets, sto, rng. rewrite app_nil_r.
    split; [reflexivity|]. split; [apply gentle_refl|exact Hdone].
  - cbn [foldl].
    destruct (add_planet_spec scene planets sto rng data)
      as (scene1 & ring & sto1 & rng1 & -> & Hg1 & Hlt & (o & Ho & Hb) & _).
    destruct (IH scene1 (planets ++ [next_object sto]) sto1 rng1 (done ++ [data]))
      as (scene2 & planets2 & sto2 & rng2 & -> & Hg2 & Hb2).
    { apply Forall2_app.
      - by apply (holds_bodies_gentle done sto).
      - repeat constructor; [done|]. by exists o. }
    exists scene2, planets2, sto2, rng2. split; [reflexivity|].
    split; [by apply (gentle_trans sto sto1)|].
    by rewrite <- app_assoc in Hb2.
Qed.

Lemma build_scene_spec sto rng scene planets sto' rng' :
  PlanetScript.build_scene sto rng = (scene, planets, sto', rng') →
  gentle sto sto' ∧ holds_bodies PlanetScript.planetsData sto' planets.
Proof.
  unfold PlanetScript.build_scene. cbv zeta. cbn [scene_add].
  destruct (PlanetScript.starfield _ _) as [sp rng1].
  match goal with
  | |- foldl _ (?scene0, _, ?sto0, _) _ = _ → _ =>
      destruct (add_planets_spec PlanetScript.planetsData scene0 [] sto0 rng1 [])
        as (scene2 & planets2 & sto2 & rng2 & -> & Hg & Hb); [constructor|]
  end.
  intros [= <- <- <- <-]. split; [|exact Hb].
  eapply gentle_trans; [|exact Hg].
  split; [cbn; lia|]. intros a o Ha Ho. exists o. cbn.
  rewrite !lookup_insert_ne by lia. auto.
Qed.

End BuildScene.

(** ** Every planet is on its orbit *)

Section Orbiting.
Context {num : Type} `{!JSNumber num}.
Variable raycast : @Vector2 num → @Camera num → @Object3D num → list num.
Implicit Types (w : World num) (sto : Store num) (o : @Object3D num).
Local Open Scope js_scope.

(** What holds of an activation between two turns of the event loop: its
    [planets] array holds the meshes of [planetsData]; once its loop has
    drawn a frame every planet is on its orbit; and its loop has drawn a
    frame if the activation completed (it found the close button). *)
Definition env_orbiting (sto : Store num) (v : Solar.Env num) : Prop :=
  holds_bodies PlanetScript.planetsData sto (Solar.planets v)
  ∧ (rendered (Solar.renderer v) ≠ 0 → all_on_orbit sto (Solar.planets v)).

Definition env_started (v : Solar.Env num) : Prop :=
  Solar.closeBtn v ≠ None → rendered (Solar.renderer v) ≠ 0.

Definition orbiting_but (starting : option nat) (w : World num) : Prop :=
  ∀ e v, solar w !! e = Some v →
    env_orbiting (store w) v ∧ (starting ≠ Some e → env_started v).

Definition orbiting (w : World num) : Prop := orbiting_but None w.

Lemma orbiting_weaken starting w : orbiting w → orbiting_but starting w.
Proof.
  intros Hw e v Hv. destruct (Hw e v Hv) as [Ho Hs]. split; [exact Ho|].
  intros _. by apply Hs.
Qed.

Lemma orbiting_but_same starting w w' :
  store w' = store w → solar w' = solar w →
  orbiting_but starting w → orbiting_but starting w'.
Proof. unfold orbiting_but. by intros -> ->. Qed.

Lemma orbiting_same w w' :
  store w' = store w → solar w' = solar w → orbiting w → orbiting w'.
Proof. apply orbiting_but_same. Qed.

Lemma env_orbiting_gentle sto sto' v :
  gentle sto sto' → env_orbiting sto v → env_orbiting sto' v.
Proof.
  intros Hg [Hb Hon]. split.
  - by apply (holds_bodies_gentle _ sto).
  - intros Hr. apply (all_on_orbit_gentle PlanetScript.planetsData sto); auto.
Qed.

Lemma orbiting_but_update_store starting g w :
  gentle (store w) (g (store w)) →
  orbiting_but starting w → orbiting_but starting (update_store g w).
Proof.
  intros Hg Hw e v Hv. wsimpl. destruct (Hw e v Hv) as [Ho Hs].
  split; [|exact Hs]. by apply (env_orbiting_gentle (store w)).
Qed.

Lemma orbiting_but_update_solar starting e f w :
  (∀ v, Solar.planets (f v) = Solar.planets v
        ∧ rendered (Solar.renderer (f v)) = rendered (Solar.renderer v)
        ∧ Solar.closeBtn (f v) = Solar.closeBtn v) →
  orbiting_but starting w → orbiting_but starting (update_solar e f w).
Proof.
  intros Hf Hw e' v' Hv'. wsimpl.
  rewrite list_lookup_alter in Hv'. case_decide as Heq.
  - subst e'. destruct (solar w !! e) as [v|] eqn:Hv; [|done].
    injection Hv' as <-. destruct (Hf v) as (Hp & Hr & Hc).
    unfold env_orbiting, env_started. rewrite Hp, Hr, Hc. by apply Hw.
  - by apply Hw.
Qed.

Lemma animate_store e w :
  store (PlanetScript.animate e w)
  = match solar w !! e with
    | Some v => orbit_all (Solar.planets v) (store w)
    | None => store w
    end.
Proof. unfold PlanetScript.animate. wsimpl. by destruct (solar w !! e). Qed.

(** The frame callback of an activation puts its planets on their orbit
    and leaves the others where they are. *)
Lemma animate_orbiting e w : orbiting_but (Some e) w → orbiting (PlanetScript.animate e w).
Proof.
  intros Hw e' v' Hv'. rewrite animate_solar in Hv'. rewrite animate_store.
  rewrite list_lookup_alter in Hv'. case_decide as Heq.
  - subst e'. destruct (solar w !! e) as [v|] eqn:Hv; [|done].
    injection Hv' as <-. destruct (Hw e v Hv) as [[Hb Hon] _].
    split; [split|].
    + apply (holds_bodies_gentle _ (store w)); [apply gentle_orbit_all|exact Hb].
    + intros _. apply orbit_all_on_orbit.
    + intros _ _. done.
  - destruct (Hw e' v' Hv') as [Ho Hs]. split.
    + destruct (solar w !! e) as [v|]; [|exact Ho].
      apply (env_orbiting_gentle (store w)); [apply gentle_orbit_all|exact Ho].
    + intros _. apply Hs. congruence.
Qed.

Lemma onCanvasClick_store e event w :
  store (PlanetScript.onCanvasClick raycast e event w) = store w.
Proof.
  unfold PlanetScript.onCanvasClick. cbv zeta. repeat case_match; reflexivity.
Qed.

Lemma orbiting_call f ev w : orbiting w → orbiting (Page.call raycast f ev w).
Proof.
  intros Hw. destruct f, ev; cbn [Page.call]; try exact Hw.
  - destruct (onCanvasClick_solar raycast e event w) as (mouse & Hs).
    apply (orbiting_same
             (update_solar e
                (λ v, Solar.set_raycaster (Some (mouse, Solar.camera v))
                        (Solar.set_mouse mouse v)) w)).
    + exact (onCanvasClick_store e event w).
    + rewrite Hs. reflexivity.
    + apply (orbiting_but_update_solar None); [by intros v|exact Hw].
  - revert Hw. apply orbiting_same; unfold PlanetScript.closeClick;
      repeat case_match; reflexivity.
  - unfold PlanetScript.onWheel.
    apply (orbiting_but_update_solar None); [by intros v|exact Hw].
  - unfold PlanetScript.onResize.
    apply (orbiting_but_update_solar None); [by intros v|exact Hw].
  - unfold PlanetScript.onMouseMove.
    apply (orbiting_but_update_solar None); [by intros v|exact Hw].
Qed.

Lemma orbiting_but_snoc w v sto rng :
  gentle (store w) sto →
  env_orbiting sto v →
  orbiting w →
  orbiting_but (Some (length (solar w)))
    (set_solar (solar w ++ [v]) (set_random rng (set_store sto w))).
Proof.
  intros Hg Hv Hw e v' Hv'. wsimpl.
  apply lookup_snoc_Some in Hv' as [[Hlt Hv']|[-> ->]].
  - destruct (Hw e v' Hv') as [Ho Hs]. split.
    + by apply (env_orbiting_gentle (store w)).
    + intros _. by apply Hs.
  - split; [exact Hv|]. intros Hne. by destruct Hne.
Qed.

Lemma orbiting_initSolarSystem w :
  orbiting w → orbiting (PlanetScript.initSolarSystem w).2.
Proof.
  intros Hw.
  destruct (initSolarSystem_activation w)
    as [Hguard|c scene planets sto rng Hc Hflag Hbuild Hclose
              |c scene planets sto rng Hc Hflag Hbuild Hclose]; cbn [snd].
  - exact Hw.
  - destruct (build_scene_spec _ _ _ _ _ _ Hbuild) as [Hg Hb].
    assert (Hnew : env_orbiting sto (new_env w scene planets)).
    { split; [exact Hb|]. intros Hr. by destruct Hr. }
    pose proof (orbiting_but_snoc w _ sto rng Hg Hnew Hw) as Hsnoc.
    intros e v Hv. destruct (Hsnoc e v Hv) as [Ho Hs]. split; [exact Ho|].
    intros _. unfold with_env in Hv. wsimpl.
    apply lookup_snoc_Some in Hv as [[Hlt Hv]|[He Hveq]].
    + apply Hs. intros [= Heq]. lia.
    + intros Hbtn. destruct Hbtn. subst v. cbn [new_env Solar.closeBtn].
      rewrite getElementById_flagged. unfold getElementById. by rewrite Hclose.
  - destruct (build_scene_spec _ _ _ _ _ _ Hbuild) as [Hg Hb].
    assert (Hnew : env_orbiting sto (new_env w scene planets)).
    { split; [exact Hb|]. intros Hr. by destruct Hr. }
    pose proof (orbiting_but_snoc w _ sto rng Hg Hnew Hw) as Hsnoc.
    apply animate_orbiting. revert Hsnoc. apply orbiting_but_same; reflexivity.
Qed.

Lemma orbiting_landing_animate w : orbiting w → orbiting (Script.animate w).
Proof.
  intros Hw. unfold Script.animate. cbv zeta.
  destruct (landing (requestAnimationFrame Landing_animate w)) as [v|].
  - apply (orbiting_same (update_store (update_object (Landing.stars v) Script.spin) w));
      [reflexivity|reflexivity|].
    apply orbiting_but_update_store; [apply gentle_spin|exact Hw].
  - revert Hw. apply orbiting_same; reflexivity.
Qed.

Lemma orbiting_run_callback f w : orbiting w → orbiting (Page.run_callback f w).
Proof.
  intros Hw. destruct f; cbn [Page.run_callback].
  - by apply orbiting_landing_animate.
  - unfold Script.onComplete.
    destruct (getElementById "solar-container" w); [|exact Hw].
    cbv zeta. wsimpl. destruct (has_initSolarSystem w); [|exact Hw].
    apply orbiting_initSolarSystem. exact Hw.
  - apply animate_orbiting. by apply orbiting_weaken.
  - revert Hw. apply orbiting_same; unfold PlanetScript.hidePanel;
      repeat case_match; reflexivity.
Qed.

Lemma orbiting_loaded markup width height ratio planetScript random :
  orbiting (Page.loaded markup width height ratio planetScript random).
Proof.
  unfold Page.loaded.
  assert (Hsolar : solar (Page.page markup width height ratio planetScript random) = [])
    by reflexivity.
  revert Hsolar. generalize (Page.page markup width height ratio planetScript random).
  intros w Hsolar.
  assert (Hw : ∀ sp rng, orbiting (Script.animate (with_landing w sp rng))).
  { intros sp rng. apply orbiting_landing_animate.
    intros e v. unfold with_landing. wsimpl. rewrite Hsolar. done. }
  destruct (onDOMContentLoaded_booted w); cbn [snd]; [apply Hw|].
  generalize (Hw sp rng). generalize (Script.animate (with_landing w sp rng)).
  intros w'. apply orbiting_same; reflexivity.
Qed.

Lemma orbiting_reachable w : Page.reachable raycast w → orbiting w.
Proof.
  apply reachable_by_invariant.
  - apply orbiting_loaded.
  - apply step_preserves; auto using orbiting_call, orbiting_run_callback.
Qed.

End Orbiting.

Section OnOrbit.
Context {num : Type} `{!JSNumber num}.
Variable raycast : @Vector2 num → @Camera num → @Object3D num → list num.
Local Open Scope js_scope.

(** C1. In every world the page can reach, for every activation of the
    solar system whose loop has drawn a frame (that is, after every tick,
    and between ticks whatever other events arrive), every address of its
    [planets] array holds a body whose stored position is
    (cos(angle) * orbitalRadius, 0, sin(angle) * orbitalRadius) for the
    angle and the radius its own [userData] holds at that moment. And the
    loop of every activation that found its close button has drawn a
    frame: [initSolarSystem] ends with the first tick. *)
Theorem planets_on_orbit (w : World num) e v :
  Page.reachable raycast w →
  solar w !! e = Some v →
  (Solar.closeBtn v ≠ None → rendered (Solar.renderer v) ≠ 0)
  ∧ (rendered (Solar.renderer v) ≠ 0 →
     ∀ a, a ∈ Solar.planets v →
       ∃ o u, objects (store w) !! a = Some o
              ∧ userData o = Some u
              ∧ position o
                = mkVector3 (Math_cos (angle u) * orbitalRadius u) (lit 0 0)
                            (Math_sin (angle u) * orbitalRadius u)).
Proof.
  intros Hw Hv.
  destruct (orbiting_reachable raycast w Hw e v Hv) as [[Hb Hon] Hs].
  split; [by apply Hs|].
  intros Hr a Ha.
  apply list_elem_of_lookup in Ha as [i Hi].
  destruct (Forall2_lookup_l _ _ _ _ _ Hb Hi)
    as (data & _ & _ & o & Ho & _ & u & Hu & _).
  exists o, u. split; [exact Ho|]. split; [exact Hu|].
  apply (Hon Hr a o); [by apply list_elem_of_lookup_2 with i|exact Ho|exact Hu].
Qed.

End OnOrbit.

(** A page with every element the two scripts look up. *)
Definition full_markup : gmap string Element :=
  list_to_map
    [("universe", mkElement ∅ [] "" []);
     ("icon-container", mkElement ∅ [] "" []);
     ("intro-overlay", mkElement ∅ [] "" []);
     ("solar-container", mkElement ∅ ["hidden"] "" []);
     ("solar-scene", mkElement ∅ [] "" []);
     ("info-panel", mkElement ∅ ["hidden"] "" []);
     ("close-info", mkElement ∅ [] "" []);
     ("planet-title", mkElement ∅ [] "" []);
     ("planet-content", mkElement ∅ [] "" [])].

(** binary64 with stand-ins for the three functions the standard leaves
    to the implementation. *)
Definition F64_plain : JSNumber float := Float64 (λ x, x) (λ x, x) (λ x, x).

(** The loaded page, in binary64, with a fixed screen and a fixed supply
    of random numbers; no ray ever hits. *)
Definition sample_page : World float :=
  @Page.loaded float F64_plain full_markup
    (F64.literal 1920 0) (F64.literal 1080 0) (F64.literal 1 0) true
    (λ n, PrimFloat.div (F64.of_Z (Z.of_nat n mod 7)) (F64.of_Z 8)).

Definition no_hit : @Vector2 float → @Camera float → @Object3D float → list float :=
  λ _ _ _, [].

(** The start icon is clicked, the two tweens end, three frames pass. *)
Definition sample_visit : list (@Page.Event float) :=
  [Page.Click "icon-container"
     (PlanetScript.mkClickData PrimFloat.zero PrimFloat.zero PrimFloat.zero
        PrimFloat.zero PrimFloat.one PrimFloat.one);
   Page.TweenCompletes 0; Page.TweenCompletes 0;
   Page.AnimationFrame; Page.AnimationFrame; Page.AnimationFrame].

Lemma planets_on_orbit_witness :
  ∃ o u,
    objects (store (@Page.run float F64_plain no_hit sample_visit sample_page)) !! 5
    = Some o
    ∧ userData o = Some u
    ∧ position o
      = mkVector3 (PrimFloat.mul (angle u) (orbitalRadius u)) (F64.literal 0 0)
                  (PrimFloat.mul (angle u) (orbitalRadius u)).
Proof.
  assert (Hv : ∃ v,
    solar (@Page.run float F64_plain no_hit sample_visit sample_page) !! 0 = Some v
    ∧ rendered (Solar.renderer v) ≠ 0 ∧ 5 ∈ Solar.planets v).
  { eexists. split; [vm_compute; reflexivity|]. split; [cbn; discriminate|].
    cbn. auto 10 using list_elem_of_here, list_elem_of_further. }
  destruct Hv as (v & Hv & Hr & Ha).
  refine (proj2 (@planets_on_orbit float F64_plain no_hit
                   (@Page.run float F64_plain no_hit sample_visit sample_page) 0 v _ Hv)
            Hr 5 Ha).
  apply reachable_by_run; [repeat constructor|constructor].
Defined.

Lemma pointer_ignored_after_start_witness :
  let click :=
    PlanetScript.mkClickData PrimFloat.zero PrimFloat.zero PrimFloat.zero
      PrimFloat.zero PrimFloat.one PrimFloat.one in
  let w' :=
    @Page.run float F64_plain no_hit [Page.TweenCompletes 0; Page.AnimationFrame]
      (@Page.step float F64_plain no_hit (Page.Click "icon-container" click) sample_page) in
  detached w'
  ∧ landing (@Page.step float F64_plain no_hit (Page.Wheel (F64.literal 1000 0)) w')
    = landing w'.
Proof.
  intros click w'.
  assert (Hel : ∃ el, document sample_page !! "icon-container" = Some el
                      ∧ ("click", Landing_iconClick) ∈ listeners el).
  { eexists. split; [vm_compute; reflexivity|]. cbn. apply list_elem_of_here. }
  destruct Hel as (el & Hel & Hin).
  exact (@pointer_ignored_after_start float F64_plain no_hit el click
           [Page.TweenCompletes 0; Page.AnimationFrame]
           (Page.Wheel (F64.literal 1000 0)) sample_page Hel Hin I).
Defined.

(** Before the click the two listeners are in place, and a wheel event
    does move the camera of the landing page. *)
Example wheel_before_start :
  Landing.camera <$>
    landing (@Page.step float F64_plain no_hit (Page.Wheel (F64.literal 1000 0)) sample_page)
  ≠ Landing.camera <$> landing sample_page.
Proof. vm_compute. discriminate. Qed.

(** ** Picking *)

Section Hits.
Context {num : Type} `{!JSNumber num}.
Variable raycast : @Vector2 num → @Camera num → @Object3D num → list num.
Local Open Scope js_scope.




End Hits.

Section IdealHits.
Local Open Scope R_scope.






End IdealHits.

(** ** The panel *)

Section Panel.
Context {num : Type} `{!JSNumber num}.
Variable raycast : @Vector2 num → @Camera num → @Object3D num → list num.
Implicit Types (w : World num) (doc : gmap string Element).
Local Open Scope js_scope.

(** A reference held by a closure is [null] or the element of the given
    id, which is in the document. *)
Definition refers (id : string) (doc : gmap string Element) (r : option string) : Prop :=
  ∀ x, r = Some x → x = id ∧ is_Some (doc !! id).

Definition env_panel (doc : gmap string Element) (v : Solar.Env num) : Prop :=
  refers "planet-title" doc (Solar.titleEl v)
  ∧ refers "planet-content" doc (Solar.contentEl v)
  ∧ refers "info-panel" doc (Solar.infoPanel v).

Definition panel_bound (w : World num) : Prop :=
  Forall (env_panel (document w)) (solar w).

(** No element leaves the document. *)
Definition keeps_elements (doc doc' : gmap string Element) : Prop :=
  ∀ k, is_Some (doc !! k) → is_Some (doc' !! k).

Lemma keeps_elements_refl doc : keeps_elements doc doc.
Proof. by intros k. Qed.

Lemma keeps_elements_alter f id doc doc' :
  keeps_elements doc doc' → keeps_elements doc (alter f id doc').
Proof. intros Hk k Hd. rewrite lookup_alter_is_Some. by apply Hk. Qed.

Lemma env_panel_keeps doc doc' v :
  keeps_elements doc doc' → env_panel doc v → env_panel doc' v.
Proof.
  assert (Href : ∀ id r, keeps_elements doc doc' → refers id doc r → refers id doc' r).
  { intros id r Hk Hr x Hx. destruct (Hr x Hx). auto. }
  intros Hk (Ht & Hc & Hp). split; [|split]; by apply Href.
Qed.

Lemma panel_bound_same w w' :
  keeps_elements (document w) (document w') → solar w' = solar w →
  panel_bound w → panel_bound w'.
Proof.
  unfold panel_bound. intros Hk -> Hw. eapply Forall_impl; [exact Hw|].
  intros v. by apply env_panel_keeps.
Qed.

Lemma panel_bound_update_solar e f w w' :
  (∀ v, Solar.titleEl (f v) = Solar.titleEl v
        ∧ Solar.contentEl (f v) = Solar.contentEl v
        ∧ Solar.infoPanel (f v) = Solar.infoPanel v) →
  keeps_elements (document w) (document w') → solar w' = alter f e (solar w) →
  panel_bound w → panel_bound w'.
Proof.
  unfold panel_bound. intros Hf Hk -> Hw.
  apply Forall_alter.
  - eapply Forall_impl; [exact Hw|]. intros v. by apply env_panel_keeps.
  - intros v _ Hv. destruct (Hf v) as (Ht & Hc & Hp).
    destruct Hv as (H1 & H2 & H3).
    unfold env_panel. rewrite Ht, Hc, Hp. auto.
Qed.

Lemma onCanvasClick_keeps e event w :
  keeps_elements (document w)
    (document (PlanetScript.onCanvasClick raycast e event w)).
Proof.
  unfold PlanetScript.onCanvasClick. cbv zeta.
  repeat case_match; wsimpl;
    repeat apply keeps_elements_alter; apply keeps_elements_refl.
Qed.

Lemma panel_bound_call f ev w : panel_bound w → panel_bound (Page.call raycast f ev w).
Proof.
  intros Hw. destruct f, ev; cbn [Page.call]; try exact Hw.
  - destruct (onCanvasClick_solar raycast e event w) as (mouse & Hs).
    revert Hw. eapply panel_bound_update_solar; [|apply onCanvasClick_keeps|exact Hs].
    by intros v.
  - revert Hw. unfold PlanetScript.closeClick.
    repeat case_match; try done; apply panel_bound_same; wsimpl;
      try reflexivity; apply keeps_elements_alter, keeps_elements_refl.
  - revert Hw. eapply panel_bound_update_solar;
      [|apply keeps_elements_refl|reflexivity]. by intros v.
  - revert Hw. eapply panel_bound_update_solar;
      [|apply keeps_elements_refl|reflexivity]. by intros v.
  - revert Hw. eapply panel_bound_update_solar;
      [|apply keeps_elements_refl|reflexivity]. by intros v.
Qed.

Lemma refers_getElementById id w doc' :
  keeps_elements (document w) doc' → refers id doc' (getElementById id w).
Proof.
  intros Hk x Hx. apply getElementById_Some in Hx as [-> Hsome]. auto.
Qed.

Lemma panel_bound_with_env w scene planets sto rng :
  panel_bound w → panel_bound (with_env w scene planets sto rng).
Proof.
  intros Hw. unfold panel_bound, with_env, flagged. wsimpl.
  assert (Hk : keeps_elements (document w)
    (alter (λ el, set_listeners
              (addListener "click" (Solar_onCanvasClick (length (solar w))) (listeners el)) el)
       "solar-scene"
       (alter (λ el, set_dataset (<["initialised":="true"]> (dataset el)) el)
          "solar-scene" (document w)))).
  { do 2 apply keeps_elements_alter. apply keeps_elements_refl. }
  apply Forall_app. split.
  - eapply Forall_impl; [exact Hw|]. intros v. by apply env_panel_keeps.
  - apply Forall_singleton.
    split; [|split]; cbn [new_env Solar.titleEl Solar.contentEl Solar.infoPanel];
      rewrite getElementById_flagged; by apply refers_getElementById.
Qed.

Lemma panel_bound_animate e w : panel_bound w → panel_bound (PlanetScript.animate e w).
Proof.
  apply (panel_bound_update_solar e animate_env).
  - by intros v.
  - rewrite animate_document. apply keeps_elements_refl.
  - apply animate_solar.
Qed.

Lemma panel_bound_initSolarSystem w :
  panel_bound w → panel_bound (PlanetScript.initSolarSystem w).2.
Proof.
  intros Hw.
  destruct (initSolarSystem_activation w)
    as [Hguard|c scene planets sto rng Hc Hflag Hbuild Hclose
              |c scene planets sto rng Hc Hflag Hbuild Hclose]; cbn [snd].
  - exact Hw.
  - by apply panel_bound_with_env.
  - apply panel_bound_animate.
    apply (panel_bound_same (with_env w scene planets sto rng)).
    + unfold with_listeners. wsimpl. apply keeps_elements_alter, keeps_elements_refl.
    + reflexivity.
    + by apply panel_bound_with_env.
Qed.

Lemma panel_bound_run_callback f w : panel_bound w → panel_bound (Page.run_callback f w).
Proof.
  intros Hw. destruct f; cbn [Page.run_callback].
  - revert Hw. unfold Script.animate. cbv zeta.
    destruct (landing (requestAnimationFrame Landing_animate w));
      apply panel_bound_same; try reflexivity; apply keeps_elements_refl.
  - unfold Script.onComplete.
    destruct (getElementById "solar-container" w) as [container|]; [|exact Hw].
    cbv zeta. wsimpl.
    assert (Hw' : panel_bound
      (update_element container
         (λ el, set_classList (classList_remove "hidden" (classList el)) el) w)).
    { revert Hw. apply panel_bound_same; [|reflexivity].
      wsimpl. apply keeps_elements_alter, keeps_elements_refl. }
    destruct (has_initSolarSystem w); [|exact Hw'].
    by apply panel_bound_initSolarSystem.
  - by apply panel_bound_animate.
  - revert Hw. unfold PlanetScript.hidePanel.
    repeat case_match; try done; apply panel_bound_same; wsimpl;
      try reflexivity; apply keeps_elements_alter, keeps_elements_refl.
Qed.

Lemma panel_bound_loaded markup width height ratio planetScript random :
  panel_bound (Page.loaded markup width height ratio planetScript random).
Proof.
  unfold Page.loaded.
  assert (Hsolar : solar (Page.page markup width height ratio planetScript random) = [])
    by reflexivity.
  revert Hsolar. generalize (Page.page markup width height ratio planetScript random).
  intros w Hsolar.
  assert (Hw : ∀ w', solar w' = solar w → panel_bound w').
  { intros w' Hw'. unfold panel_bound. rewrite Hw', Hsolar. constructor. }
  destruct (onDOMContentLoaded_booted w); cbn [snd]; apply Hw.
  - unfold Script.animate, with_landing. cbv zeta. wsimpl. reflexivity.
  - unfold Script.animate, with_landing. cbv zeta. wsimpl. reflexivity.
Qed.

Lemma panel_bound_reachable w : Page.reachable raycast w → panel_bound w.
Proof.
  apply reachable_by_invariant.
  - apply panel_bound_loaded.
  - apply step_preserves; auto using panel_bound_call, panel_bound_run_callback.
Qed.

End Panel.

Section Click.
Context {num : Type} `{!JSNumber num}.
Variable raycast : @Vector2 num → @Camera num → @Object3D num → list num.
Implicit Types (w : World num) (doc : gmap string Element).
Local Open Scope js_scope.

(** The pointer of a click in normalised device coordinates, as
    [onCanvasClick] computes it. *)
Definition pointer (event : @PlanetScript.ClickData num) : @Vector2 num :=
  mkVector2
    ((PlanetScript.clientX event - PlanetScript.rect_left event)
       / PlanetScript.rect_width event * lit 2 0 - lit 1 0)
    (- ((PlanetScript.clientY event - PlanetScript.rect_top event)
          / PlanetScript.rect_height event) * lit 2 0 + lit 1 0).

(** The array [onCanvasClick] gets from the raycaster. *)
Definition picked (event : @PlanetScript.ClickData num) (w : World num)
    (v : Solar.Env num) : list (@Intersection num) :=
  intersectObjects raycast (pointer event) (Solar.camera v) (objects (store w))
    (Solar.planets v).


Lemma onCanvasClick_hit e event w v t c p hit rest :
  solar w !! e = Some v →
  Solar.titleEl v = Some t → Solar.contentEl v = Some c → Solar.infoPanel v = Some p →
  picked event w v = hit :: rest →
  document (PlanetScript.onCanvasClick raycast e event w)
  = alter (λ el, set_classList (classList_add "show" (classList el)) el) p
      (alter (λ el, set_classList (classList_remove "hidden" (classList el)) el) p
         (alter (set_textContent
                   (from_option content "" (objects (store w) !! object hit ≫= userData))) c
            (alter (set_textContent
                      (from_option name "" (objects (store w) !! object hit ≫= userData))) t
               (document w)))).
Proof.
  intros Hv Ht Hc Hp Hhit. unfold PlanetScript.onCanvasClick. rewrite Hv. cbv zeta.
  unfold picked, pointer in Hhit. wsimpl. rewrite Hhit, Ht, Hc, Hp. reflexivity.
Qed.

Lemma elem_of_classList_add token l : token ∈ classList_add token l.
Proof.
  unfold classList_add. case_decide; [done|].
  apply elem_of_app. right. by apply list_elem_of_singleton.
Qed.

Lemma not_elem_of_classList_add token other l :
  token ≠ other → token ∉ l → token ∉ classList_add other l.
Proof.
  intros Hne Hl. unfold classList_add. case_decide; [done|].
  rewrite elem_of_app, list_elem_of_singleton. tauto.
Qed.

Lemma not_elem_of_classList_remove token l : token ∉ classList_remove token l.
Proof. unfold classList_remove. rewrite list_elem_of_filter. tauto. Qed.



End Click.


(** A ray that meets every sphere, at the distance of its radius. *)
Definition radius_hit : @Vector2 float → @Camera float → @Object3D float → list float :=
  λ _ _ o,
    match kind o with
    | Mesh (SphereGeometry radius _ _) _ => [radius]
    | _ => []
    end.

Definition centre_click : @PlanetScript.ClickData float :=
  PlanetScript.mkClickData (F64.literal 960 0) (F64.literal 540 0)
    PrimFloat.zero PrimFloat.zero (F64.literal 1920 0) (F64.literal 1080 0).


(** On the sample page that click shows Venus, the smallest sphere. *)
Example click_shows_venus :
  textContent <$>
    document (@Page.run float F64_plain radius_hit
                (sample_visit ++ [Page.Click "solar-scene" centre_click]) sample_page)
      !! "planet-title"
  = Some "Venus".
Proof. vm_compute. reflexivity. Qed.

(** ** Every listener is registered for its own type of event *)

Section Discipline.
Context {num : Type} `{!JSNumber num}.
Variable raycast : @Vector2 num → @Camera num → @Object3D num → list num.
Implicit Types (w : World num) (doc : gmap string Element).

(** The type of event each closure is written for. *)
Definition listener_type (f : Listener) : string :=
  match f with
  | Landing_onMouseMove | Solar_onMouseMove _ => "mousemove"
  | Landing_onWheel | Solar_onWheel _ => "wheel"
  | Landing_onResize | Solar_onResize _ => "resize"
  | Landing_iconClick | Solar_onCanvasClick _ | Solar_closeClick _ => "click"
  end.

Definition typed (l : list (string * Listener)) : Prop :=
  ∀ type f, (type, f) ∈ l → type = listener_type f.

Definition disciplined (w : World num) : Prop :=
  typed (window_listeners w)
  ∧ ∀ id el, document w !! id = Some el → typed (listeners el).

(** The pairs of a listener and an event for which [Page.call] runs a
    function of the scripts. *)
Definition handled (f : Listener) (ev : @Page.Event num) : Prop :=
  match f, ev with
  | Landing_onMouseMove, Page.MouseMove _ _
  | Landing_onWheel, Page.Wheel _
  | Landing_onResize, Page.Resize _ _
  | Landing_iconClick, Page.Click _ _
  | Solar_onCanvasClick _, Page.Click _ _
  | Solar_closeClick _, Page.Click _ _
  | Solar_onWheel _, Page.Wheel _
  | Solar_onResize _, Page.Resize _ _
  | Solar_onMouseMove _, Page.MouseMove _ _ => True
  | _, _ => False
  end.

Lemma typed_addListener type f l :
  type = listener_type f → typed l → typed (addListener type f l).
Proof.
  intros -> Hl. unfold addListener. case_decide; [exact Hl|].
  intros t g Hin. apply elem_of_app in Hin as [Hin|Hin]; [by apply Hl|].
  apply list_elem_of_singleton in Hin. by injection Hin as -> ->.
Qed.

Lemma typed_removeListener type f l : typed l → typed (removeListener type f l).
Proof.
  intros Hl t g Hin. unfold removeListener in Hin.
  apply list_elem_of_filter in Hin as [_ Hin]. by apply Hl.
Qed.

Lemma disciplined_same w w' :
  window_listeners w' = window_listeners w → document w' = document w →
  disciplined w → disciplined w'.
Proof. unfold disciplined. by intros -> ->. Qed.

Lemma disciplined_update_element id g w :
  (∀ el, typed (listeners el) → typed (listeners (g el))) →
  disciplined w → disciplined (update_element id g w).
Proof.
  intros Hg [Hwin Hdoc]. split; [exact Hwin|]. wsimpl.
  intros id' el' Hel'. apply lookup_alter_Some in Hel' as [(-> & el & Hel & ->)|[_ Hel']].
  - apply Hg. by apply (Hdoc id').
  - by apply (Hdoc id').
Qed.

Lemma disciplined_window_add type f w :
  type = listener_type f → disciplined w →
  disciplined (window_addEventListener type f w).
Proof.
  intros Ht [Hwin Hdoc]. split; [|exact Hdoc]. wsimpl. by apply typed_addListener.
Qed.

Lemma disciplined_element_add id type f w :
  type = listener_type f → disciplined w →
  disciplined (element_addEventListener id type f w).
Proof.
  intros Ht. apply disciplined_update_element. intros el. by apply typed_addListener.
Qed.

Lemma disciplined_onCanvasClick e event w :
  disciplined w → disciplined (PlanetScript.onCanvasClick raycast e event w).
Proof.
  intros Hw. unfold PlanetScript.onCanvasClick. cbv zeta.
  assert (Hw1 : ∀ f, disciplined (update_solar e f w)).
  { intros f. revert Hw. apply disciplined_same; reflexivity. }
  repeat case_match; try done;
    repeat (apply disciplined_update_element; [by intros el|]); apply Hw1.
Qed.

Lemma disciplined_call f ev w : disciplined w → disciplined (Page.call raycast f ev w).
Proof.
  intros Hw. destruct f, ev; cbn [Page.call]; try exact Hw.
  - destruct Hw as [Hwin Hdoc]. split; [|exact Hdoc].
    unfold Script.iconClick. wsimpl. by do 2 apply typed_removeListener.
  - by apply disciplined_onCanvasClick.
  - unfold PlanetScript.closeClick. repeat case_match; try done.
    apply (disciplined_same
             (update_element s
                (λ el, set_classList (classList_remove "show" (classList el)) el) w));
      [reflexivity|reflexivity|].
    apply disciplined_update_element; [by intros el|exact Hw].
Qed.

Lemma disciplined_animate e w : disciplined w → disciplined (PlanetScript.animate e w).
Proof.
  apply disciplined_same; [apply animate_window_listeners|apply animate_document].
Qed.

Lemma disciplined_initSolarSystem w :
  disciplined w → disciplined (PlanetScript.initSolarSystem w).2.
Proof.
  intros Hw.
  assert (Henv : ∀ scene planets sto rng, disciplined (with_env w scene planets sto rng)).
  { intros. unfold with_env. apply disciplined_element_add; [done|].
    apply (disciplined_same (flagged w)); [reflexivity|reflexivity|].
    unfold flagged. apply disciplined_update_element; [by intros el|exact Hw]. }
  destruct (initSolarSystem_activation w); cbn [snd]; auto.
  apply disciplined_animate. unfold with_listeners.
  repeat (apply disciplined_window_add; [done|]).
  apply disciplined_element_add; [done|]. apply Henv.
Qed.

Lemma disciplined_landing_animate w : disciplined w → disciplined (Script.animate w).
Proof.
  apply disciplined_same; unfold Script.animate; cbv zeta;
    by destruct (landing (requestAnimationFrame Landing_animate w)).
Qed.

Lemma disciplined_run_callback f w : disciplined w → disciplined (Page.run_callback f w).
Proof.
  intros Hw. destruct f; cbn [Page.run_callback].
  - by apply disciplined_landing_animate.
  - unfold Script.onComplete.
    destruct (getElementById "solar-container" w) as [container|]; [|exact Hw].
    cbv zeta.
    assert (Hw' : disciplined
      (update_element container
         (λ el, set_classList (classList_remove "hidden" (classList el)) el) w)).
    { apply disciplined_update_element; [by intros el|exact Hw]. }
    wsimpl. destruct (has_initSolarSystem w); [|exact Hw'].
    by apply disciplined_initSolarSystem.
  - by apply disciplined_animate.
  - unfold PlanetScript.hidePanel. repeat case_match; try done.
    apply disciplined_update_element; [by intros el|exact Hw].
Qed.

Lemma disciplined_loaded markup width height ratio planetScript random :
  disciplined (Page.loaded markup width height ratio planetScript random).
Proof.
  unfold Page.loaded.
  assert (Hpage : disciplined (Page.page markup width height ratio planetScript random)).
  { split.
    - intros type f Hin. by apply elem_of_nil in Hin.
    - cbn [Page.page document]. intros id el Hel.
      rewrite lookup_fmap in Hel. destruct (markup !! id); [|done].
      injection Hel as <-. intros type f Hin. by apply elem_of_nil in Hin. }
  revert Hpage. generalize (Page.page markup width height ratio planetScript random).
  intros w Hw.
  assert (Hland : ∀ sp rng, disciplined (Script.animate (with_landing w sp rng))).
  { intros sp rng. apply disciplined_landing_animate. unfold with_landing.
    repeat (apply disciplined_window_add; [done|]).
    revert Hw. apply disciplined_same; reflexivity. }
  destruct (onDOMContentLoaded_booted w); cbn [snd]; [apply Hland|].
  apply disciplined_element_add; [done|]. apply Hland.
Qed.

Lemma disciplined_reachable w : Page.reachable raycast w → disciplined w.
Proof.
  apply reachable_by_invariant.
  - apply disciplined_loaded.
  - apply step_preserves; auto using disciplined_call, disciplined_run_callback.
Qed.

(** In a reachable world an event only ever reaches listeners written
    for it: the last case of [Page.call] is never taken. *)
Lemma dispatch_handled w :
  Page.reachable raycast w →
  (∀ x y f, f ∈ listenersOf "mousemove" (window_listeners w) →
            handled f (Page.MouseMove x y))
  ∧ (∀ d f, f ∈ listenersOf "wheel" (window_listeners w) → handled f (Page.Wheel d))
  ∧ (∀ width height f, f ∈ listenersOf "resize" (window_listeners w) →
                       handled f (Page.Resize width height))
  ∧ (∀ target el event f,
       document w !! target = Some el → f ∈ listenersOf "click" (listeners el) →
       handled f (Page.Click target event)).
Proof.
  intros Hw. destruct (disciplined_reachable w Hw) as [Hwin Hdoc].
  repeat split.
  - intros x y f Hf. apply elem_of_listenersOf, Hwin in Hf. by destruct f.
  - intros d f Hf. apply elem_of_listenersOf, Hwin in Hf. by destruct f.
  - intros width height f Hf. apply elem_of_listenersOf, Hwin in Hf. by destruct f.
  - intros target el event f Hel Hf.
    apply elem_of_listenersOf, (Hdoc target el Hel) in Hf. by destruct f.
Qed.

End Discipline.

(** * The phases of the page *)

(** The page is on its landing screen with every listener in place
    ([Intro]); the start icon was clicked and the solar system has not
    been built ([Leaving]); [initSolarSystem] passed its guard and threw
    on the missing close button ([Failed]); or it completed
    ([Running]). *)
Inductive Phase := Intro | Leaving | Failed | Running.

#[global] Instance Phase_eq_dec : EqDecision Phase.
Proof. solve_decision. Defined.

Section Phases.
Context {num : Type} `{!JSNumber num}.
Variable raycast : @Vector2 num → @Camera num → @Object3D num → list num.
Implicit Types (w : World num) (v : Solar.Env num).

Definition phase (w : World num) : Phase :=
  match solar w with
  | [] =>
      if decide (("wheel", Landing_onWheel) ∈ window_listeners w) then Intro else Leaving
  | v :: _ =>
      match Solar.closeBtn v with
      | Some _ => Running
      | None => Failed
      end
  end.

(** The listeners of the window, of each element and the pending frame
    requests, by phase. *)
Definition window_table (p : Phase) : list (string * Listener) :=
  match p with
  | Intro =>
      [("mousemove", Landing_onMouseMove); ("wheel", Landing_onWheel);
       ("resize", Landing_onResize)]
  | Leaving | Failed => [("resize", Landing_onResize)]
  | Running =>
      [("resize", Landing_onResize); ("wheel", Solar_onWheel 0);
       ("resize", Solar_onResize 0); ("mousemove", Solar_onMouseMove 0)]
  end.

Definition element_table (p : Phase) (id : string) : list (string * Listener) :=
  if decide (id = "icon-container") then [("click", Landing_iconClick)]
  else if decide (id = "solar-scene") then
    match p with
    | Failed | Running => [("click", Solar_onCanvasClick 0)]
    | _ => []
    end
  else if decide (id = "close-info") then
    match p with
    | Running => [("click", Solar_closeClick 0)]
    | _ => []
    end
  else [].

Definition frame_table (p : Phase) : list Callback :=
  Landing_animate ::
  match p with
  | Running => [Solar_animate 0]
  | _ => []
  end.

(** The two tweens of the start icon's listener. *)
Definition icon_tween : Tween num :=
  mkTween "#icon-container" (lit 1 0) (Some (lit 5 1)) (lit 0 0) None.

Definition overlay_tween : Tween num :=
  mkTween "#intro-overlay" (lit 1 0) None (lit 0 0) (Some Landing_onComplete).

Definition canvas_flagged (w : World num) : Prop :=
  ∃ c, document w !! "solar-scene" = Some c
       ∧ truthy (dataset c !! "initialised") = true.

(** What holds of the page whenever a listener or a callback starts. *)
Record steady (w : World num) : Prop := mkSteady {
  steady_landing : is_Some (landing w);
  steady_window : window_listeners w = window_table (phase w);
  steady_elements :
    ∀ id el, document w !! id = Some el → listeners el = element_table (phase w) id;
  steady_timeouts : Forall (λ df, df = (lit 500 0, Solar_hidePanel 0)) (timeouts w);
  steady_tweens : Forall (λ t, t = icon_tween ∨ t = overlay_tween) (tweens w);
  steady_intro : phase w = Intro → tweens w = [] ∧ timeouts w = [];
  steady_icon : phase w ≠ Intro → is_Some (document w !! "icon-container");
  steady_single : length (solar w) ≤ 1;
  steady_solar :
    ∀ v, v ∈ solar w →
      canvas_flagged w
      ∧ Solar.closeBtn v = getElementById "close-info" w
      ∧ (Solar.closeBtn v = None → rendered (Solar.renderer v) = 0)
}.

(** What holds between two turns of the event loop. *)
Definition orderly (w : World num) : Prop :=
  steady w ∧ frame_requests w = frame_table (phase w).

(** *** What a change must keep for the page to stay as it is *)

Definition outline (w : World num)
    : gmap string (gmap string string * list (string * Listener)) :=
  (λ el, (dataset el, listeners el)) <$> document w.

Definition held (v : Solar.Env num) : option string * nat :=
  (Solar.closeBtn v,
   match Solar.closeBtn v with
   | Some _ => 0
   | None => rendered (Solar.renderer v)
   end).

Definition progress (w : World num) : list (option string * nat) :=
  held <$> solar w.

Lemma phase_same w w' :
  progress w' = progress w → window_listeners w' = window_listeners w →
  phase w' = phase w.
Proof.
  unfold progress, phase. intros Hp ->.
  destruct (solar w) as [|v l], (solar w') as [|v' l']; try done.
  pose proof (f_equal (λ l, fst <$> head l) Hp) as Hc. cbn in Hc.
  injection Hc as ->. done.
Qed.

Lemma outline_lookup w w' id el' :
  outline w' = outline w → document w' !! id = Some el' →
  ∃ el, document w !! id = Some el
        ∧ dataset el' = dataset el ∧ listeners el' = listeners el.
Proof.
  intros Ho Hel'. pose proof (f_equal (λ m, m !! id) Ho) as Hid. cbv beta in Hid.
  unfold outline in Hid. rewrite !lookup_fmap, Hel' in Hid.
  destruct (document w !! id) as [el|]; [|done].
  injection Hid as Hd Hl. eauto.
Qed.

Lemma outline_is_Some w w' id :
  outline w' = outline w → is_Some (document w !! id) → is_Some (document w' !! id).
Proof.
  intros Ho [el Hel]. pose proof (f_equal (λ m, m !! id) Ho) as Hid. cbv beta in Hid.
  unfold outline in Hid. rewrite !lookup_fmap, Hel in Hid.
  destruct (document w' !! id); [eauto|done].
Qed.

Lemma outline_getElementById w w' id :
  outline w' = outline w → getElementById id w' = getElementById id w.
Proof.
  intros Ho. pose proof (f_equal (λ m, m !! id) Ho) as Hid. cbv beta in Hid.
  unfold outline in Hid. rewrite !lookup_fmap in Hid. unfold getElementById.
  by destruct (document w' !! id), (document w !! id).
Qed.

Lemma canvas_flagged_same w w' :
  outline w' = outline w → canvas_flagged w → canvas_flagged w'.
Proof.
  intros Ho (c & Hc & Hflag).
  destruct (outline_is_Some w w' "solar-scene" Ho) as [c' Hc']; [eauto|].
  destruct (outline_lookup w w' _ c' Ho Hc') as (c0 & Hc0 & Hd & _).
  exists c'. split; [exact Hc'|]. rewrite Hd. congruence.
Qed.

Lemma steady_same w w' :
  outline w' = outline w → progress w' = progress w →
  window_listeners w' = window_listeners w →
  timeouts w' = timeouts w → tweens w' = tweens w →
  (is_Some (landing w) → is_Some (landing w')) →
  steady w → steady w'.
Proof.
  intros Ho Hp Hwl Ht Htw Hl [H1 H2 H3 H4 H5 H6 H7 H8 H9].
  pose proof (phase_same w w' Hp Hwl) as Hph.
  split; rewrite ?Hph, ?Ht, ?Htw; auto.
  - congruence.
  - intros id el' Hel'. destruct (outline_lookup w w' id el' Ho Hel') as (el & Hel & _ & ->).
    by apply H3.
  - intros Hne. by apply (outline_is_Some w w' _ Ho), H7.
  - pose proof (f_equal length Hp) as Hlen. unfold progress in Hlen.
    rewrite !length_fmap in Hlen. lia.
  - intros v' Hv'. apply list_elem_of_lookup in Hv' as [e Hv'].
    pose proof (f_equal (λ l, l !! e) Hp) as He. cbv beta in He.
    unfold progress in He. rewrite !list_lookup_fmap, Hv' in He.
    destruct (solar w !! e) as [v|] eqn:Hv; [|done].
    injection He as Hc Hr.
    destruct (H9 v) as (Hflag & Hclose & Hzero); [by apply list_elem_of_lookup_2 with e|].
    split; [by apply (canvas_flagged_same w)|].
    rewrite (outline_getElementById w w' _ Ho), Hc. split; [exact Hclose|].
    intros Hnone. rewrite Hc, Hnone in Hr. rewrite Hr. by apply Hzero.
Qed.

Lemma outline_update_element id g w :
  (∀ el, dataset (g el) = dataset el ∧ listeners (g el) = listeners el) →
  outline (update_element id g w) = outline w.
Proof.
  intros Hg. unfold outline. wsimpl. apply map_eq. intros k.
  rewrite !lookup_fmap. destruct (decide (id = k)) as [->|Hne].
  - rewrite lookup_alter_eq. destruct (document w !! k) as [el|]; [|done].
    cbn. destruct (Hg el) as [-> ->]. done.
  - by rewrite lookup_alter_ne.
Qed.

Lemma progress_update_solar e f w :
  (∀ v, solar w !! e = Some v → held (f v) = held v) →
  progress (update_solar e f w) = progress w.
Proof.
  intros Hf. unfold progress. wsimpl. apply list_eq. intros i.
  rewrite !list_lookup_fmap. destruct (decide (e = i)) as [->|Hne].
  - rewrite list_lookup_alter_eq. destruct (solar w !! i) as [v|] eqn:Hv; [|done].
    cbn. by rewrite Hf.
  - by rewrite list_lookup_alter_ne.
Qed.


(** *** The phase, from what it is made of *)

Lemma phase_nil w :
  solar w = [] →
  phase w
  = if decide (("wheel", Landing_onWheel) ∈ window_listeners w) then Intro else Leaving.
Proof. unfold phase. by intros ->. Qed.

Lemma phase_cons w v l :
  solar w = v :: l →
  phase w = match Solar.closeBtn v with Some _ => Running | None => Failed end.
Proof. unfold phase. by intros ->. Qed.

Lemma phase_Intro_solar w : phase w = Intro → solar w = [].
Proof. unfold phase. destruct (solar w) as [|v l]; [done|]. by destruct (Solar.closeBtn v). Qed.

Lemma phase_Leaving_solar w : phase w = Leaving → solar w = [].
Proof. unfold phase. destruct (solar w) as [|v l]; [done|]. by destruct (Solar.closeBtn v). Qed.

Lemma phase_Failed_solar w :
  steady w → phase w = Failed → ∃ v, solar w = [v] ∧ Solar.closeBtn v = None.
Proof.
  intros Hw. pose proof (steady_single w Hw) as Hlen. unfold phase.
  destruct (solar w) as [|v [|v' l]]; cbn in Hlen; try lia.
  - by case_decide.
  - destruct (Solar.closeBtn v) eqn:Hc; [done|]. eauto.
Qed.

Lemma phase_Running_solar w :
  steady w → phase w = Running → ∃ v c, solar w = [v] ∧ Solar.closeBtn v = Some c.
Proof.
  intros Hw. pose proof (steady_single w Hw) as Hlen. unfold phase.
  destruct (solar w) as [|v [|v' l]]; cbn in Hlen; try lia.
  - by case_decide.
  - destruct (Solar.closeBtn v) eqn:Hc; [|done]. eauto.
Qed.

Lemma steady_flagged w : steady w → solar w ≠ [] → canvas_flagged w.
Proof.
  intros Hw Hne. destruct (solar w) as [|v l] eqn:Hs; [done|].
  apply (steady_solar w Hw v). rewrite Hs. by left.
Qed.

(** *** The listeners keep the page steady *)

Lemma steady_update_landing f w : steady w → steady (update_landing f w).
Proof.
  apply steady_same; try reflexivity. wsimpl. intros [v ->]. by eexists.
Qed.

Lemma steady_update_solar e f w :
  (∀ v, solar w !! e = Some v → held (f v) = held v) →
  steady w → steady (update_solar e f w).
Proof.
  intros Hf. apply steady_same; try reflexivity; [|done].
  by apply progress_update_solar.
Qed.

Lemma steady_update_element id g w :
  (∀ el, dataset (g el) = dataset el ∧ listeners (g el) = listeners el) →
  steady w → steady (update_element id g w).
Proof.
  intros Hg. apply steady_same; try reflexivity; [|done].
  by apply outline_update_element.
Qed.

Lemma steady_update_store g w : steady w → steady (update_store g w).
Proof. apply steady_same; try reflexivity. done. Qed.

Lemma steady_set_inner width height w : steady w → steady (set_inner width height w).
Proof. apply steady_same; try reflexivity. done. Qed.

Lemma steady_set_frame_requests l w : steady w → steady (set_frame_requests l w).
Proof. apply steady_same; try reflexivity. done. Qed.

Lemma steady_onCanvasClick e event w :
  steady w → steady (PlanetScript.onCanvasClick raycast e event w).
Proof.
  intros Hw. unfold PlanetScript.onCanvasClick. cbv zeta.
  assert (Hw1 : ∀ m c,
    steady (update_solar e
              (λ v, Solar.set_raycaster (Some (m, c v)) (Solar.set_mouse m v)) w)).
  { intros m c. apply steady_update_solar; [by intros v _|exact Hw]. }
  repeat case_match; try done;
    repeat (apply steady_update_element; [by intros el|]);
    apply (Hw1 _ (λ v, Solar.camera v)).
Qed.

Lemma steady_closeClick w : steady w → steady (PlanetScript.closeClick 0 w).
Proof.
  intros Hw. unfold PlanetScript.closeClick.
  destruct (solar w !! 0) as [v|] eqn:Hv; [|exact Hw].
  destruct (Solar.infoPanel v) as [p|]; [|exact Hw]. cbv zeta.
  set (w1 := update_element p
               (λ el, set_classList (classList_remove "show" (classList el)) el) w).
  assert (Hw1 : steady w1) by (apply steady_update_element; [by intros el|exact Hw]).
  assert (Hph : phase (setTimeout (Solar_hidePanel 0) (lit 500 0) w1) = phase w1)
    by reflexivity.
  assert (Hsolar : solar w1 !! 0 = Some v) by exact Hv.
  destruct Hw1 as [H1 H2 H3 H4 H5 H6 H7 H8 H9].
  split; rewrite ?Hph; auto.
  - wsimpl. apply Forall_app. split; [exact H4|]. by apply Forall_singleton.
  - intros Hintro. apply phase_Intro_solar in Hintro. by rewrite Hintro in Hsolar.
Qed.

Lemma steady_hidePanel e w : steady w → steady (PlanetScript.hidePanel e w).
Proof.
  intros Hw. unfold PlanetScript.hidePanel. repeat case_match; try done.
  apply steady_update_element; [by intros el|exact Hw].
Qed.

Lemma steady_solar_onWheel e d w : steady w → steady (PlanetScript.onWheel e d w).
Proof. apply steady_update_solar. by intros v _. Qed.

Lemma steady_solar_onResize e w : steady w → steady (PlanetScript.onResize e w).
Proof. apply steady_update_solar. by intros v _. Qed.

Lemma steady_solar_onMouseMove e x y w :
  steady w → steady (PlanetScript.onMouseMove e x y w).
Proof. apply steady_update_solar. by intros v _. Qed.

Lemma steady_landing_animate w : steady w → steady (Script.animate w).
Proof.
  intros Hw. destruct (steady_landing w Hw) as [v Hv]. revert Hw.
  apply steady_same; unfold Script.animate; cbv zeta; wsimpl; rewrite Hv;
    try reflexivity.
  wsimpl. rewrite Hv. intros _. by eexists.
Qed.

Lemma landing_animate_frame_requests w :
  frame_requests (Script.animate w) = frame_requests w ++ [Landing_animate].
Proof. unfold Script.animate. cbv zeta. wsimpl. by destruct (landing w). Qed.

Lemma landing_animate_phase w : phase (Script.animate w) = phase w.
Proof.
  apply phase_same; unfold Script.animate; cbv zeta; wsimpl; by destruct (landing w).
Qed.

Lemma animate_timeouts e w : timeouts (PlanetScript.animate e w) = timeouts w.
Proof. unfold PlanetScript.animate. wsimpl. by destruct (solar w !! e). Qed.

Lemma animate_tweens e w : tweens (PlanetScript.animate e w) = tweens w.
Proof. unfold PlanetScript.animate. wsimpl. by destruct (solar w !! e). Qed.

Lemma animate_progress e w :
  (∀ v, solar w !! e = Some v → Solar.closeBtn v ≠ None) →
  progress (PlanetScript.animate e w) = progress w.
Proof.
  intros He. unfold progress. rewrite animate_solar.
  apply (progress_update_solar e animate_env w).
  intros v Hv. specialize (He v Hv). unfold held. cbn.
  by destruct (Solar.closeBtn v).
Qed.

Lemma steady_animate e w :
  (∀ v, solar w !! e = Some v → Solar.closeBtn v ≠ None) →
  steady w → steady (PlanetScript.animate e w).
Proof.
  intros He. apply steady_same.
  - unfold outline. by rewrite animate_document.
  - by apply animate_progress.
  - apply animate_window_listeners.
  - apply animate_timeouts.
  - apply animate_tweens.
  - by rewrite animate_landing.
Qed.

Lemma animate_phase e w :
  (∀ v, solar w !! e = Some v → Solar.closeBtn v ≠ None) →
  phase (PlanetScript.animate e w) = phase w.
Proof.
  intros He. apply phase_same; [by apply animate_progress|apply animate_window_listeners].
Qed.


(** *** The start icon *)

Definition after_click (p : Phase) : Phase :=
  match p with
  | Intro => Leaving
  | _ => p
  end.

Lemma window_table_click p :
  removeListener "wheel" Landing_onWheel
    (removeListener "mousemove" Landing_onMouseMove (window_table p))
  = window_table (after_click p).
Proof. destruct p; reflexivity. Qed.

Lemma element_table_click p id : element_table (after_click p) id = element_table p id.
Proof. destruct p; reflexivity. Qed.

Lemma iconClick_window_listeners w :
  steady w → window_listeners (Script.iconClick w) = window_table (after_click (phase w)).
Proof.
  intros Hw. unfold Script.iconClick. wsimpl.
  rewrite (steady_window w Hw). apply window_table_click.
Qed.

Lemma iconClick_phase w : steady w → phase (Script.iconClick w) = after_click (phase w).
Proof.
  intros Hw. pose proof (iconClick_window_listeners w Hw) as Hwl.
  unfold phase at 1. change (solar (Script.iconClick w)) with (solar w). rewrite Hwl.
  destruct (phase w) eqn:Hp.
  - rewrite (phase_Intro_solar w Hp). cbn [after_click window_table].
    case_decide as Hin; [|done]. by apply list_elem_of_singleton in Hin.
  - rewrite (phase_Leaving_solar w Hp). cbn [after_click window_table].
    case_decide as Hin; [|done]. by apply list_elem_of_singleton in Hin.
  - destruct (phase_Failed_solar w Hw Hp) as (v & -> & ->). done.
  - destruct (phase_Running_solar w Hw Hp) as (v & c & -> & ->). done.
Qed.

Lemma steady_iconClick w :
  steady w → is_Some (document w !! "icon-container") → steady (Script.iconClick w).
Proof.
  intros Hw Hicon. pose proof (iconClick_phase w Hw) as Hph.
  pose proof (iconClick_window_listeners w Hw) as Hwl.
  destruct Hw as [H1 H2 H3 H4 H5 H6 H7 H8 H9].
  split; rewrite ?Hph; auto.
  - intros id el Hel. rewrite element_table_click. by apply H3.
  - unfold Script.iconClick. wsimpl. rewrite <- app_assoc.
    apply Forall_app. split; [exact H5|].
    constructor; [by left|]. constructor; [by right|constructor].
  - by destruct (phase w).
Qed.

(** *** Activation *)

Lemma element_table_elsewhere p p' id :
  id ≠ "solar-scene" → id ≠ "close-info" → element_table p id = element_table p' id.
Proof. intros H1 H2. unfold element_table. by repeat case_decide. Qed.

Lemma orderly_initSolarSystem w :
  orderly w → phase w ≠ Intro → orderly (PlanetScript.initSolarSystem w).2.
Proof.
  intros [Hw Hfr] Hintro.
  destruct (initSolarSystem_activation w)
    as [Hguard|c scene planets sto rng Hc Hflag Hbuild Hclose
              |c scene planets sto rng Hc Hflag Hbuild Hclose]; cbn [snd].
  - by split.
  - (* it throws on the missing close button *)
    clear Hbuild.
    assert (Hs : solar w = []).
    { destruct (solar w) as [|v l] eqn:Hs; [done|].
      destruct (steady_flagged w Hw) as (c' & Hc' & Hflag'); [by rewrite Hs|]. congruence. }
    assert (Hp : phase w = Leaving).
    { rewrite (phase_nil w Hs) in Hintro |- *. by case_decide. }
    set (w' := with_env w scene planets sto rng).
    assert (Hs' : solar w' = [new_env w scene planets]).
    { subst w'. unfold with_env. wsimpl. by rewrite Hs. }
    assert (Hbtn : Solar.closeBtn (new_env w scene planets) = None).
    { cbn [new_env Solar.closeBtn]. rewrite getElementById_flagged.
      unfold getElementById. by rewrite Hclose. }
    assert (Hp' : phase w' = Failed) by (by rewrite (phase_cons w' _ [] Hs'), Hbtn).
    assert (Hdoc : document w'
      = alter (λ el, set_listeners
                       (addListener "click" (Solar_onCanvasClick 0) (listeners el)) el)
          "solar-scene"
          (alter (λ el, set_dataset (<["initialised" := "true"]> (dataset el)) el)
             "solar-scene" (document w))).
    { subst w'. unfold with_env, flagged. wsimpl. by rewrite Hs. }
    destruct Hw as [H1 H2 H3 H4 H5 H6 H7 H8 H9].
    split; [split|]; rewrite ?Hp'.
    + exact H1.
    + change (window_listeners w') with (window_listeners w). by rewrite H2, Hp.
    + intros id el' Hel'. rewrite Hdoc in Hel'.
      destruct (decide (id = "solar-scene")) as [->|Hne].
      * rewrite !lookup_alter_eq, Hc in Hel'. injection Hel' as <-.
        cbn [listeners set_listeners set_dataset].
        rewrite (H3 _ c Hc), Hp. reflexivity.
      * rewrite !lookup_alter_ne in Hel' by done.
        rewrite (H3 id el' Hel'), Hp.
        destruct (decide (id = "close-info")) as [->|Hne']; [congruence|].
        by apply element_table_elsewhere.
    + exact H4.
    + exact H5.
    + done.
    + intros _. rewrite Hdoc, !lookup_alter_is_Some. apply H7. by rewrite Hp.
    + by rewrite Hs'.
    + intros v Hv. rewrite Hs' in Hv. apply list_elem_of_singleton in Hv as ->.
      split; [|split].
      * eexists. rewrite Hdoc, !lookup_alter_eq, Hc. split; [reflexivity|].
        cbn [dataset set_dataset set_listeners]. by rewrite lookup_insert_eq.
      * rewrite Hbtn. unfold getElementById. rewrite Hdoc.
        rewrite !lookup_alter_ne by done. by rewrite Hclose.
      * done.
    + change (frame_requests w') with (frame_requests w). by rewrite Hfr, Hp.
  - (* it completes *)
    clear Hbuild.
    assert (Hs : solar w = []).
    { destruct (solar w) as [|v l] eqn:Hs; [done|].
      destruct (steady_flagged w Hw) as (c' & Hc' & Hflag'); [by rewrite Hs|]. congruence. }
    assert (Hp : phase w = Leaving).
    { rewrite (phase_nil w Hs) in Hintro |- *. by case_decide. }
    rewrite Hs. cbn [length].
    set (w' := with_listeners 0 (with_env w scene planets sto rng)).
    assert (Hs' : solar w' = [new_env w scene planets]).
    { subst w'. unfold with_listeners, with_env. wsimpl. by rewrite Hs. }
    assert (Hbtn : Solar.closeBtn (new_env w scene planets) = Some "close-info").
    { cbn [new_env Solar.closeBtn]. rewrite getElementById_flagged.
      unfold getElementById. by destruct Hclose as [el ->]. }
    assert (Hp' : phase w' = Running) by (by rewrite (phase_cons w' _ [] Hs'), Hbtn).
    assert (Hdoc : document w'
      = alter (λ el, set_listeners
                       (addListener "click" (Solar_closeClick 0) (listeners el)) el)
          "close-info"
          (alter (λ el, set_listeners
                          (addListener "click" (Solar_onCanvasClick 0) (listeners el)) el)
             "solar-scene"
             (alter (λ el, set_dataset (<["initialised" := "true"]> (dataset el)) el)
                "solar-scene" (document w)))).
    { subst w'. unfold with_listeners, with_env, flagged. wsimpl. by rewrite Hs. }
    assert (Hsteady : steady w').
    { destruct Hw as [H1 H2 H3 H4 H5 H6 H7 H8 H9].
      split; rewrite ?Hp'.
      + exact H1.
      + subst w'. unfold with_listeners, with_env, flagged. wsimpl. by rewrite H2, Hp.
      + intros id el' Hel'. rewrite Hdoc in Hel'.
        destruct (decide (id = "close-info")) as [->|Hne'].
        * rewrite lookup_alter_eq, !lookup_alter_ne in Hel' by done.
          destruct Hclose as [el Hel]. rewrite Hel in Hel'. injection Hel' as <-.
          cbn [listeners set_listeners]. rewrite (H3 _ el Hel), Hp. reflexivity.
        * rewrite lookup_alter_ne in Hel' by done.
          destruct (decide (id = "solar-scene")) as [->|Hne].
          -- rewrite !lookup_alter_eq, Hc in Hel'. injection Hel' as <-.
             cbn [listeners set_listeners set_dataset].
             rewrite (H3 _ c Hc), Hp. reflexivity.
          -- rewrite !lookup_alter_ne in Hel' by done.
             rewrite (H3 id el' Hel'), Hp. by apply element_table_elsewhere.
      + exact H4.
      + exact H5.
      + done.
      + intros _. rewrite Hdoc, !lookup_alter_is_Some. apply H7. by rewrite Hp.
      + by rewrite Hs'.
      + intros v Hv. rewrite Hs' in Hv. apply list_elem_of_singleton in Hv as ->.
        split; [|split].
        * eexists. rewrite Hdoc, lookup_alter_ne by done.
          rewrite !lookup_alter_eq, Hc. split; [reflexivity|].
          cbn [dataset set_dataset set_listeners]. by rewrite lookup_insert_eq.
        * rewrite Hbtn. unfold getElementById. rewrite Hdoc.
          rewrite lookup_alter_eq, !lookup_alter_ne by done.
          by destruct Hclose as [el ->].
        * by rewrite Hbtn. }
    assert (Hrun : ∀ v, solar w' !! 0 = Some v → Solar.closeBtn v ≠ None).
    { intros v. rewrite Hs'. intros [= <-]. by rewrite Hbtn. }
    split.
    + by apply steady_animate.
    + rewrite animate_frame_requests, (animate_phase 0 w' Hrun), Hp'.
      change (frame_requests w') with (frame_requests w). by rewrite Hfr, Hp.
Qed.


Lemma orderly_onComplete w :
  orderly w → phase w ≠ Intro → orderly (Script.onComplete w).2.
Proof.
  intros Hw Hintro. unfold Script.onComplete.
  destruct (getElementById "solar-container" w) as [container|]; [|exact Hw].
  cbv zeta. wsimpl.
  assert (Hw' : orderly
    (update_element container
       (λ el, set_classList (classList_remove "hidden" (classList el)) el) w)).
  { destruct Hw as [Hw Hfr]. split; [|exact Hfr].
    apply steady_update_element; [by intros el|exact Hw]. }
  destruct (has_initSolarSystem w); [|exact Hw'].
  by apply orderly_initSolarSystem.
Qed.

(** *** The page once loaded *)

Lemma orderly_loaded markup width height ratio planetScript random :
  orderly (Page.loaded markup width height ratio planetScript random).
Proof.
  unfold Page.loaded.
  assert (Hdoc : ∀ id el,
    document (Page.page markup width height ratio planetScript random) !! id = Some el →
    listeners el = []).
  { intros id el. cbn [Page.page document]. rewrite lookup_fmap.
    destruct (markup !! id); [|done]. by intros [= <-]. }
  assert (Hrest :
    let w := Page.page markup width height ratio planetScript random in
    solar w = [] ∧ window_listeners w = [] ∧ frame_requests w = []
    ∧ timeouts w = [] ∧ tweens w = []) by (cbn; auto).
  revert Hdoc Hrest. generalize (Page.page markup width height ratio planetScript random).
  intros w Hdoc (Hs & Hwl & Hfr & Hto & Htw).
  assert (Hland : ∀ sp rng,
    let w1 := Script.animate (with_landing w sp rng) in
    is_Some (landing w1) ∧ window_listeners w1 = window_table Intro
    ∧ document w1 = document w ∧ solar w1 = [] ∧ timeouts w1 = [] ∧ tweens w1 = []
    ∧ frame_requests w1 = [Landing_animate]).
  { intros sp rng. unfold Script.animate, with_landing. cbv zeta. wsimpl.
    rewrite Hwl, Hfr. repeat split; done. }
  assert (Hintro : ∀ w1, solar w1 = [] → window_listeners w1 = window_table Intro →
                         phase w1 = Intro).
  { intros w1 Hs1 Hwl1. rewrite (phase_nil w1 Hs1), Hwl1. reflexivity. }
  destruct (onDOMContentLoaded_booted w) as [sp rng _ Hicon|sp rng _ Hicon]; cbn [snd];
    destruct (Hland sp rng) as (H1 & H2 & H3 & H4 & H5 & H6 & H7);
    revert H1 H2 H3 H4 H5 H6 H7;
    generalize (Script.animate (with_landing w sp rng)); intros w1 H1 H2 H3 H4 H5 H6 H7.
  - pose proof (Hintro w1 H4 H2) as Hp.
    split; [split|]; rewrite ?Hp, ?H4, ?H5, ?H6.
    + exact H1.
    + exact H2.
    + intros id el Hel. rewrite H3 in Hel. rewrite (Hdoc id el Hel).
      unfold element_table. case_decide as Hid; [congruence|]. by repeat case_decide.
    + constructor.
    + constructor.
    + done.
    + done.
    + cbn. lia.
    + intros v Hv. by apply elem_of_nil in Hv.
    + exact H7.
  - set (w2 := element_addEventListener "icon-container" "click" Landing_iconClick w1).
    assert (Hp : phase w2 = Intro) by (by apply Hintro).
    split; [split|]; rewrite ?Hp.
    + exact H1.
    + exact H2.
    + intros id el' Hel'. subst w2. wsimpl. rewrite H3 in Hel'.
      destruct (decide (id = "icon-container")) as [->|Hne].
      * rewrite lookup_alter_eq in Hel'. destruct Hicon as [el Hel].
        rewrite Hel in Hel'. injection Hel' as <-. cbn [listeners set_listeners].
        rewrite (Hdoc _ el Hel). reflexivity.
      * rewrite lookup_alter_ne in Hel' by done. rewrite (Hdoc id el' Hel').
        unfold element_table. by repeat case_decide.
    + change (timeouts w2) with (timeouts w1). rewrite H5. constructor.
    + change (tweens w2) with (tweens w1). rewrite H6. constructor.
    + done.
    + done.
    + change (solar w2) with (solar w1). rewrite H4. cbn. lia.
    + change (solar w2) with (solar w1). rewrite H4.
      intros v Hv. by apply elem_of_nil in Hv.
    + exact H7.
Qed.

(** *** Which closures an event reaches, by phase *)

Lemma window_handlers p :
  listenersOf "mousemove" (window_table p)
  = match p with
    | Intro => [Landing_onMouseMove]
    | Running => [Solar_onMouseMove 0]
    | _ => []
    end
  ∧ listenersOf "wheel" (window_table p)
    = match p with
      | Intro => [Landing_onWheel]
      | Running => [Solar_onWheel 0]
      | _ => []
      end
  ∧ listenersOf "resize" (window_table p)
    = Landing_onResize :: match p with
                          | Running => [Solar_onResize 0]
                          | _ => []
                          end.
Proof. destruct p; repeat split; reflexivity. Qed.

(** A turn of the event loop, written with the closures that are
    registered in the phase the page is in. *)
Definition phased_step (ev : @Page.Event num) (w : World num) : World num :=
  match ev with
  | Page.MouseMove x y =>
      match phase w with
      | Intro => Script.onMouseMove x y w
      | Running => PlanetScript.onMouseMove 0 x y w
      | _ => w
      end
  | Page.Wheel d =>
      match phase w with
      | Intro => Script.onWheel d w
      | Running => PlanetScript.onWheel 0 d w
      | _ => w
      end
  | Page.Resize width height =>
      let w1 := Script.onResize (set_inner width height w) in
      match phase w with
      | Running => PlanetScript.onResize 0 w1
      | _ => w1
      end
  | Page.Click target event =>
      match document w !! target with
      | None => w
      | Some _ =>
          if decide (target = "icon-container") then Script.iconClick w
          else if decide (target = "solar-scene") then
            match phase w with
            | Failed | Running => PlanetScript.onCanvasClick raycast 0 event w
            | _ => w
            end
          else if decide (target = "close-info") then
            match phase w with
            | Running => PlanetScript.closeClick 0 w
            | _ => w
            end
          else w
      end
  | Page.AnimationFrame =>
      let w1 := Script.animate (set_frame_requests [] w) in
      match phase w with
      | Running => PlanetScript.animate 0 w1
      | _ => w1
      end
  | Page.TimeoutFires i =>
      match timeouts w !! i with
      | Some _ => PlanetScript.hidePanel 0 (set_timeouts (delete i (timeouts w)) w)
      | None => w
      end
  | Page.TweenCompletes i =>
      match tweens w !! i with
      | Some t =>
          let w1 := set_tweens (delete i (tweens w)) w in
          match tw_onComplete t with
          | Some _ => (Script.onComplete w1).2
          | None => w1
          end
      | None => w
      end
  end.

Lemma step_phased ev w : orderly w → Page.step raycast ev w = phased_step ev w.
Proof.
  intros [Hw Hfr]. destruct (window_handlers (phase w)) as (Hmove & Hwheel & Hresize).
  destruct ev as [x y|d|width height|target event| |i|i]; cbn [Page.step phased_step].
  - rewrite (steady_window w Hw), Hmove. by destruct (phase w).
  - rewrite (steady_window w Hw), Hwheel. by destruct (phase w).
  - cbv zeta. change (window_listeners (set_inner width height w)) with (window_listeners w).
    rewrite (steady_window w Hw), Hresize. by destruct (phase w).
  - destruct (document w !! target) as [el|] eqn:Hel; [|done].
    rewrite (steady_elements w Hw target el Hel). unfold element_table.
    repeat case_decide; destruct (phase w); reflexivity.
  - rewrite Hfr. by destruct (phase w).
  - destruct (timeouts w !! i) as [[delay f]|] eqn:Hi; [|done].
    pose proof (steady_timeouts w Hw) as Hto. rewrite Forall_lookup in Hto.
    by injection (Hto i _ Hi) as -> ->.
  - destruct (tweens w !! i) as [t|] eqn:Hi; [|done].
    pose proof (steady_tweens w Hw) as Htw. rewrite Forall_lookup in Htw.
    by destruct (Htw i _ Hi) as [->| ->].
Qed.


(** *** Every turn of the event loop keeps the page orderly *)

Lemma orderly_neutral w w' :
  steady w' → phase w' = phase w → frame_requests w' = frame_requests w →
  orderly w → orderly w'.
Proof. intros Hs Hp Hf [_ Hfr]. split; [exact Hs|]. by rewrite Hp, Hf. Qed.

Lemma update_solar_phase e f w :
  (∀ v, solar w !! e = Some v → held (f v) = held v) →
  phase (update_solar e f w) = phase w.
Proof. intros Hf. apply phase_same; [by apply progress_update_solar|reflexivity]. Qed.

Lemma onCanvasClick_phase e event w :
  phase (PlanetScript.onCanvasClick raycast e event w) = phase w.
Proof.
  apply phase_same; [|apply onCanvasClick_window_listeners].
  destruct (onCanvasClick_solar raycast e event w) as (mouse & Hs).
  unfold progress. rewrite Hs.
  apply (progress_update_solar e
           (λ v, Solar.set_raycaster (Some (mouse, Solar.camera v))
                   (Solar.set_mouse mouse v)) w).
  by intros v _.
Qed.

Lemma onCanvasClick_frame_requests e event w :
  frame_requests (PlanetScript.onCanvasClick raycast e event w) = frame_requests w.
Proof.
  unfold PlanetScript.onCanvasClick. cbv zeta. repeat case_match; reflexivity.
Qed.

Lemma closeClick_phase e w : phase (PlanetScript.closeClick e w) = phase w.
Proof. unfold PlanetScript.closeClick. repeat case_match; reflexivity. Qed.

Lemma closeClick_frame_requests e w :
  frame_requests (PlanetScript.closeClick e w) = frame_requests w.
Proof. unfold PlanetScript.closeClick. repeat case_match; reflexivity. Qed.

Lemma hidePanel_phase e w : phase (PlanetScript.hidePanel e w) = phase w.
Proof. unfold PlanetScript.hidePanel. repeat case_match; reflexivity. Qed.

Lemma hidePanel_frame_requests e w :
  frame_requests (PlanetScript.hidePanel e w) = frame_requests w.
Proof. unfold PlanetScript.hidePanel. repeat case_match; reflexivity. Qed.

Lemma steady_delete_timeout i w :
  steady w → steady (set_timeouts (delete i (timeouts w)) w).
Proof.
  intros [H1 H2 H3 H4 H5 H6 H7 H8 H9]. split; auto.
  - by apply Forall_delete.
  - intros Hp. destruct (H6 Hp) as [Htw Hto]. wsimpl. by rewrite Hto.
Qed.

Lemma steady_delete_tween i w :
  steady w → steady (set_tweens (delete i (tweens w)) w).
Proof.
  intros [H1 H2 H3 H4 H5 H6 H7 H8 H9]. split; auto.
  - by apply Forall_delete.
  - intros Hp. destruct (H6 Hp) as [Htw Hto]. wsimpl. by rewrite Htw.
Qed.

Lemma running_closeBtn w :
  steady w → phase w = Running →
  ∀ v, solar w !! 0 = Some v → Solar.closeBtn v ≠ None.
Proof.
  intros Hw Hp v Hv. destruct (phase_Running_solar w Hw Hp) as (v' & c & Hs & Hc).
  rewrite Hs in Hv. injection Hv as <-. by rewrite Hc.
Qed.

Lemma frame_table_click p : frame_table (after_click p) = frame_table p.
Proof. by destruct p. Qed.

Lemma orderly_step ev w : orderly w → orderly (Page.step raycast ev w).
Proof.
  intros Hw. rewrite (step_phased ev w Hw). pose proof Hw as [Hs Hfr].
  destruct ev as [x y|d|width height|target event| |i|i]; cbn [phased_step].
  - destruct (phase w) eqn:Hp; try exact Hw.
    + apply (orderly_neutral w); [by apply steady_update_landing|done..].
    + apply (orderly_neutral w); [by apply steady_solar_onMouseMove| |done..].
      apply update_solar_phase. by intros v _.
  - destruct (phase w) eqn:Hp; try exact Hw.
    + apply (orderly_neutral w); [by apply steady_update_landing|done..].
    + apply (orderly_neutral w); [by apply steady_solar_onWheel| |done..].
      apply update_solar_phase. by intros v _.
  - cbv zeta.
    assert (Hw1 : orderly (Script.onResize (set_inner width height w))).
    { apply (orderly_neutral w); [|done..].
      by apply steady_update_landing, steady_set_inner. }
    destruct (phase w) eqn:Hp; try exact Hw1.
    apply (orderly_neutral (Script.onResize (set_inner width height w)));
      [apply steady_solar_onResize, Hw1| |done..].
    apply update_solar_phase. by intros v _.
  - destruct (document w !! target) as [el|] eqn:Hel; [|exact Hw].
    repeat case_decide; subst; try exact Hw.
    + split; [by apply steady_iconClick|].
      rewrite (iconClick_phase w Hs), frame_table_click. exact Hfr.
    + destruct (phase w) eqn:Hp; try exact Hw.
      * apply (orderly_neutral w);
          [by apply steady_onCanvasClick|apply onCanvasClick_phase
          |apply onCanvasClick_frame_requests|exact Hw].
      * apply (orderly_neutral w);
          [by apply steady_onCanvasClick|apply onCanvasClick_phase
          |apply onCanvasClick_frame_requests|exact Hw].
    + destruct (phase w) eqn:Hp; try exact Hw.
      apply (orderly_neutral w);
        [by apply steady_closeClick|apply closeClick_phase
        |apply closeClick_frame_requests|exact Hw].
  - cbv zeta.
    assert (Hs1 : steady (Script.animate (set_frame_requests [] w)))
      by (by apply steady_landing_animate, steady_set_frame_requests).
    assert (Hp1 : phase (Script.animate (set_frame_requests [] w)) = phase w)
      by apply (landing_animate_phase (set_frame_requests [] w)).
    assert (Hf1 : frame_requests (Script.animate (set_frame_requests [] w))
                  = [Landing_animate])
      by (by rewrite landing_animate_frame_requests).
    destruct (phase w) eqn:Hp; try (by split; [exact Hs1|rewrite Hp1, Hf1]).
    pose proof (running_closeBtn _ Hs1 Hp1) as Hrun.
    split; [by apply steady_animate|].
    by rewrite animate_frame_requests, (animate_phase 0 _ Hrun), Hp1, Hf1.
  - destruct (timeouts w !! i) as [df|]; [|exact Hw].
    assert (Hw1 : orderly (set_timeouts (delete i (timeouts w)) w)).
    { apply (orderly_neutral w); [by apply steady_delete_timeout|done..]. }
    apply (orderly_neutral (set_timeouts (delete i (timeouts w)) w));
      [apply steady_hidePanel, Hw1|apply hidePanel_phase
      |apply hidePanel_frame_requests|exact Hw1].
  - destruct (tweens w !! i) as [t|] eqn:Hi; [|exact Hw]. cbv zeta.
    assert (Hw1 : orderly (set_tweens (delete i (tweens w)) w)).
    { apply (orderly_neutral w); [by apply steady_delete_tween|done..]. }
    destruct (tw_onComplete t); [|exact Hw1].
    apply orderly_onComplete; [exact Hw1|].
    change (phase (set_tweens (delete i (tweens w)) w)) with (phase w).
    intros Hp. destruct (steady_intro w Hs Hp) as [Htw _]. by rewrite Htw in Hi.
Qed.

Lemma orderly_reachable w : Page.reachable raycast w → orderly w.
Proof.
  apply reachable_by_invariant.
  - apply orderly_loaded.
  - intros ev w' _. apply orderly_step.
Qed.

End Phases.

(** ** The phases only advance *)

Section PhaseOrder.
Context {num : Type} `{!JSNumber num}.
Variable raycast : @Vector2 num → @Camera num → @Object3D num → list num.
Implicit Types (w : World num) (v : Solar.Env num).

(** From the landing screen the page can only leave; once left, the
    solar system is built at most once, and a system that is running or
    that failed stays so. *)
Definition advances (p q : Phase) : Prop :=
  match p, q with
  | Intro, _ => True
  | Leaving, (Leaving | Failed | Running) => True
  | Failed, Failed => True
  | Running, Running => True
  | _, _ => False
  end.

Lemma advances_refl p : advances p p.
Proof. by destruct p. Qed.

Lemma advances_trans p q r : advances p q → advances q r → advances p r.
Proof. destruct p, q, r; cbn; tauto. Qed.

Lemma reachable_run evs w :
  Page.reachable raycast w → Page.reachable raycast (Page.run raycast evs w).
Proof.
  apply reachable_by_run. induction evs; constructor; auto.
Qed.

(** With a solar system in place, running or failed, the guard of
    [initSolarSystem] holds. *)
Lemma initSolarSystem_again w :
  steady w → solar w ≠ [] → PlanetScript.initSolarSystem w = (Normal, w).
Proof.
  intros Hw Hne. destruct (steady_flagged w Hw Hne) as (c & Hc & Hflag).
  by apply initSolarSystem_flagged with c.
Qed.

Lemma initSolarSystem_phase w :
  steady w → phase w ≠ Intro →
  advances (phase w) (phase (PlanetScript.initSolarSystem w).2).
Proof.
  intros Hw Hintro. destruct (solar w) as [|v l] eqn:Hs.
  - assert (Hp : phase w = Leaving).
    { rewrite (phase_nil w Hs) in Hintro |- *. by case_decide. }
    rewrite Hp.
    destruct (initSolarSystem_activation w)
      as [Hguard|c scene planets sto rng Hc Hflag Hbuild Hclose
                |c scene planets sto rng Hc Hflag Hbuild Hclose]; cbn [snd];
      try clear Hbuild.
    + by rewrite Hp.
    + rewrite (phase_cons _ (new_env w scene planets) []).
      * by destruct (Solar.closeBtn _).
      * unfold with_env. wsimpl. by rewrite Hs.
    + assert (Hs' : solar (with_listeners (length (solar w))
                             (with_env w scene planets sto rng))
                    = [new_env w scene planets]).
      { unfold with_listeners, with_env. wsimpl. by rewrite Hs. }
      unfold phase. rewrite animate_solar, Hs', Hs. cbn [length].
      change (alter animate_env 0 [new_env w scene planets])
        with [animate_env (new_env w scene planets)].
      cbn [animate_env Solar.closeBtn Solar.set_renderer Solar.set_camera new_env].
      by destruct (getElementById "close-info" (flagged w)).
  - rewrite (initSolarSystem_again w Hw); [apply advances_refl|]. by rewrite Hs.
Qed.

Lemma solar_onMouseMove_phase e x y w : phase (PlanetScript.onMouseMove e x y w) = phase w.
Proof. apply update_solar_phase. by intros v _. Qed.

Lemma solar_onWheel_phase e d w : phase (PlanetScript.onWheel e d w) = phase w.
Proof. apply update_solar_phase. by intros v _. Qed.

Lemma solar_onResize_phase e w : phase (PlanetScript.onResize e w) = phase w.
Proof. apply update_solar_phase. by intros v _. Qed.

Lemma phase_step ev w :
  orderly w → advances (phase w) (phase (Page.step raycast ev w)).
Proof.
  intros Hw. rewrite (step_phased raycast ev w Hw). pose proof Hw as [Hs Hfr].
  destruct ev as [x y|d|width height|target event| |i|i]; cbn [phased_step].
  - destruct (phase w) eqn:Hp; rewrite ?solar_onMouseMove_phase, ?Hp; done.
  - destruct (phase w) eqn:Hp; rewrite ?solar_onWheel_phase, ?Hp; done.
  - cbv zeta.
    destruct (phase w) eqn:Hp; rewrite ?solar_onResize_phase; try done;
      change (phase (Script.onResize (set_inner width height w))) with (phase w);
      by rewrite Hp.
  - destruct (document w !! target) as [el|]; [|apply advances_refl].
    repeat case_decide; try apply advances_refl.
    + rewrite (iconClick_phase w Hs). by destruct (phase w).
    + destruct (phase w) eqn:Hp; rewrite ?onCanvasClick_phase, ?Hp; done.
    + destruct (phase w) eqn:Hp; rewrite ?closeClick_phase, ?Hp; done.
  - cbv zeta.
    pose proof (landing_animate_phase (set_frame_requests [] w)) as Hp1.
    change (phase (set_frame_requests [] w)) with (phase w) in Hp1.
    destruct (phase w) eqn:Hp; try (by rewrite Hp1).
    rewrite animate_phase, Hp1; [done|].
    apply running_closeBtn; [|exact Hp1].
    by apply steady_landing_animate, steady_set_frame_requests.
  - destruct (timeouts w !! i); [|apply advances_refl].
    rewrite hidePanel_phase. apply advances_refl.
  - destruct (tweens w !! i) as [t|] eqn:Hi; [|apply advances_refl]. cbv zeta.
    destruct (tw_onComplete t); [|apply advances_refl].
    assert (Hs1 : steady (set_tweens (delete i (tweens w)) w))
      by (by apply steady_delete_tween).
    assert (Hp1 : phase w ≠ Intro).
    { intros Hp. destruct (steady_intro w Hs Hp) as [Htw _]. by rewrite Htw in Hi. }
    change (phase w) with (phase (set_tweens (delete i (tweens w)) w)) in Hp1 |- *.
    revert Hs1 Hp1. generalize (set_tweens (delete i (tweens w)) w). intros w1 Hs1 Hp1.
    unfold Script.onComplete.
    destruct (getElementById "solar-container" w1) as [container|];
      [|apply advances_refl].
    cbv zeta. wsimpl.
    destruct (has_initSolarSystem w1); [|apply advances_refl].
    apply (initSolarSystem_phase
             (update_element container
                (λ el, set_classList (classList_remove "hidden" (classList el)) el) w1)).
    + apply steady_update_element; [by intros el|exact Hs1].
    + exact Hp1.
Qed.

Lemma phase_run evs w :
  Page.reachable raycast w → advances (phase w) (phase (Page.run raycast evs w)).
Proof.
  revert w. induction evs as [|ev evs IH]; intros w Hw; [apply advances_refl|].
  cbn [Page.run foldl]. eapply advances_trans.
  - apply (phase_step ev). by apply (orderly_reachable raycast).
  - apply IH. by constructor.
Qed.

End PhaseOrder.

(** ** What the phases say about the page *)

Section PhaseProperties.
Context {num : Type} `{!JSNumber num}.
Variable raycast : @Vector2 num → @Camera num → @Object3D num → list num.
Implicit Types (w : World num) (v : Solar.Env num).

(** X1. However often the start icon is clicked and its tweens
    complete, [initSolarSystem] passes its guard at most once: the page
    never holds more than one activation (one renderer, one scene, one
    set of closures), and as soon as it holds one the canvas carries a
    truthy [initialised] flag. *)
Theorem one_solar_system w :
  Page.reachable raycast w →
  length (solar w) ≤ 1
  ∧ (solar w ≠ [] →
     ∃ c, document w !! "solar-scene" = Some c
          ∧ truthy (dataset c !! "initialised") = true).
Proof.
  intros Hw. destruct (orderly_reachable raycast w Hw) as [Hs _].
  split; [apply (steady_single w Hs)|apply (steady_flagged w Hs)].
Qed.


(** X3. An activation that threw on the missing close button stays as
    the throw left it, whatever happens next: it is the only activation,
    its renderer never draws a frame, no frame request and no window
    listener of the solar system exists, and calling [initSolarSystem]
    again returns at the guard without changing anything (the flag was
    set before the throw): the solar system cannot be started any more. *)
Theorem failed_activation_is_final w v evs :
  Page.reachable raycast w → v ∈ solar w → Solar.closeBtn v = None →
  let w' := Page.run raycast evs w in
  ∃ v', solar w' = [v'] ∧ Solar.closeBtn v' = None
        ∧ rendered (Solar.renderer v') = 0
        ∧ frame_requests w' = [Landing_animate]
        ∧ window_listeners w' = [("resize", Landing_onResize)]
        ∧ PlanetScript.initSolarSystem w' = (Normal, w').
Proof.
  intros Hw Hv Hc w'.
  destruct (orderly_reachable raycast w Hw) as [Hs _].
  assert (Hp : phase w = Failed).
  { pose proof (steady_single w Hs) as Hlen.
    destruct (solar w) as [|v0 [|v1 l]] eqn:Hsolar; cbn in Hlen; try lia.
    - by apply elem_of_nil in Hv.
    - apply list_elem_of_singleton in Hv as ->.
      by rewrite (phase_cons w v0 [] Hsolar), Hc. }
  pose proof (phase_run raycast evs w Hw) as Hadv. fold w' in Hadv. rewrite Hp in Hadv.
  assert (Hp' : phase w' = Failed) by (by destruct (phase w')).
  assert (Hw' : Page.reachable raycast w') by (by apply reachable_run).
  destruct (orderly_reachable raycast w' Hw') as [Hs' Hfr'].
  destruct (phase_Failed_solar w' Hs' Hp') as (v' & Hsolar' & Hc').
  exists v'. split; [exact Hsolar'|]. split; [exact Hc'|].
  split; [|split; [|split]].
  - apply (steady_solar w' Hs' v'); [|exact Hc']. rewrite Hsolar'. by left.
  - by rewrite Hfr', Hp'.
  - by rewrite (steady_window w' Hs'), Hp'.
  - apply initSolarSystem_again; [exact Hs'|]. by rewrite Hsolar'.
Qed.


End PhaseProperties.

Lemma one_solar_system_witness :
  length (solar (@Page.run float F64_plain no_hit (sample_visit ++ sample_visit) sample_page))
  ≤ 1.
Proof.
  apply (@one_solar_system float F64_plain no_hit). apply reachable_run. constructor.
Defined.


(** A page whose markup lacks the close button, and a visit that starts
    the solar system there. *)
Definition page_without_close : World float :=
  @Page.loaded float F64_plain (delete "close-info" full_markup)
    (F64.literal 1920 0) (F64.literal 1080 0) (F64.literal 1 0) true
    (λ n, PrimFloat.div (F64.of_Z (Z.of_nat n mod 7)) (F64.of_Z 8)).

Definition failed_visit : list (@Page.Event float) :=
  [Page.Click "icon-container"
     (PlanetScript.mkClickData PrimFloat.zero PrimFloat.zero PrimFloat.zero
        PrimFloat.zero PrimFloat.one PrimFloat.one);
   Page.TweenCompletes 1].

Lemma failed_activation_is_final_witness :
  let w' :=
    @Page.run float F64_plain no_hit [Page.AnimationFrame; Page.TweenCompletes 0]
      (@Page.run float F64_plain no_hit failed_visit page_without_close) in
  ∃ v', solar w' = [v'] ∧ Solar.closeBtn v' = None
        ∧ rendered (Solar.renderer v') = 0
        ∧ frame_requests w' = [Landing_animate]
        ∧ window_listeners w' = [("resize", Landing_onResize)]
        ∧ @PlanetScript.initSolarSystem float F64_plain w' = (Normal, w').
Proof.
  assert (Hv : ∃ v,
    v ∈ solar (@Page.run float F64_plain no_hit failed_visit page_without_close)
    ∧ Solar.closeBtn v = None).
  { eexists. split; [vm_compute; apply list_elem_of_here|reflexivity]. }
  destruct Hv as (v & Hv & Hc).
  refine (@failed_activation_is_final float F64_plain no_hit _ v
            [Page.AnimationFrame; Page.TweenCompletes 0] _ Hv Hc).
  apply reachable_run. constructor.
Defined.


(** ** The elements of the document *)

Section Elements.
Context {num : Type} `{!JSNumber num}.
Variable raycast : @Vector2 num → @Camera num → @Object3D num → list num.
Implicit Types (w : World num) (doc : gmap string Element).










End Elements.

(** ** Starting the solar system *)

Section Start.
Context {num : Type} `{!JSNumber num}.
Variable raycast : @Vector2 num → @Camera num → @Object3D num → list num.
Implicit Types (w : World num) (v : Solar.Env num).






End Start.



(** ** The canvases follow the window *)

Section Resize.
Context {num : Type} `{!JSNumber num}.
Variable raycast : @Vector2 num → @Camera num → @Object3D num → list num.
Implicit Types (w : World num).
Local Open Scope js_scope.






Lemma fmap_alter_neutral {A B} (g : A → B) (f : A → A) e (l : list A) :
  (∀ x, g (f x) = g x) → g <$> alter f e l = g <$> l.
Proof.
  intros Hf. apply list_eq. intros i. rewrite !list_lookup_fmap.
  destruct (decide (e = i)) as [->|Hne].
  - rewrite list_lookup_alter_eq. destruct (l !! i); cbn; [|done]. by rewrite Hf.
  - by rewrite list_lookup_alter_ne.
Qed.

















End Resize.


(** On the sample page the resize to 800 by 600 reaches both canvases. *)
Example resize_reaches_both :
  let w :=
    @Page.run float F64_plain no_hit
      (sample_visit ++ [Page.Resize (F64.literal 800 0) (F64.literal 600 0)]) sample_page in
  (width ∘ Solar.renderer) <$> solar w = [F64.literal 800 0]
  ∧ (width ∘ Landing.renderer) <$> landing w = Some (F64.literal 800 0).
Proof. vm_compute. split; reflexivity. Qed.

(** ** The census of a scene *)

Section Census.
Context {num : Type} `{!JSNumber num}.
Implicit Types (sto : Store num) (rng : Random num).

(** The mesh and the ring [initSolarSystem] builds for an entry of
    [planetsData], the mesh with the number [Math.random] returned. *)
Definition planet_mesh (data : @PlanetScript.PlanetData num) (u : num) : @Object3D num :=
  mkObject3D
    (Mesh (SphereGeometry (PlanetScript.data_size data) 32 32)
          (MeshStandardMaterial (PlanetScript.data_color data)))
    origin origin
    (Some (mkUserData (PlanetScript.data_name data) (PlanetScript.data_content data)
             (PlanetScript.data_orbitalRadius data) (PlanetScript.data_speed data)
             (u * Math_PI * lit 2 0)%js)).

Definition planet_ring (data : @PlanetScript.PlanetData num) : @Object3D num :=
  mkObject3D
    (Mesh (RingGeometry (PlanetScript.data_orbitalRadius data - lit 2 1)%js
                        (PlanetScript.data_orbitalRadius data + lit 2 1)%js 64)
          (MeshBasicMaterial 0x444444 true true (lit 4 1)))
    origin (mkVector3 (Math_PI / lit 2 0)%js (lit 0 0) (lit 0 0)) None.

(** Every second address from [n] on. *)
Fixpoint every_other (n count : nat) : list nat :=
  match count with
  | O => []
  | S count => n :: every_other (S (S n)) count
  end.

Lemma add_planet_census scene planets sto rng data :
  PlanetScript.add_planet (scene, planets, sto, rng) data
  = ((scene ++ [next_object sto]) ++ [S (next_object sto)],
     planets ++ [next_object sto],
     mkStore
       (<[S (next_object sto) := planet_ring data]>
          (<[next_object sto := planet_mesh data (entropy rng (drawn rng))]> (objects sto)))
       (S (S (next_object sto))),
     mkRandom (entropy rng) (S (drawn rng))).
Proof. reflexivity. Qed.

Lemma elem_of_every_other a n count :
  a ∈ every_other n count ↔ ∃ k, k < count ∧ a = n + 2 * k.
Proof.
  revert n. induction count as [|count IH]; intros n; cbn [every_other].
  - rewrite elem_of_nil. split; [done|]. intros (k & Hk & _). lia.
  - rewrite elem_of_cons, IH. split.
    + intros [->|(k & Hk & ->)]; [exists 0; lia|exists (S k); lia].
    + intros (k & Hk & ->). destruct k as [|k]; [left; lia|right; exists k; lia].
Qed.

Lemma NoDup_every_other n count : NoDup (every_other n count).
Proof.
  revert n. induction count as [|count IH]; intros n; cbn [every_other];
    [apply NoDup_nil_2|].
  apply NoDup_cons. split; [|apply IH].
  rewrite elem_of_every_other. intros (k & _ & Hk). lia.
Qed.

(** The loop over [planetsData], entry after entry. *)
Lemma add_planets_census table :
  ∀ scene planets sto rng,
    ∃ sto',
      foldl PlanetScript.add_planet (scene, planets, sto, rng) table
      = (scene ++ seq (next_object sto) (2 * length table),
         planets ++ every_other (next_object sto) (length table),
         sto',
         mkRandom (entropy rng) (drawn rng + length table))
      ∧ next_object sto' = next_object sto + 2 * length table
      ∧ (∀ a, a < next_object sto → objects sto' !! a = objects sto !! a)
      ∧ ∀ k data, table !! k = Some data →
          objects sto' !! (next_object sto + 2 * k)
          = Some (planet_mesh data (entropy rng (drawn rng + k)))
          ∧ objects sto' !! S (next_object sto + 2 * k) = Some (planet_ring data).
Proof.
  induction table as [|data table IH]; intros scene planets sto rng.
  - exists sto. cbn [foldl length Nat.mul seq every_other]. rewrite !app_nil_r.
    destruct rng as [f n]. cbn [entropy drawn]. rewrite Nat.add_0_r.
    split; [reflexivity|]. split; [lia|]. split; [done|]. intros k data' Hk. done.
  - cbn [foldl]. rewrite add_planet_census.
    destruct (IH ((scene ++ [next_object sto]) ++ [S (next_object sto)])
                 (planets ++ [next_object sto])
                 (mkStore
                    (<[S (next_object sto) := planet_ring data]>
                       (<[next_object sto
                          := planet_mesh data (entropy rng (drawn rng))]> (objects sto)))
                    (S (S (next_object sto))))
                 (mkRandom (entropy rng) (S (drawn rng))))
      as (sto' & -> & Hnext & Hold & Hnew).
    cbn [next_object objects entropy drawn] in *.
    exists sto'. split; [|split; [|split]].
    + cbn [length].
      replace (2 * S (length table)) with (S (S (2 * length table))) by lia.
      replace (drawn rng + S (length table)) with (S (drawn rng) + length table) by lia.
      cbn [seq every_other]. by rewrite <- !app_assoc.
    + cbn [length]. lia.
    + intros a Ha. rewrite Hold by lia. by rewrite !lookup_insert_ne by lia.
    + intros k data' Hk. destruct k as [|k].
      * injection Hk as <-. rewrite Nat.mul_0_r, !Nat.add_0_r.
        rewrite !Hold by lia. rewrite lookup_insert_eq.
        rewrite lookup_insert_ne by lia. rewrite lookup_insert_eq. done.
      * cbn [lookup list_lookup] in Hk. destruct (Hnew k data' Hk) as [Hm Hr].
        replace (next_object sto + 2 * S k) with (S (S (next_object sto)) + 2 * k) by lia.
        replace (drawn rng + S k) with (S (drawn rng) + k) by lia. done.
Qed.

Lemma starfield_random n rng :
  (PlanetScript.starfield n rng).2 = mkRandom (entropy rng) (drawn rng + 3 * n).
Proof.
  unfold PlanetScript.starfield.
  destruct (star_loop PlanetScript.star solar_star solar_star_turn n
              (replicate (n * 3) (lit 0 0)) rng) as (_ & Hr & _); [|exact Hr].
  by rewrite length_replicate.
Qed.


(** The scene [initSolarSystem] builds, object by object: the lights, the
    star field and the sun are where [new] puts them, at the origin and
    not rotated. *)
Lemma build_scene_layout sto rng :
  let n := next_object sto in
  ∃ sto',
    PlanetScript.build_scene sto rng
    = (seq n 14, every_other (n + 4) 5, sto',
       mkRandom (entropy rng) (drawn rng + 6005))
    ∧ next_object sto' = n + 14
    ∧ (∀ a, a < n → objects sto' !! a = objects sto !! a)
    ∧ objects sto' !! n = Some (new_object (AmbientLight 0x555555))
    ∧ objects sto' !! (n + 1) = Some (new_object (PointLight 0xffffff (lit 2 0) (lit 0 0)))
    ∧ objects sto' !! (n + 2)
      = Some (new_object (Points (BufferGeometry (PlanetScript.starfield 2000 rng).1 3)
                                 (PointsMaterial 0xffffff (lit 15 1) true)))
    ∧ objects sto' !! (n + 3)
      = Some (new_object (Mesh (SphereGeometry (lit 40 0) 32 32)
                               (MeshBasicMaterial 0xffaa00 false false (lit 1 0))))
    ∧ ∀ k data, PlanetScript.planetsData !! k = Some data →
        objects sto' !! (n + 4 + 2 * k)
        = Some (planet_mesh data (entropy rng (drawn rng + 6000 + k)))
        ∧ objects sto' !! (n + 5 + 2 * k) = Some (planet_ring data).
Proof.
  intros n. unfold PlanetScript.build_scene. cbv zeta. cbn [scene_add].
  pose proof (starfield_random PlanetScript.starCount rng) as Hrng.
  change PlanetScript.starCount with 2000 in *.
  destruct (PlanetScript.starfield 2000 rng) as [sp rng1]. cbn [fst snd] in *. subst rng1.
  match goal with
  | |- ∃ sto', foldl _ (?scene0, _, ?sto0, ?rng0) _ = _ ∧ _ =>
      destruct (add_planets_census PlanetScript.planetsData scene0 [] sto0 rng0)
        as (sto' & Hfold & Hnext & Hold & Hnew)
  end.
  exists sto'. rewrite Hfold. clear Hfold.
  cbn [next_object objects entropy drawn] in *. fold n in Hnext, Hold, Hnew |- *.
  change (length PlanetScript.planetsData) with 5 in *.
  split; [|split; [|split; [|split; [|split; [|split; [|split]]]]]].
  - replace 6005 with (3 * 2000 + 5) by (vm_compute; reflexivity).
    rewrite Nat.add_assoc.
    replace (n + 4) with (S (S (S (S n)))) by lia. reflexivity.
  - lia.
  - intros a Ha. rewrite Hold by lia. by rewrite !lookup_insert_ne by lia.
  - rewrite Hold by lia. rewrite !lookup_insert_ne by lia. by rewrite lookup_insert_eq.
  - rewrite Hold by lia. rewrite !lookup_insert_ne by lia.
    replace (n + 1) with (S n) by lia. by rewrite lookup_insert_eq.
  - rewrite Hold by lia. rewrite !lookup_insert_ne by lia.
    replace (n + 2) with (S (S n)) by lia. by rewrite lookup_insert_eq.
  - rewrite Hold by lia.
    replace (n + 3) with (S (S (S n))) by lia. by rewrite lookup_insert_eq.
  - intros k data Hk. destruct (Hnew k data Hk) as [Hm Hr].
    replace (n + 4 + 2 * k) with (S (S (S (S n))) + 2 * k) by lia.
    replace (n + 5 + 2 * k) with (S (S (S (S (S n))) + 2 * k)) by lia.
    replace 6000 with (3 * 2000) by (vm_compute; reflexivity).
    done.
Qed.

(** X8. Whatever the store and the random numbers, the scene
    [initSolarSystem] builds has exactly fourteen children, added to the
    store at fourteen consecutive addresses: the ambient light, the point
    light, the star field of 2000 points, the sun, then for each of the
    five entries of [planetsData] its mesh followed by its ring. The
    [planets] array holds the five meshes and nothing else. Building it
    draws 6005 random numbers: three per star, then one per planet, which
    times pi times 2 is the planet's first angle. No object that was in
    the store is touched. *)
Theorem build_scene_census sto rng :
  let n := next_object sto in
  ∃ sto',
    PlanetScript.build_scene sto rng
    = (seq n 14, every_other (n + 4) 5, sto',
       mkRandom (entropy rng) (drawn rng + 6005))
    ∧ next_object sto' = n + 14
    ∧ (∀ a, a < n → objects sto' !! a = objects sto !! a)
    ∧ kind <$> objects sto' !! n = Some (AmbientLight 0x555555)
    ∧ kind <$> objects sto' !! (n + 1) = Some (PointLight 0xffffff (lit 2 0) (lit 0 0))
    ∧ kind <$> objects sto' !! (n + 2)
      = Some (Points (BufferGeometry (PlanetScript.starfield 2000 rng).1 3)
                     (PointsMaterial 0xffffff (lit 15 1) true))
    ∧ kind <$> objects sto' !! (n + 3)
      = Some (Mesh (SphereGeometry (lit 40 0) 32 32)
                   (MeshBasicMaterial 0xffaa00 false false (lit 1 0)))
    ∧ ∀ k data, PlanetScript.planetsData !! k = Some data →
        objects sto' !! (n + 4 + 2 * k)
        = Some (planet_mesh data (entropy rng (drawn rng + 6000 + k)))
        ∧ objects sto' !! (n + 5 + 2 * k) = Some (planet_ring data).
Proof.
  intros n.
  destruct (build_scene_layout sto rng)
    as (sto' & Heq & Hnext & Hold & Ha & Hp & Hf & Hsun & Hplanets).
  fold n in Heq, Hnext, Hold, Ha, Hp, Hf, Hsun, Hplanets.
  exists sto'. rewrite Ha, Hp, Hf, Hsun.
  split; [exact Heq|]. split; [exact Hnext|]. split; [exact Hold|].
  do 4 (split; [reflexivity|]). exact Hplanets.
Qed.

End Census.

(** ** One frame, one tick *)

Section Ticks.
Context {num : Type} `{!JSNumber num}.
Variable raycast : @Vector2 num → @Camera num → @Object3D num → list num.
Implicit Types (w : World num) (sto : Store num).

(** Where the objects of the two scenes are in the store: the star field
    of the landing page below every scene of the solar system, each of
    which occupies fourteen addresses, its planets at every second
    address from the fifth on. *)
Definition placed (w : World num) : Prop :=
  ∃ lv, landing w = Some lv
        ∧ Landing.stars lv < next_object (store w)
        ∧ ∀ v, v ∈ solar w →
            ∃ n, Solar.planets v = every_other (n + 4) 5
                 ∧ Landing.stars lv < n ∧ n + 14 ≤ next_object (store w).

Definition layout (w : World num) : option nat * nat * list (list nat) :=
  (Landing.stars <$> landing w, next_object (store w), Solar.planets <$> solar w).

Lemma placed_same w w' : layout w' = layout w → placed w → placed w'.
Proof.
  unfold layout. intros [= Hl Hn Hs] (lv & Hlv & Hlt & Hsolar).
  rewrite Hlv in Hl. destruct (landing w') as [lv'|] eqn:Hlv'; [|done].
  injection Hl as Hl. exists lv'. rewrite Hn, Hl. split; [done|]. split; [done|].
  intros v' Hv'. apply list_elem_of_lookup in Hv' as [e Hv'].
  pose proof (f_equal (λ l, l !! e) Hs) as He. cbv beta in He.
  rewrite !list_lookup_fmap, Hv' in He.
  destruct (solar w !! e) as [v|] eqn:Hv; [|done]. injection He as ->.
  apply Hsolar. by apply list_elem_of_lookup_2 with e.
Qed.

Lemma placed_grow w w' :
  Landing.stars <$> landing w' = Landing.stars <$> landing w →
  next_object (store w) ≤ next_object (store w') →
  Solar.planets <$> solar w' = Solar.planets <$> solar w →
  placed w → placed w'.
Proof.
  intros Hl Hn Hs (lv & Hlv & Hlt & Hsolar).
  rewrite Hlv in Hl. destruct (landing w') as [lv'|] eqn:Hlv'; [|done].
  injection Hl as Hl. exists lv'. rewrite Hl. split; [done|]. split; [lia|].
  intros v' Hv'. apply list_elem_of_lookup in Hv' as [e Hv'].
  pose proof (f_equal (λ l, l !! e) Hs) as He. cbv beta in He.
  rewrite !list_lookup_fmap, Hv' in He.
  destruct (solar w !! e) as [v|] eqn:Hv; [|done]. injection He as ->.
  destruct (Hsolar v) as (n & Hp & Hlt' & Hle); [by apply list_elem_of_lookup_2 with e|].
  exists n. split; [done|]. split; [done|lia].
Qed.

Lemma layout_update_landing f w :
  (∀ v, Landing.stars (f v) = Landing.stars v) → layout (update_landing f w) = layout w.
Proof.
  intros Hf. unfold layout. wsimpl. do 2 f_equal.
  destruct (landing w); cbn; [|done]. by rewrite Hf.
Qed.

Lemma layout_update_solar e f w :
  (∀ v, Solar.planets (f v) = Solar.planets v) → layout (update_solar e f w) = layout w.
Proof. intros Hf. unfold layout. wsimpl. f_equal. by apply fmap_alter_neutral. Qed.

Lemma next_object_orbit_all planets sto :
  next_object (orbit_all planets sto) = next_object sto.
Proof.
  unfold orbit_all. revert sto. induction planets as [|a planets IH]; intros sto; [done|].
  cbn [foldl]. by rewrite IH.
Qed.

Lemma layout_animate e w : layout (PlanetScript.animate e w) = layout w.
Proof.
  unfold layout. rewrite animate_solar, animate_landing, animate_store.
  rewrite fmap_alter_neutral by done.
  destruct (solar w !! e); [|done]. by rewrite next_object_orbit_all.
Qed.

Lemma layout_landing_animate w : layout (Script.animate w) = layout w.
Proof.
  unfold Script.animate. cbv zeta. wsimpl. destruct (landing w) as [v|] eqn:Hv; [|done].
  unfold layout. wsimpl. by rewrite Hv.
Qed.

Lemma layout_onCanvasClick e event w :
  layout (PlanetScript.onCanvasClick raycast e event w) = layout w.
Proof.
  destruct (onCanvasClick_solar raycast e event w) as (mouse & Hs).
  unfold layout. rewrite Hs, (onCanvasClick_landing raycast e event w).
  rewrite (onCanvasClick_store raycast e event w).
  by rewrite fmap_alter_neutral.
Qed.

Lemma placed_call f ev w : placed w → placed (Page.call raycast f ev w).
Proof.
  intros Hw. destruct f, ev; cbn [Page.call]; try exact Hw.
  - revert Hw. apply placed_same, layout_update_landing. by intros v.
  - revert Hw. apply placed_same, layout_update_landing. by intros v.
  - revert Hw. apply placed_same, layout_update_landing. by intros v.
  - revert Hw. apply placed_same, layout_onCanvasClick.
  - revert Hw. apply placed_same. unfold PlanetScript.closeClick.
    repeat case_match; reflexivity.
  - revert Hw. apply placed_same, layout_update_solar. by intros v.
  - revert Hw. apply placed_same, layout_update_solar. by intros v.
  - revert Hw. apply placed_same, layout_update_solar. by intros v.
Qed.

Lemma placed_initSolarSystem w : placed w → placed (PlanetScript.initSolarSystem w).2.
Proof.
  intros Hw.
  assert (Hnew : ∀ scene planets sto rng,
    PlanetScript.build_scene (store w) (random w) = (scene, planets, sto, rng) →
    placed (with_env w scene planets sto rng)).
  { intros scene planets sto rng Hbuild.
    destruct (build_scene_layout (store w) (random w)) as (sto' & Heq & Hnext & _).
    rewrite Hbuild in Heq. injection Heq as _ -> -> _. clear Hbuild.
    destruct Hw as (lv & Hlv & Hlt & Hsolar). exists lv.
    unfold with_env, flagged. wsimpl. rewrite Hnext. split; [done|]. split; [lia|].
    intros v Hv. apply elem_of_app in Hv as [Hv|Hv].
    - destruct (Hsolar v Hv) as (n & Hp & Hlt' & Hle). exists n. split; [done|]. lia.
    - apply list_elem_of_singleton in Hv as ->. exists (next_object (store w)).
      cbn [new_env Solar.planets]. split; [done|]. lia. }
  destruct (initSolarSystem_activation w)
    as [Hguard|c scene planets sto rng _ _ Hbuild _|c scene planets sto rng _ _ Hbuild _];
    cbn [snd].
  - exact Hw.
  - by apply Hnew.
  - apply (placed_same (with_env w scene planets sto rng)); [|by apply Hnew].
    clear Hbuild. by rewrite layout_animate.
Qed.

Lemma placed_run_callback f w : placed w → placed (Page.run_callback f w).
Proof.
  intros Hw. destruct f; cbn [Page.run_callback].
  - revert Hw. apply placed_same, layout_landing_animate.
  - unfold Script.onComplete.
    destruct (getElementById "solar-container" w) as [container|]; [|exact Hw].
    cbv zeta. wsimpl. destruct (has_initSolarSystem w); [|exact Hw].
    apply placed_initSolarSystem. exact Hw.
  - revert Hw. apply placed_same, layout_animate.
  - revert Hw. apply placed_same. unfold PlanetScript.hidePanel.
    repeat case_match; reflexivity.
Qed.

Lemma placed_loaded markup width height ratio planetScript random :
  placed (Page.loaded markup width height ratio planetScript random).
Proof.
  unfold Page.loaded.
  assert (Hsolar : solar (Page.page markup width height ratio planetScript random) = [])
    by reflexivity.
  revert Hsolar. generalize (Page.page markup width height ratio planetScript random).
  intros w Hsolar.
  assert (Hland : ∀ sp rng, placed (Script.animate (with_landing w sp rng))).
  { intros sp rng. apply (placed_same (with_landing w sp rng));
      [apply layout_landing_animate|].
    unfold with_landing. eexists. wsimpl. split; [reflexivity|].
    cbn [landing_env Landing.stars next_object scene_add snd]. split; [lia|].
    rewrite Hsolar. intros v Hv. by apply elem_of_nil in Hv. }
  destruct (onDOMContentLoaded_booted w); cbn [snd]; [apply Hland|].
  generalize (Hland sp rng). generalize (Script.animate (with_landing w sp rng)).
  intros w1. apply placed_same. reflexivity.
Qed.

Lemma placed_reachable w : Page.reachable raycast w → placed w.
Proof.
  apply reachable_by_invariant.
  - apply placed_loaded.
  - apply step_preserves; auto using placed_call, placed_run_callback.
Qed.

(** The loop of [animate] applies its body once to each planet. *)
Lemma orbit_all_lookup planets sto a :
  NoDup planets →
  objects (orbit_all planets sto) !! a
  = if decide (a ∈ planets) then PlanetScript.orbit <$> objects sto !! a
    else objects sto !! a.
Proof.
  unfold orbit_all. revert sto.
  induction planets as [|b planets IH]; intros sto Hnd.
  { cbn [foldl]. case_decide as Hin; [by apply elem_of_nil in Hin|done]. }
  apply NoDup_cons in Hnd as [Hb Hnd]. cbn [foldl]. rewrite (IH _ Hnd).
  cbn [update_object objects]. destruct (decide (a = b)) as [->|Hne].
  - rewrite lookup_alter_eq. rewrite decide_False by done.
    rewrite decide_True by (by left). done.
  - rewrite lookup_alter_ne by done.
    destruct (decide (a ∈ planets)) as [Hin|Hin].
    + rewrite decide_True by (by right). done.
    + rewrite decide_False; [done|]. rewrite elem_of_cons. tauto.
Qed.

(** X9. A frame is one tick for every planet of the running solar
    system: the store after the frame holds, at the address of each
    planet, the planet as one application of the body of the loop of
    [animate] leaves it (angle advanced by speed once, position
    recomputed from the new angle, rotation.y advanced by 0.01), and the
    renderer of the solar system has drawn one more frame. *)
Theorem frame_ticks_each_planet_once w v :
  Page.reachable raycast w → v ∈ solar w → Solar.closeBtn v ≠ None →
  let w' := Page.step raycast Page.AnimationFrame w in
  (∀ a, a ∈ Solar.planets v →
     objects (store w') !! a = PlanetScript.orbit <$> objects (store w) !! a)
  ∧ ∃ v', solar w' = [v']
          ∧ Solar.planets v' = Solar.planets v
          ∧ rendered (Solar.renderer v') = S (rendered (Solar.renderer v)).
Proof.
  intros Hw Hv Hc w'.
  pose proof (orderly_reachable raycast w Hw) as Ho. pose proof Ho as [Hs _].
  destruct (placed_reachable w Hw) as (lv & Hlv & Hlt & Hsolar).
  destruct (Hsolar v Hv) as (n & Hp & Hlt' & Hle).
  assert (Hs1 : solar w = [v]).
  { pose proof (steady_single w Hs) as Hlen.
    destruct (solar w) as [|v0 [|v1 l]]; cbn in Hlen; try lia.
    - by apply elem_of_nil in Hv.
    - by apply list_elem_of_singleton in Hv as ->. }
  assert (Hph : phase w = Running).
  { rewrite (phase_cons w v [] Hs1). by destruct (Solar.closeBtn v). }
  assert (Hw' : w' = PlanetScript.animate 0 (Script.animate (set_frame_requests [] w))).
  { subst w'. rewrite (step_phased raycast _ w Ho). cbn [phased_step]. by rewrite Hph. }
  assert (Hsolar1 : solar (Script.animate (set_frame_requests [] w)) = [v]).
  { unfold Script.animate. cbv zeta. wsimpl. by rewrite Hlv. }
  assert (Hstore1 : store (Script.animate (set_frame_requests [] w))
                    = update_object (Landing.stars lv) Script.spin (store w)).
  { unfold Script.animate. cbv zeta. wsimpl. by rewrite Hlv. }
  split.
  - intros a Ha. rewrite Hw', animate_store, Hsolar1. cbn [lookup list_lookup].
    rewrite orbit_all_lookup by (rewrite Hp; apply NoDup_every_other).
    rewrite decide_True by done. rewrite Hstore1. cbn [update_object objects].
    rewrite lookup_alter_ne; [done|].
    rewrite Hp in Ha. apply elem_of_every_other in Ha as (k & _ & ->). lia.
  - exists (animate_env v). rewrite Hw', animate_solar, Hsolar1. done.
Qed.

End Ticks.

Lemma frame_ticks_each_planet_once_witness :
  let w := @Page.run float F64_plain no_hit sample_visit sample_page in
  ∃ v', solar (@Page.step float F64_plain no_hit Page.AnimationFrame w) = [v']
        ∧ rendered (Solar.renderer v') = 5.
Proof.
  intros w.
  assert (Hv : ∃ v, v ∈ solar w ∧ Solar.closeBtn v ≠ None
                    ∧ rendered (Solar.renderer v) = 4).
  { eexists. split; [vm_compute; apply list_elem_of_here|]. split; [discriminate|reflexivity]. }
  destruct Hv as (v & Hv & Hc & Hr).
  destruct (@frame_ticks_each_planet_once float F64_plain no_hit w v) as (_ & v' & H1 & _ & H2);
    [apply reachable_run; constructor|exact Hv|exact Hc|].
  exists v'. split; [exact H1|]. rewrite H2, Hr. reflexivity.
Defined.

(** ** The pointer, normalised *)

Section IdealPointer.
Local Open Scope R_scope.

(** X10. Over the reals, with a window of positive size and the pointer
    inside it, both mousemove listeners store a pair in
    [-0.5, 0.5] x [-0.5, 0.5]: the position of the pointer relative to
    the centre of the window, as a fraction of the window's size; and
    they change nothing else of the closure. *)
Theorem mouse_normalised (w : World R) (x y : R) :
  0 < innerWidth w → 0 < innerHeight w →
  0 <= x <= innerWidth w → 0 <= y <= innerHeight w →
  (∀ v, landing w = Some v →
     ∃ mx my, landing (@Script.onMouseMove R Ideal x y w) = Some (Landing.set_mouse mx my v)
              ∧ mx = x / innerWidth w - 1 / 2 ∧ my = y / innerHeight w - 1 / 2
              ∧ - (1 / 2) <= mx <= 1 / 2 ∧ - (1 / 2) <= my <= 1 / 2)
  ∧ (∀ e v, solar w !! e = Some v →
       ∃ mx my, solar (@PlanetScript.onMouseMove R Ideal e x y w) !! e
                = Some (Solar.set_mouseXY mx my v)
                ∧ mx = x / innerWidth w - 1 / 2 ∧ my = y / innerHeight w - 1 / 2
                ∧ - (1 / 2) <= mx <= 1 / 2 ∧ - (1 / 2) <= my <= 1 / 2).
Proof.
  intros Hw Hh Hx Hy.
  assert (Hrange : ∀ a b, 0 < b → 0 <= a <= b → - (1 / 2) <= a / b - 1 / 2 <= 1 / 2).
  { intros a b Hb Ha.
    assert (Hinv : 0 < / b) by (apply Rinv_0_lt_compat; lra).
    assert (Hone : b * / b = 1) by (field; lra).
    unfold Rdiv. nra. }
  assert (Hhalf : @lit R Ideal 5 1 = 1 / 2) by (cbn; unfold Real.literal; cbn; lra).
  split.
  - intros v Hv. exists (x / innerWidth w - 1 / 2), (y / innerHeight w - 1 / 2).
    split; [|by auto].
    unfold Script.onMouseMove, update_landing. cbn [landing set_landing].
    rewrite Hv. cbn [fmap option_fmap option_map Ideal num_sub num_div].
    by rewrite Hhalf.
  - intros e v Hv. exists (x / innerWidth w - 1 / 2), (y / innerHeight w - 1 / 2).
    split; [|by auto].
    unfold PlanetScript.onMouseMove, update_solar. cbn [solar set_solar].
    rewrite list_lookup_alter_eq, Hv. cbn [fmap option_fmap option_map Ideal num_sub num_div].
    by rewrite Hhalf.
Qed.

End IdealPointer.

(** A window of 1920 by 1080 over the reals, with the closure of the
    landing page in place. *)
Definition ideal_page : World R :=
  let w := @Page.page R full_markup 1920%R 1080%R 1%R true (λ _, (1 / 2)%R) in
  @set_landing R (Some (@landing_env R Ideal w)) w.

Lemma mouse_normalised_witness :
  ∃ mx my,
    landing (@Script.onMouseMove R Ideal 480%R 1080%R ideal_page)
    = Some (Landing.set_mouse mx my
              (@landing_env R Ideal
                 (@Page.page R full_markup 1920%R 1080%R 1%R true (λ _, (1 / 2)%R))))
    ∧ (- (1 / 2) <= mx <= 1 / 2)%R ∧ (- (1 / 2) <= my <= 1 / 2)%R.
Proof.
  destruct (proj1 (mouse_normalised ideal_page 480%R 1080%R
                     ltac:(cbn; lra) ltac:(cbn; lra) ltac:(cbn; lra) ltac:(cbn; lra))
              _ eq_refl)
    as (mx & my & H1 & _ & _ & H2 & H3).
  exists mx, my. auto.
Defined.

(** ** The pointer of a click *)

Section IdealClick.
Variable raycast : @Vector2 R → @Camera R → @Object3D R → list R.
Local Open Scope R_scope.

Lemma onCanvasClick_pointer {num : Type} `{!JSNumber num} rc e event (w : World num) v :
  solar w !! e = Some v →
  solar (PlanetScript.onCanvasClick rc e event w) !! e
  = Some (Solar.set_raycaster (Some (pointer event, Solar.camera v))
            (Solar.set_mouse (pointer event) v)).
Proof.
  intros Hv. unfold PlanetScript.onCanvasClick. rewrite Hv. cbv zeta.
  repeat case_match; wsimpl; by rewrite list_lookup_alter_eq, Hv.
Qed.

(** X11. Over the reals, a click inside the box of the canvas (of
    positive size) is turned into normalised device coordinates in
    [-1, 1] x [-1, 1], x growing to the right from -1 at the left edge,
    y growing upwards from -1 at the bottom edge to 1 at the top edge;
    the pair is stored in [mouse] and handed to the raycaster together
    with the camera, whether or not the ray hits a planet. *)
Theorem click_pointer_normalised (w : World R) e v event :
  solar w !! e = Some v →
  0 < PlanetScript.rect_width event → 0 < PlanetScript.rect_height event →
  PlanetScript.rect_left event <= PlanetScript.clientX event
    <= PlanetScript.rect_left event + PlanetScript.rect_width event →
  PlanetScript.rect_top event <= PlanetScript.clientY event
    <= PlanetScript.rect_top event + PlanetScript.rect_height event →
  ∃ v', solar (@PlanetScript.onCanvasClick R Ideal raycast e event w) !! e = Some v'
        ∧ Solar.raycaster v' = Some (Solar.mouse v', Solar.camera v)
        ∧ v2_x (Solar.mouse v')
          = 2 * ((PlanetScript.clientX event - PlanetScript.rect_left event)
                 / PlanetScript.rect_width event) - 1
        ∧ v2_y (Solar.mouse v')
          = 1 - 2 * ((PlanetScript.clientY event - PlanetScript.rect_top event)
                     / PlanetScript.rect_height event)
        ∧ -1 <= v2_x (Solar.mouse v') <= 1
        ∧ -1 <= v2_y (Solar.mouse v') <= 1.
Proof.
  intros Hv Hw Hh Hx Hy.
  assert (Hrange : ∀ a b, 0 < b → 0 <= a <= b → 0 <= a / b <= 1).
  { intros a b Hb Ha.
    assert (Hinv : 0 < / b) by (apply Rinv_0_lt_compat; lra).
    assert (Hone : b * / b = 1) by (field; lra).
    unfold Rdiv. nra. }
  eexists. split; [by apply onCanvasClick_pointer|].
  cbn [Solar.raycaster Solar.mouse Solar.set_raycaster Solar.set_mouse Solar.camera
       pointer v2_x v2_y Ideal lit num_add num_sub num_mul num_div num_neg].
  rewrite !Real_literal_integer.
  pose proof (Hrange (PlanetScript.clientX event - PlanetScript.rect_left event)
                (PlanetScript.rect_width event) Hw ltac:(lra)) as Hrx.
  pose proof (Hrange (PlanetScript.clientY event - PlanetScript.rect_top event)
                (PlanetScript.rect_height event) Hh ltac:(lra)) as Hry.
  split; [reflexivity|]. repeat split; lra.
Qed.

End IdealClick.

Lemma click_pointer_normalised_witness :
  let w := @set_solar R [@new_env R Ideal ideal_page [] []] ideal_page in
  let event := @PlanetScript.mkClickData R 480%R 0%R 0%R 0%R 1920%R 1080%R in
  ∃ v', solar (@PlanetScript.onCanvasClick R Ideal (λ _ _ _, []) 0 event w) !! 0 = Some v'
        ∧ v2_x (Solar.mouse v') = (2 * ((480 - 0) / 1920) - 1)%R
        ∧ v2_y (Solar.mouse v') = (1 - 2 * ((0 - 0) / 1080))%R.
Proof.
  intros w event.
  destruct (click_pointer_normalised (λ _ _ _, []) w 0
              (@new_env R Ideal ideal_page [] []) event)
    as (v' & H1 & _ & H2 & H3 & _);
    [reflexivity|cbn; lra|cbn; lra|cbn; lra|cbn; lra|].
  exists v'. auto.
Defined.

(** ** The easing of the cameras *)

Section IdealEasing.
Local Open Scope R_scope.

Lemma landing_parallax_step (v : Landing.Env R) :
  let v' := @Script.parallax R Ideal v in
  let p := cam_position (Landing.camera v) in
  let p' := cam_position (Landing.camera v') in
  v_x p' - 50 * Landing.mouseX v = 19 / 20 * (v_x p - 50 * Landing.mouseX v)
  ∧ v_y p' + 50 * Landing.mouseY v = 19 / 20 * (v_y p + 50 * Landing.mouseY v)
  ∧ v_z p' = v_z p
  ∧ Landing.mouseX v' = Landing.mouseX v ∧ Landing.mouseY v' = Landing.mouseY v
  ∧ Landing.targetX v' = 50 * Landing.mouseX v ∧ Landing.targetY v' = 50 * Landing.mouseY v
  ∧ rendered (Landing.renderer v') = S (rendered (Landing.renderer v)).
Proof.
  unfold Script.parallax. cbv zeta.
  cbn [Landing.camera Landing.renderer Landing.mouseX Landing.mouseY Landing.targetX
       Landing.targetY Landing.set_target Landing.set_camera Landing.set_renderer
       cam_position set_cam_position lookAt render rendered orientation origin
       v_x v_y v_z Ideal lit num_add num_sub num_mul num_neg].
  unfold Real.literal. cbn [pow]. repeat split; field.
Qed.

Lemma solar_parallax_step (v : Solar.Env R) :
  let v' := @animate_env R Ideal v in
  let p := cam_position (Solar.camera v) in
  let p' := cam_position (Solar.camera v') in
  v_x p' - 200 * Solar.mouseX v = 49 / 50 * (v_x p - 200 * Solar.mouseX v)
  ∧ v_y p' + 100 * Solar.mouseY v = 49 / 50 * (v_y p + 100 * Solar.mouseY v)
  ∧ v_z p' = v_z p
  ∧ Solar.mouseX v' = Solar.mouseX v ∧ Solar.mouseY v' = Solar.mouseY v
  ∧ rendered (Solar.renderer v') = S (rendered (Solar.renderer v)).
Proof.
  unfold animate_env, PlanetScript.parallax. cbv zeta.
  cbn [Solar.camera Solar.renderer Solar.mouseX Solar.mouseY
       Solar.set_camera Solar.set_renderer
       cam_position set_cam_position lookAt render rendered orientation
       v_x v_y v_z Ideal lit num_add num_sub num_mul num_neg].
  unfold Real.literal. cbn [pow]. repeat split; field.
Qed.

(** X12. Over the reals, each frame brings the camera of a screen
    nearer to the point the pointer asks for, by a fixed fraction of
    what is left: after [n] frames without a mousemove event the
    landing camera is at 50 mouseX + 0.95^n (x - 50 mouseX) and
    -50 mouseY + 0.95^n (y + 50 mouseY), the solar camera at
    200 mouseX + 0.98^n (x - 200 mouseX) and
    -100 mouseY + 0.98^n (y + 100 mouseY). The easing never overshoots
    and never touches the zoom distance; each frame is drawn once. *)
Theorem parallax_eases (n : nat) :
  (∀ v : Landing.Env R,
     let v' := Nat.iter n (@Script.parallax R Ideal) v in
     let p := cam_position (Landing.camera v) in
     let p' := cam_position (Landing.camera v') in
     v_x p' = 50 * Landing.mouseX v + (19 / 20) ^ n * (v_x p - 50 * Landing.mouseX v)
     ∧ v_y p' = - (50 * Landing.mouseY v) + (19 / 20) ^ n * (v_y p + 50 * Landing.mouseY v)
     ∧ v_z p' = v_z p
     ∧ Landing.mouseX v' = Landing.mouseX v ∧ Landing.mouseY v' = Landing.mouseY v
     ∧ rendered (Landing.renderer v') = (n + rendered (Landing.renderer v))%nat)
  ∧ (∀ v : Solar.Env R,
       let v' := Nat.iter n (@animate_env R Ideal) v in
       let p := cam_position (Solar.camera v) in
       let p' := cam_position (Solar.camera v') in
       v_x p' = 200 * Solar.mouseX v + (49 / 50) ^ n * (v_x p - 200 * Solar.mouseX v)
       ∧ v_y p' = - (100 * Solar.mouseY v) + (49 / 50) ^ n * (v_y p + 100 * Solar.mouseY v)
       ∧ v_z p' = v_z p
       ∧ Solar.mouseX v' = Solar.mouseX v ∧ Solar.mouseY v' = Solar.mouseY v
       ∧ rendered (Solar.renderer v') = (n + rendered (Solar.renderer v))%nat).
Proof.
  split.
  - intros v. induction n as [|n IH]; cbv zeta in *.
    { cbn [Nat.iter nat_rect pow]. repeat split; lra. }
    rewrite Nat.iter_succ.
    destruct IH as (Hx & Hy & Hz & Hmx & Hmy & Hr).
    destruct (landing_parallax_step (Nat.iter n (@Script.parallax R Ideal) v))
      as (Hx' & Hy' & Hz' & Hmx' & Hmy' & _ & _ & Hr').
    cbv zeta in *. rewrite Hmx, Hmy in *. rewrite Hx in Hx'. rewrite Hy in Hy'.
    rewrite Hz', Hz, Hmx', Hmy', Hr', Hr. cbn [pow].
    repeat split; try lra; try lia.
  - intros v. induction n as [|n IH]; cbv zeta in *.
    { cbn [Nat.iter nat_rect pow]. repeat split; lra. }
    rewrite Nat.iter_succ.
    destruct IH as (Hx & Hy & Hz & Hmx & Hmy & Hr).
    destruct (solar_parallax_step (Nat.iter n (@animate_env R Ideal) v))
      as (Hx' & Hy' & Hz' & Hmx' & Hmy' & Hr').
    cbv zeta in *. rewrite Hmx, Hmy in *. rewrite Hx in Hx'. rewrite Hy in Hy'.
    rewrite Hz', Hz, Hmx', Hmy', Hr', Hr. cbn [pow].
    repeat split; try lra; try lia.
Qed.

End IdealEasing.

(** ** The wheel, within the range *)

Section IdealWheel.
Local Open Scope R_scope.

Lemma ideal_zoom_distance lo hi (z d : R) :
  lo <= hi →
  (lo <= z + d * (1 / 2) <= hi → Rmax lo (Rmin hi (z + d * (1 / 2))) = z + d * (1 / 2))
  ∧ (hi <= z + d * (1 / 2) → Rmax lo (Rmin hi (z + d * (1 / 2))) = hi)
  ∧ (z + d * (1 / 2) <= lo → Rmax lo (Rmin hi (z + d * (1 / 2))) = lo).
Proof.
  intros Hle. repeat split; intros Hz.
  - by apply Rclamp_inside.
  - by apply Rclamp_above.
  - rewrite Rmin_right by lra. by rewrite Rmax_left by lra.
Qed.

(** X13. Over the reals, a wheel event whose half delta keeps the
    distance within the range of the screen moves the camera by exactly
    that much, so that the opposite event brings the camera back to
    where it was; an event that would leave the range leaves the camera
    on the bound it crossed. (Solar screen: [300, 1500]; landing screen:
    [500, 2000].) *)
Theorem wheel_round_trip (d : R) (c : @Camera R) :
  let z := v_z (cam_position c) in
  (300 <= z + d / 2 <= 1500 →
     v_z (cam_position (@PlanetScript.zoom R Ideal d c)) = z + d / 2
     ∧ (300 <= z <= 1500 →
        @PlanetScript.zoom R Ideal (- d) (@PlanetScript.zoom R Ideal d c) = c))
  ∧ (1500 <= z + d / 2 → v_z (cam_position (@PlanetScript.zoom R Ideal d c)) = 1500)
  ∧ (z + d / 2 <= 300 → v_z (cam_position (@PlanetScript.zoom R Ideal d c)) = 300)
  ∧ (500 <= z + d / 2 <= 2000 →
       v_z (cam_position (@Script.zoom R Ideal d c)) = z + d / 2
       ∧ (500 <= z <= 2000 →
          @Script.zoom R Ideal (- d) (@Script.zoom R Ideal d c) = c))
  ∧ (2000 <= z + d / 2 → v_z (cam_position (@Script.zoom R Ideal d c)) = 2000)
  ∧ (z + d / 2 <= 500 → v_z (cam_position (@Script.zoom R Ideal d c)) = 500).
Proof.
  intros z.
  assert (Hsolar : ∀ d' (c' : @Camera R),
    @PlanetScript.zoom R Ideal d' c'
    = set_cam_position
        (mkVector3 (v_x (cam_position c')) (v_y (cam_position c'))
           (Rmax 300 (Rmin 1500 (v_z (cam_position c') + d' * (1 / 2))))) c').
  { intros d' c'. unfold PlanetScript.zoom, PlanetScript.minZoom, PlanetScript.maxZoom.
    cbv zeta. cbn [set_cam_position cam_position v_x v_y v_z fov aspect near far
                   orientation Ideal lit num_add num_mul Math_max Math_min].
    rewrite !Real_literal_integer, Real_literal_half.
    replace (/ 2) with (1 / 2) by lra. reflexivity. }
  assert (Hlanding : ∀ d' (c' : @Camera R),
    @Script.zoom R Ideal d' c'
    = set_cam_position
        (mkVector3 (v_x (cam_position c')) (v_y (cam_position c'))
           (Rmax 500 (Rmin 2000 (v_z (cam_position c') + d' * (1 / 2))))) c').
  { intros d' c'. unfold Script.zoom, Script.minZoom, Script.maxZoom.
    cbv zeta. cbn [set_cam_position cam_position v_x v_y v_z fov aspect near far
                   orientation Ideal lit num_add num_mul Math_max Math_min].
    rewrite !Real_literal_integer, Real_literal_half.
    replace (/ 2) with (1 / 2) by lra. reflexivity. }
  destruct (ideal_zoom_distance 300 1500 z d ltac:(lra)) as (Hs1 & Hs2 & Hs3).
  destruct (ideal_zoom_distance 500 2000 z d ltac:(lra)) as (Hl1 & Hl2 & Hl3).
  assert (Hback : ∀ lo hi, lo <= hi → lo <= z <= hi → lo <= z + d / 2 <= hi →
    set_cam_position
      (mkVector3 (v_x (cam_position c)) (v_y (cam_position c))
         (Rmax lo (Rmin hi (Rmax lo (Rmin hi (z + d * (1 / 2))) + - d * (1 / 2))))) c
    = c).
  { intros lo hi Hle Hz Hzd.
    rewrite (Rclamp_inside lo hi (z + d * (1 / 2))) by lra.
    rewrite Rclamp_inside by lra.
    replace (z + d * (1 / 2) + - d * (1 / 2)) with z by lra.
    subst z. by destruct c as [? ? ? ? [? ? ?] ?]. }
  rewrite !Hsolar, !Hlanding.
  cbn [set_cam_position cam_position v_x v_y v_z]. fold z.
  split; [|split; [|split; [|split; [|split]]]].
  - intros Hz. split; [rewrite Hs1 by lra; lra|]. intros Hz0. apply (Hback 300 1500); lra.
  - intros Hz. apply Hs2. lra.
  - intros Hz. apply Hs3. lra.
  - intros Hz. split; [rewrite Hl1 by lra; lra|]. intros Hz0. apply (Hback 500 2000); lra.
  - intros Hz. apply Hl2. lra.
  - intros Hz. apply Hl3. lra.
Qed.

End IdealWheel.

Lemma wheel_round_trip_witness :
  let c := @set_cam_position R (mkVector3 0 200 800)%R
             (@new_camera R Ideal 60%R (16 / 9)%R 1%R 10000%R) in
  @PlanetScript.zoom R Ideal (- 1000)%R (@PlanetScript.zoom R Ideal 1000%R c) = c.
Proof.
  intros c.
  apply (proj1 (wheel_round_trip 1000%R c)); cbn; lra.
Defined.

(** ** The first angles *)

Section IdealAngles.
Local Open Scope R_scope.

(** X14. Over the reals, with [Math.random] in [0, 1): each of the five
    meshes in the [planets] array of a scene just built carries a first
    angle in [0, 2 pi), namely 2 pi times the number drawn for it, and
    still sits at the origin: it is the first tick of [animate], which
    [initSolarSystem] runs before it returns, that puts the planets on
    their orbits. *)
Theorem first_angles (sto : Store R) (rng : Random R) :
  (∀ k, 0 <= entropy rng k < 1) →
  ∀ a, a ∈ (@PlanetScript.build_scene R Ideal sto rng).1.1.2 →
    ∃ o u,
      objects (@PlanetScript.build_scene R Ideal sto rng).1.2 !! a = Some o
      ∧ userData o = Some u
      ∧ 0 <= angle u < 2 * PI
      ∧ position o = mkVector3 0 0 0.
Proof.
  intros Hrandom a Ha.
  destruct (@build_scene_layout R Ideal sto rng) as (sto' & Heq & _ & _ & _ & _ & _ & _ & Hnew).
  rewrite Heq in Ha |- *. cbn [fst snd] in *.
  apply elem_of_every_other in Ha as (k & Hk & ->).
  destruct (@PlanetScript.planetsData R Ideal !! k) as [data|] eqn:Hdata.
  - destruct (Hnew k data Hdata) as [Hmesh _].
    eexists. eexists. split; [exact Hmesh|]. split; [reflexivity|].
    cbn [planet_mesh angle position Ideal lit num_mul Math_PI]. unfold origin.
    cbn [Ideal lit]. rewrite !Real_literal_integer.
    pose proof (Hrandom (drawn rng + 6000 + k)%nat) as Hu. pose proof PI_RGT_0 as Hpi.
    split; [nra|reflexivity].
  - apply lookup_ge_None in Hdata. cbn [length PlanetScript.planetsData] in Hdata. lia.
Qed.

End IdealAngles.

Lemma first_angles_witness :
  let sto := mkStore (∅ : gmap nat (@Object3D R)) 0 in
  let rng := mkRandom (λ _, (1 / 2)%R) 0 in
  ∃ o u,
    objects (@PlanetScript.build_scene R Ideal sto rng).1.2 !! 4 = Some o
    ∧ userData o = Some u
    ∧ (0 <= angle u < 2 * PI)%R
    ∧ position o = mkVector3 0%R 0%R 0%R.
Proof.
  intros sto rng. apply (first_angles sto rng).
  - intros k. cbn. lra.
  - destruct (@build_scene_layout R Ideal sto rng) as (sto' & Heq & _).
    rewrite Heq. cbn. apply list_elem_of_here.
Defined.

(** ** Closing the panel *)

Section ClosePanel.
Context {num : Type} `{!JSNumber num}.
Variable raycast : @Vector2 num → @Camera num → @Object3D num → list num.
Implicit Types (w : World num) (v : Solar.Env num).

Lemma delete_last {A} (l : list A) a : delete (length l) (l ++ [a]) = l.
Proof. induction l as [|x l IH]; [done|]. simpl. f_equal. exact IH. Qed.

Lemma elem_of_classList_add_old token other l :
  token ∈ l → token ∈ classList_add other l.
Proof.
  intros Hl. unfold classList_add. case_decide; [done|].
  apply elem_of_app. by left.
Qed.

(** The running solar system, its panel, and the two turns of the event
    loop that close the panel. *)
Lemma running_world w v :
  Page.reachable raycast w → v ∈ solar w → Solar.closeBtn v ≠ None →
  orderly w ∧ solar w = [v] ∧ phase w = Running
  ∧ is_Some (document w !! "close-info")
  ∧ is_Some (document w !! "solar-scene").
Proof.
  intros Hw Hv Hc. pose proof (orderly_reachable raycast w Hw) as Ho.
  pose proof Ho as [Hs _]. split; [exact Ho|].
  assert (Hs1 : solar w = [v]).
  { pose proof (steady_single w Hs) as Hlen.
    destruct (solar w) as [|v0 [|v1 l]]; cbn in Hlen; try lia.
    - by apply elem_of_nil in Hv.
    - by apply list_elem_of_singleton in Hv as ->. }
  split; [exact Hs1|]. split.
  { rewrite (phase_cons w v [] Hs1). by destruct (Solar.closeBtn v). }
  destruct (steady_solar w Hs v Hv) as ((c & Hcanvas & _) & Hclose & _).
  split; [|by eexists].
  rewrite Hclose in Hc. unfold getElementById in Hc.
  by destruct (document w !! "close-info").
Qed.

Lemma close_click_step w v p click :
  Page.reachable raycast w → v ∈ solar w → Solar.closeBtn v ≠ None →
  Solar.infoPanel v = Some p →
  Page.step raycast (Page.Click "close-info" click) w
  = setTimeout (Solar_hidePanel 0) (lit 500 0)
      (update_element p
         (λ el, set_classList (classList_remove "show" (classList el)) el) w).
Proof.
  intros Hw Hv Hc Hp.
  destruct (running_world w v Hw Hv Hc) as (Ho & Hs1 & Hph & [el Hel] & _).
  rewrite (step_phased raycast _ w Ho). cbn [phased_step]. rewrite Hel.
  rewrite decide_False by done. rewrite decide_False by done.
  rewrite decide_True by done. rewrite Hph.
  unfold PlanetScript.closeClick. rewrite Hs1. cbn [lookup list_lookup]. by rewrite Hp.
Qed.

Lemma hide_timer_step w v p i df :
  Page.reachable raycast w → v ∈ solar w → Solar.closeBtn v ≠ None →
  Solar.infoPanel v = Some p → timeouts w !! i = Some df →
  Page.step raycast (Page.TimeoutFires i) w
  = update_element p (λ el, set_classList (classList_add "hidden" (classList el)) el)
      (set_timeouts (delete i (timeouts w)) w).
Proof.
  intros Hw Hv Hc Hp Hi.
  destruct (running_world w v Hw Hv Hc) as (Ho & Hs1 & Hph & _).
  rewrite (step_phased raycast _ w Ho). cbn [phased_step]. rewrite Hi.
  unfold PlanetScript.hidePanel. wsimpl. rewrite Hs1. cbn [lookup list_lookup].
  by rewrite Hp.
Qed.

(** X15. A click on the close button of the running solar system takes
    the class show off the panel at once and starts a timer of 500
    milliseconds; when the timer fires the panel gets the class hidden.
    Nothing but the class list of the panel and the list of timers
    changes on the way. *)
Theorem close_then_hide w v p click :
  Page.reachable raycast w → v ∈ solar w → Solar.closeBtn v ≠ None →
  Solar.infoPanel v = Some p →
  let w1 := Page.step raycast (Page.Click "close-info" click) w in
  let w2 := Page.step raycast (Page.TimeoutFires (length (timeouts w))) w1 in
  timeouts w1 = timeouts w ++ [(lit 500 0, Solar_hidePanel 0)]
  ∧ (∃ el, document w1 !! p = Some el ∧ ("show" ∉ classList el))
  ∧ (∃ el, document w2 !! p = Some el
           ∧ ("show" ∉ classList el) ∧ "hidden" ∈ classList el)
  ∧ (∀ id, id ≠ p → document w2 !! id = document w !! id)
  ∧ timeouts w2 = timeouts w ∧ solar w2 = solar w ∧ store w2 = store w.
Proof.
  intros Hw Hv Hc Hp w1 w2.
  pose proof (panel_bound_reachable raycast w Hw) as Hpanel.
  unfold panel_bound in Hpanel. rewrite Forall_forall in Hpanel.
  destruct (Hpanel v Hv) as (_ & _ & Hrp). destruct (Hrp p Hp) as [-> [el Hel]].
  assert (Hw1 : w1 = setTimeout (Solar_hidePanel 0) (lit 500 0)
                       (update_element "info-panel"
                          (λ el, set_classList (classList_remove "show" (classList el)) el)
                          w))
    by (by apply (close_click_step w v)).
  assert (Hr1 : Page.reachable raycast w1) by (by constructor).
  assert (Hw2 : w2 = update_element "info-panel"
                       (λ el, set_classList (classList_add "hidden" (classList el)) el)
                       (set_timeouts (delete (length (timeouts w)) (timeouts w1)) w1)).
  { apply (hide_timer_step w1 v "info-panel" _ (lit 500 0, Solar_hidePanel 0)); try done.
    - by rewrite Hw1.
    - rewrite Hw1. wsimpl. rewrite lookup_app_r by lia.
      by rewrite Nat.sub_diag. }
  rewrite Hw2, Hw1. wsimpl. rewrite delete_last.
  split; [done|]. split; [|split; [|split]].
  - eexists. rewrite lookup_alter_eq, Hel. split; [reflexivity|].
    apply not_elem_of_classList_remove.
  - eexists. rewrite !lookup_alter_eq, Hel. split; [reflexivity|]. cbn. split.
    + apply not_elem_of_classList_add; [done|]. apply not_elem_of_classList_remove.
    + apply elem_of_classList_add.
  - intros id Hne. by rewrite !lookup_alter_ne.
  - done.
Qed.

(** X16. The timer of the close button is not cancelled by a later
    selection. If, between the click on the close button and the moment
    its timer fires, a click on the canvas hits a planet, the panel is
    shown again for that planet, and when the timer fires it receives
    the class hidden all the same: the panel ends with both classes,
    show and hidden. *)
Theorem hide_timer_outlives_selection w v t c p click event hit rest :
  Page.reachable raycast w → v ∈ solar w → Solar.closeBtn v ≠ None →
  Solar.titleEl v = Some t → Solar.contentEl v = Some c → Solar.infoPanel v = Some p →
  picked raycast event w v = hit :: rest →
  let w1 := Page.step raycast (Page.Click "close-info" click) w in
  let w2 := Page.step raycast (Page.Click "solar-scene" event) w1 in
  let w3 := Page.step raycast (Page.TimeoutFires (length (timeouts w))) w2 in
  (∃ el, document w2 !! p = Some el
         ∧ "show" ∈ classList el ∧ ("hidden" ∉ classList el))
  ∧ (∃ el, document w3 !! p = Some el ∧ "show" ∈ classList el ∧ "hidden" ∈ classList el).
Proof.
  intros Hw Hv Hc Ht Hcont Hp Hhit w1 w2 w3.
  pose proof (panel_bound_reachable raycast w Hw) as Hpanel.
  unfold panel_bound in Hpanel. rewrite Forall_forall in Hpanel.
  destruct (Hpanel v Hv) as (Hrt & Hrc & Hrp).
  destruct (Hrt t Ht) as [-> _]. destruct (Hrc c Hcont) as [-> _].
  destruct (Hrp p Hp) as [-> [el Hel]].
  destruct (running_world w v Hw Hv Hc) as (Ho & Hs1 & Hph & _ & [canvas Hcanvas]).
  assert (Hw1 : w1 = setTimeout (Solar_hidePanel 0) (lit 500 0)
                       (update_element "info-panel"
                          (λ el, set_classList (classList_remove "show" (classList el)) el)
                          w))
    by (by apply (close_click_step w v)).
  assert (Hr1 : Page.reachable raycast w1) by (by constructor).
  assert (Hv1 : solar w1 = [v]) by (by rewrite Hw1).
  assert (Hw2 : w2 = PlanetScript.onCanvasClick raycast 0 event w1).
  { subst w2. rewrite (step_phased raycast _ w1 (orderly_reachable raycast w1 Hr1)).
    cbn [phased_step].
    assert (Hcanvas1 : is_Some (document w1 !! "solar-scene")).
    { rewrite Hw1. wsimpl. rewrite lookup_alter_ne by done. by eexists. }
    destruct Hcanvas1 as [canvas1 ->].
    rewrite decide_False by done. rewrite decide_True by done.
    rewrite (phase_cons w1 v [] Hv1). by destruct (Solar.closeBtn v). }
  assert (Hdoc2 : document w2
    = alter (λ el, set_classList (classList_add "show" (classList el)) el) "info-panel"
        (alter (λ el, set_classList (classList_remove "hidden" (classList el)) el)
           "info-panel"
           (alter (set_textContent
                     (from_option content ""
                        (objects (store w1) !! object hit ≫= userData))) "planet-content"
              (alter (set_textContent
                        (from_option name ""
                           (objects (store w1) !! object hit ≫= userData))) "planet-title"
                 (document w1))))).
  { rewrite Hw2. apply (onCanvasClick_hit raycast 0 event w1 v _ _ _ hit rest); try done.
    - by rewrite Hv1.
    - by rewrite Hw1. }
  assert (Hr2 : Page.reachable raycast w2) by (by constructor).
  assert (Hv2 : ∃ v2, solar w2 = [v2] ∧ Solar.closeBtn v2 = Solar.closeBtn v
                      ∧ Solar.infoPanel v2 = Some "info-panel").
  { rewrite Hw2. destruct (onCanvasClick_solar raycast 0 event w1) as (mouse & ->).
    rewrite Hv1. eexists. split; [reflexivity|]. by cbn. }
  destruct Hv2 as (v2 & Hv2 & Hc2 & Hp2).
  assert (Hto2 : timeouts w2 = timeouts w ++ [(lit 500 0, Solar_hidePanel 0)]).
  { rewrite Hw2. unfold PlanetScript.onCanvasClick. cbv zeta.
    repeat case_match; wsimpl; by rewrite Hw1. }
  assert (Hw3 : w3 = update_element "info-panel"
                       (λ el, set_classList (classList_add "hidden" (classList el)) el)
                       (set_timeouts (delete (length (timeouts w)) (timeouts w2)) w2)).
  { apply (hide_timer_step w2 v2 "info-panel" _ (lit 500 0, Solar_hidePanel 0)); try done.
    - rewrite Hv2. by left.
    - by rewrite Hc2.
    - rewrite Hto2, lookup_app_r by lia. by rewrite Nat.sub_diag. }
  assert (Hel2 : document w2 !! "info-panel"
    = Some (set_classList
              (classList_add "show"
                 (classList_remove "hidden" (classList_remove "show" (classList el)))) el)).
  { rewrite Hdoc2, !lookup_alter_eq, !lookup_alter_ne by done.
    rewrite Hw1. wsimpl. by rewrite lookup_alter_eq, Hel. }
  split.
  - eexists. split; [exact Hel2|]. cbn [classList set_classList]. split.
    + apply elem_of_classList_add.
    + apply not_elem_of_classList_add; [done|]. apply not_elem_of_classList_remove.
  - eexists. rewrite Hw3. wsimpl. rewrite lookup_alter_eq, Hel2.
    split; [reflexivity|]. cbn [classList set_classList]. split.
    + apply elem_of_classList_add_old, elem_of_classList_add.
    + apply elem_of_classList_add.
Qed.

End ClosePanel.

Lemma close_then_hide_witness :
  let w := @Page.run float F64_plain no_hit sample_visit sample_page in
  let w1 := @Page.step float F64_plain no_hit (Page.Click "close-info" centre_click) w in
  let w2 := @Page.step float F64_plain no_hit (Page.TimeoutFires (length (timeouts w))) w1 in
  ∃ el, document w2 !! "info-panel" = Some el
        ∧ ("show" ∉ classList el) ∧ "hidden" ∈ classList el.
Proof.
  intros w.
  assert (Hv : ∃ v, v ∈ solar w ∧ Solar.closeBtn v ≠ None
                    ∧ Solar.infoPanel v = Some "info-panel").
  { eexists. split; [vm_compute; apply list_elem_of_here|]. split; [discriminate|reflexivity]. }
  destruct Hv as (v & Hv & Hc & Hp).
  refine (proj1 (proj2 (proj2 (@close_then_hide float F64_plain no_hit w v "info-panel"
                                 centre_click _ Hv Hc Hp)))).
  apply reachable_run. constructor.
Defined.

Lemma hide_timer_outlives_selection_witness :
  let w := @Page.run float F64_plain radius_hit sample_visit sample_page in
  let w1 := @Page.step float F64_plain radius_hit (Page.Click "close-info" centre_click) w in
  let w2 := @Page.step float F64_plain radius_hit (Page.Click "solar-scene" centre_click) w1 in
  let w3 := @Page.step float F64_plain radius_hit
              (Page.TimeoutFires (length (timeouts w))) w2 in
  ∃ el, document w3 !! "info-panel" = Some el
        ∧ "show" ∈ classList el ∧ "hidden" ∈ classList el.
Proof.
  intros w.
  assert (Hv : ∃ v hit rest,
    v ∈ solar w ∧ Solar.closeBtn v ≠ None
    ∧ Solar.titleEl v = Some "planet-title" ∧ Solar.contentEl v = Some "planet-content"
    ∧ Solar.infoPanel v = Some "info-panel"
    ∧ @picked float F64_plain radius_hit centre_click w v = hit :: rest).
  { eexists. eexists. eexists. split; [vm_compute; apply list_elem_of_here|].
    split; [discriminate|]. split; [reflexivity|]. split; [reflexivity|].
    split; [reflexivity|]. vm_compute. reflexivity. }
  destruct Hv as (v & hit & rest & Hv & Hc & Ht & Hcont & Hp & Hhit).
  refine (proj2 (@hide_timer_outlives_selection float F64_plain radius_hit w v
                   "planet-title" "planet-content" "info-panel" centre_click centre_click
                   hit rest _ Hv Hc Ht Hcont Hp Hhit)).
  apply reachable_run. constructor.
Defined.

(** ** What moves the scene *)

Section SceneFrame.
Context {num : Type} `{!JSNumber num}.
Variable raycast : @Vector2 num → @Camera num → @Object3D num → list num.
Implicit Types (w : World num).

Lemma closeClick_store e w : store (PlanetScript.closeClick e w) = store w.
Proof. unfold PlanetScript.closeClick. repeat case_match; reflexivity. Qed.

Lemma hidePanel_store e w : store (PlanetScript.hidePanel e w) = store w.
Proof. unfold PlanetScript.hidePanel. repeat case_match; reflexivity. Qed.

Lemma onCanvasClick_random e event w :
  random (PlanetScript.onCanvasClick raycast e event w) = random w.
Proof.
  unfold PlanetScript.onCanvasClick. cbv zeta. repeat case_match; reflexivity.
Qed.

Lemma closeClick_random e w : random (PlanetScript.closeClick e w) = random w.
Proof. unfold PlanetScript.closeClick. repeat case_match; reflexivity. Qed.

Lemma hidePanel_random e w : random (PlanetScript.hidePanel e w) = random w.
Proof. unfold PlanetScript.hidePanel. repeat case_match; reflexivity. Qed.

Lemma animate_random e w : random (PlanetScript.animate e w) = random w.
Proof. unfold PlanetScript.animate. wsimpl. by destruct (solar w !! e). Qed.

Lemma landing_animate_random w : random (Script.animate w) = random w.
Proof. unfold Script.animate. cbv zeta. wsimpl. by destruct (landing w). Qed.

(** X17. The objects of the two scenes change on animation frames and
    when the solar system is built, and at no other time: a mousemove, a
    wheel, a resize, a click (on the start icon, on the canvas, on the
    close button, anywhere) or the timer of the panel leaves the store of
    Three.js objects exactly as it was, and so does a tween that
    completes once a solar system exists. [Math.random] is called while
    the page loads and while the solar system is built, and never
    again. *)
Theorem scene_moves_on_frames_only ev w :
  Page.reachable raycast w →
  let w' := Page.step raycast ev w in
  (ev ≠ Page.AnimationFrame → (∀ i, ev ≠ Page.TweenCompletes i) → store w' = store w)
  ∧ ((∀ i, ev ≠ Page.TweenCompletes i) → random w' = random w)
  ∧ (solar w ≠ [] → random w' = random w ∧ (ev ≠ Page.AnimationFrame → store w' = store w)).
Proof.
  intros Hw w'. pose proof (orderly_reachable raycast w Hw) as Ho.
  pose proof Ho as [Hs _].
  assert (Hstep : w' = phased_step raycast ev w) by apply (step_phased raycast _ w Ho).
  assert (Hlisten :
    (ev ≠ Page.AnimationFrame → (∀ i, ev ≠ Page.TweenCompletes i) → store w' = store w)
    ∧ ((∀ i, ev ≠ Page.TweenCompletes i) → random w' = random w)).
  { rewrite Hstep.
    destruct ev as [x y|d|width height|target event| |i|i]; cbn [phased_step]; cbv zeta.
    - split; intros; by destruct (phase w).
    - split; intros; by destruct (phase w).
    - split; intros; by destruct (phase w).
    - destruct (document w !! target); [|done].
      repeat case_decide; try done; destruct (phase w); try done;
        rewrite ?onCanvasClick_store, ?closeClick_store, ?onCanvasClick_random,
          ?closeClick_random; done.
    - split; [done|]. intros _.
      destruct (phase w); rewrite ?animate_random, landing_animate_random; done.
    - destruct (timeouts w !! i); [|done].
      by rewrite hidePanel_store, hidePanel_random.
    - split; [intros _ Hne|intros Hne]; by destruct (Hne i). }
  destruct Hlisten as [Hstore Hrandom].
  split; [exact Hstore|]. split; [exact Hrandom|].
  intros Hsolar.
  destruct ev as [x y|d|width height|target event| |i|i];
    try (split; [by apply Hrandom|intros _; by apply Hstore]).
  - split; [by apply Hrandom|done].
  - rewrite Hstep. cbn [phased_step].
    destruct (tweens w !! i) as [t|]; [|done]. cbv zeta.
    destruct (tw_onComplete t); [|done].
    unfold Script.onComplete.
    destruct (getElementById "solar-container" _) as [container|]; [|done].
    cbv zeta. wsimpl. destruct (has_initSolarSystem w); [|done].
    rewrite initSolarSystem_again; [done| |exact Hsolar].
    apply steady_update_element; [by intros el|]. by apply steady_delete_tween.
Qed.

End SceneFrame.

Lemma scene_moves_on_frames_only_witness :
  let w := @Page.run float F64_plain no_hit sample_visit sample_page in
  store (@Page.step float F64_plain no_hit (Page.Wheel (F64.literal 1000 0)) w) = store w.
Proof.
  intros w.
  refine (proj1 (@scene_moves_on_frames_only float F64_plain no_hit
                   (Page.Wheel (F64.literal 1000 0)) w _) _ _); [|done|done].
  apply reachable_run. constructor.
Defined.

(** ** The scenes as a function of the frames drawn *)

Section Frames.
Context {num : Type} `{!JSNumber num}.
Variable raycast : @Vector2 num → @Camera num → @Object3D num → list num.
Implicit Types (w : World num) (rnd : nat → num).





















End Frames.


(** ** The motion in closed form *)

Section IdealFrames.
Local Open Scope R_scope.
Variable raycast : @Vector2 R → @Camera R → @Object3D R → list R.




End IdealFrames.

